(** * foyer_xml_trimmer: a shallow embedding of [foyer_xml_trimmer.py]

    The module trims a Foyer force-field XML document down to the entries
    that a typed Parmed structure uses.  The embedding follows the Python
    source function by function: [_dict_to_xml], [_identify_schema],
    [_switch_class_type], [_topology_match] and [forcefield_trim].

    - Python [dict]s are insertion-ordered association lists ([dict]);
    - a parsed XML tree is the list of its elements in document order,
      which is what [root.iter(tag)] walks;
    - exceptions are values of [exn]; code that only computes lives in
      [result], code that appends to the output tree, prints or writes the
      output file lives in the state-and-exception monad [M]. *)

From Stdlib Require Import List String Ascii Arith PeanoNat Bool Lia.
From Stdlib Require Import DecimalString Permutation Sorted.
Import ListNotations.
Open Scope string_scope.
Open Scope list_scope.

(* ------------------------------------------------------------------ *)
(** ** Exceptions and the two monads *)

Inductive exn : Type :=
| KeyError        (* d[k] with k not in d *)
| IndexError      (* l[i] with i out of range *)
| AttributeError  (* obj.atomN on an object without that attribute *)
| ValueError      (* raised by the trimmer itself, or by a library call *)
| ParseError      (* ET.parse on a file that is not well-formed XML *)
| OSError.        (* a file that cannot be opened *)

Inductive result (A : Type) : Type :=
| Ok (a : A)
| Error (e : exn).
Arguments Ok {A} a.
Arguments Error {A} e.

Definition rbind {A B} (m : result A) (f : A -> result B) : result B :=
  match m with
  | Ok a => f a
  | Error e => Error e
  end.

Declare Scope result_scope.
Delimit Scope result_scope with result.
Notation "x <- m ;; k" := (rbind m (fun x => k))
  (at level 100, m at next level, right associativity) : result_scope.
Notation "' p <- m ;; k" := (rbind m (fun p => k))
  (at level 100, p pattern, m at next level, right associativity) : result_scope.

Definition of_option {A} (e : exn) (o : option A) : result A :=
  match o with
  | Some a => Ok a
  | None => Error e
  end.

(** [[f(x) for x in l]] where [f] may raise. *)
Fixpoint mapR {A B} (f : A -> result B) (l : list A) : result (list B) :=
  match l with
  | [] => Ok []
  | x :: l' => (y <- f x ;; ys <- mapR f l' ;; Ok (y :: ys))%result
  end.

(** [for x in l: acc = body(acc, x)] where the body may raise. *)
Fixpoint foldR {A S} (body : S -> A -> result S) (l : list A) (acc : S)
  : result S :=
  match l with
  | [] => Ok acc
  | x :: l' => (acc' <- body acc x ;; foldR body l' acc')%result
  end.

(* ------------------------------------------------------------------ *)
(** ** Python dictionaries with string keys *)

Definition dict : Type := list (string * string).

Fixpoint dict_get (d : dict) (k : string) : option string :=
  match d with
  | [] => None
  | (k', v) :: d' => if String.eqb k' k then Some v else dict_get d' k
  end.

(** [k in d] *)
Definition dict_mem (d : dict) (k : string) : bool :=
  match dict_get d k with
  | Some _ => true
  | None => false
  end.

(** [d[k]], raising [KeyError] *)
Definition dict_item (d : dict) (k : string) : result string :=
  of_option KeyError (dict_get d k).

(** [d[k] = v]: an existing key keeps its place, a new one goes last. *)
Fixpoint dict_set (d : dict) (k v : string) : dict :=
  match d with
  | [] => [(k, v)]
  | (k', v') :: d' =>
      if String.eqb k' k then (k', v) :: d' else (k', v') :: dict_set d' k v
  end.

(** [d.update(d')] *)
Definition dict_update (d d' : dict) : dict :=
  fold_left (fun acc kv => dict_set acc (fst kv) (snd kv)) d' d.

Definition dict_keys (d : dict) : list string := map fst d.

(* ------------------------------------------------------------------ *)
(** ** Strings *)

(** [sub in s] on strings. *)
Fixpoint str_contains (sub s : string) : bool :=
  if String.prefix sub s then true
  else match s with
       | EmptyString => false
       | String _ s' => str_contains sub s'
       end.

(** [str(i)] for a non-negative integer. *)
Definition str_of_nat (i : nat) : string :=
  NilZero.string_of_uint (Nat.to_uint i).

(** [s.split(',')]: never empty; [''.split(',') = ['']]. *)
Fixpoint split_comma (s : string) : list string :=
  match s with
  | EmptyString => [EmptyString]
  | String c s' =>
      if Ascii.eqb c "," then EmptyString :: split_comma s'
      else match split_comma s' with
           | [] => [String c EmptyString]
           | w :: ws => String c w :: ws
           end
  end.

(* ------------------------------------------------------------------ *)
(** ** XML documents *)

Record Element : Type := mkElement { tag : string; attrib : dict }.

(** A parsed source document: its elements in document order. *)
Definition document : Type := list Element.

(** [root.iter(t)] *)
Definition iter (root : document) (t : string) : list Element :=
  filter (fun e => String.eqb (tag e) t) root.

(** The output template: the children of its root, each a named section
    holding the elements appended to it. *)
Record section : Type := mkSection { stag : string; children : list Element }.

(** [_dict_to_xml(tag, temp_dict)] *)
Definition _dict_to_xml (t : string) (temp_dict : dict) : Element :=
  mkElement t temp_dict.

(** [for child in blank_root: if child.tag == t: child.append(elem)] *)
Definition append_to (blank_root : list section) (t : string) (elem : Element)
  : list section :=
  map (fun child =>
         if String.eqb (stag child) t
         then mkSection (stag child) (children child ++ [elem])
         else child)
      blank_root.

(* ------------------------------------------------------------------ *)
(** ** Schema classification *)

(** [f'class{i}'] and [f'type{i}'] *)
Definition class_key (i : nat) : string := "class" ++ str_of_nat i.
Definition type_key (i : nat) : string := "type" ++ str_of_nat i.

(** The loop of [_identify_schema] over [range(i, i + count)]. *)
Fixpoint identify_from (attrib_dict : dict) (i count : nat)
  : list string * nat :=
  match count with
  | 0 => ([], 0)
  | S count' =>
      let (schema, weight) := identify_from attrib_dict (S i) count' in
      if dict_mem attrib_dict (class_key i)
      then (class_key i :: schema, S weight)
      else (type_key i :: schema, weight)
  end.

Definition _identify_schema (attrib_dict : dict) (nparams : nat)
  : list string * nat :=
  identify_from attrib_dict 1 nparams.

Definition _switch_class_type (schema atom_class atom_type : string)
  : string :=
  if str_contains "class" schema then atom_class else atom_type.

(* ------------------------------------------------------------------ *)
(** ** Interaction kinds *)

Inductive kind : Type := Bond | Angle | Proper | Improper.

Definition kind_tag (k : kind) : string :=
  match k with
  | Bond => "Bond"
  | Angle => "Angle"
  | Proper => "Proper"
  | Improper => "Improper"
  end.

Definition xml_section (k : kind) : string :=
  match k with
  | Bond => "HarmonicBondForce"
  | Angle => "HarmonicAngleForce"
  | Proper => "RBTorsionForce"
  | Improper => "PeriodicTorsionForce"
  end.

Definition sequences (k : kind) : list (list nat) :=
  match k with
  | Bond => [[0;1]; [1;0]]
  | Angle => [[0;1;2]; [2;1;0]]
  | Proper => [[0;1;2;3]; [3;2;1;0]]
  | Improper => [[0;1;2;3]; [0;1;3;2]; [0;2;1;3];
                 [0;2;3;1]; [0;3;1;2]; [0;3;2;1]]
  end.

(** The [n_params] that [forcefield_trim] passes for each kind. *)
Definition arity (k : kind) : nat :=
  match k with
  | Bond => 2
  | Angle => 3
  | Proper => 4
  | Improper => 4
  end.

(** A typed Parmed structure, as far as the trimmer reads it: the
    [atom_type.name] of every atom and, per interaction list, the objects
    it holds; an interaction object is the list of the [.type] of its
    [atom1], [atom2], ... *)
Record Structure : Type := mkStructure {
  atoms : list string;
  bonds : list (list string);
  angles : list (list string);
  rb_torsions : list (list string);
  impropers : list (list string)
}.

(** [eval(f'typed_topo.{parmed_section[topo_type]}')] *)
Definition parmed_section (k : kind) (typed_topo : Structure)
  : list (list string) :=
  match k with
  | Bond => bonds typed_topo
  | Angle => angles typed_topo
  | Proper => rb_torsions typed_topo
  | Improper => impropers typed_topo
  end.

Definition tuple_eq_dec : forall x y : list string, {x = y} + {x <> y} :=
  list_eq_dec string_dec.

(** [[l[i] for i in seq]] *)
Definition reorder (seq : list nat) (l : list string) : result (list string) :=
  mapR (fun i => of_option IndexError (nth_error l i)) seq.

(** [topo_af]: the types of [atom1 .. atom{n_params}] of one object. *)
Definition atom_types_of (n_params : nat) (topo_element : list string)
  : result (list string) :=
  mapR (fun i => of_option AttributeError (nth_error topo_element i))
       (seq 0 n_params).

(** The loop that sets [unique]: [false] as soon as one reordering of
    [topo_af] is already in [topo_by_type]. *)
Fixpoint is_unique (seqs : list (list nat)) (topo_af : list string)
    (topo_by_type : list (list string)) : result bool :=
  match seqs with
  | [] => Ok true
  | seq :: seqs' =>
      (p <- reorder seq topo_af ;;
       if in_dec tuple_eq_dec p topo_by_type then Ok false
       else is_unique seqs' topo_af topo_by_type)%result
  end.

(** One round of the first loop of [_topology_match]. *)
Definition enumerate_step (topo_type : kind) (n_params : nat)
    (topo_by_type : list (list string)) (topo_element : list string)
  : result (list (list string)) :=
  (topo_af <- atom_types_of n_params topo_element ;;
   unique <- is_unique (sequences topo_type) topo_af topo_by_type ;;
   Ok (if unique : bool then topo_by_type ++ [topo_af] else topo_by_type))%result.

(** The first loop of [_topology_match]: the unique interactions. *)
Definition enumerate (topo_type : kind) (n_params : nat)
    (topo_temp : list (list string)) : result (list (list string)) :=
  foldR (enumerate_step topo_type n_params) topo_temp [].

(* ------------------------------------------------------------------ *)
(** ** Candidate records *)

(** [topo_dict = {'schema': ..., 'weight': ..., 'attrib': ...}] *)
Record topo_entry : Type := mkEntry {
  schema : list string;
  weight : nat;
  entry_attrib : dict
}.

Definition classify (n_params : nat) (topo : Element) : topo_entry :=
  let (schema, weight) := _identify_schema (attrib topo) n_params in
  mkEntry schema weight (attrib topo).

Definition topo_entry_temp (xml_root : document) (topo_type : kind)
    (n_params : nat) : list topo_entry :=
  map (classify n_params) (iter xml_root (kind_tag topo_type)).

(** [sorted(l, key=key)]: Python's sort is stable, and the result of a
    stable sort does not depend on the algorithm; insertion from the right
    puts an element before the later ones with the same key. *)
Fixpoint insert_by {A} (key : A -> nat) (x : A) (l : list A) : list A :=
  match l with
  | [] => [x]
  | y :: l' => if Nat.leb (key x) (key y) then x :: y :: l' else y :: insert_by key x l'
  end.

Fixpoint sorted {A} (key : A -> nat) (l : list A) : list A :=
  match l with
  | [] => []
  | x :: l' => insert_by key x (sorted key l')
  end.

Definition topo_entries (xml_root : document) (topo_type : kind)
    (n_params : nat) : list topo_entry :=
  sorted weight (topo_entry_temp xml_root topo_type n_params).

(** The loop over [enumerate(seq_test)] from position [i] on: the list
    [match] and the list [collection]. *)
Fixpoint compare_positions (atom_type_dict topo : dict) (schema : list string)
    (i : nat) (seq_test : list string) : result (list bool * list string) :=
  match seq_test with
  | [] => Ok ([], [])
  | seq :: seq_test' =>
      (key <- of_option IndexError (nth_error schema i) ;;
       value <- dict_item topo key ;;
       atom_class <- dict_item atom_type_dict seq ;;
       let hit := String.eqb value (_switch_class_type key atom_class seq) in
       ' (match_, collection) <-
           compare_positions atom_type_dict topo schema (S i) seq_test' ;;
       Ok (hit :: match_, value :: collection))%result
  end.

(** [all(match)] *)
Definition all (match_ : list bool) : bool := forallb (fun b => b) match_.

(* ------------------------------------------------------------------ *)
(** ** Effects: the output tree, standard output, the output file *)

Record world : Type := mkWorld {
  blank_root : list section;          (* the tree parsed from blank.xml *)
  stdout : list string;               (* the lines printed so far *)
  output_xml : option (list section)  (* the file written, if any *)
}.

Inductive run (A : Type) : Type :=
| Done (w : world) (a : A)      (* returned [a] *)
| Fail (w : world) (e : exn)    (* raised [e] *)
| OutOfFuel.                    (* the model's bound on [while] was hit *)
Arguments Done {A} w a.
Arguments Fail {A} w e.
Arguments OutOfFuel {A}.

Definition M (A : Type) : Type := world -> run A.

Definition ret {A} (a : A) : M A := fun w => Done w a.

Definition bind {A B} (m : M A) (f : A -> M B) : M B :=
  fun w =>
    match m w with
    | Done w' a => f a w'
    | Fail w' e => Fail w' e
    | OutOfFuel => OutOfFuel
    end.

Definition raise {A} (e : exn) : M A := fun w => Fail w e.

Definition lift {A} (r : result A) : M A :=
  match r with
  | Ok a => ret a
  | Error e => raise e
  end.

Declare Scope M_scope.
Delimit Scope M_scope with M.
Notation "x <- m ;; k" := (bind m (fun x => k))
  (at level 100, m at next level, right associativity) : M_scope.
Notation "' p <- m ;; k" := (bind m (fun p => k))
  (at level 100, p pattern, m at next level, right associativity) : M_scope.
Notation "m ;; k" := (bind m (fun _ => k))
  (at level 100, right associativity) : M_scope.

(** [for x in l: acc = body(acc, x)] with effects. *)
Fixpoint foldM {A S} (body : S -> A -> M S) (l : list A) (acc : S) : M S :=
  match l with
  | [] => ret acc
  | x :: l' => (acc' <- body acc x ;; foldM body l' acc')%M
  end.

(** Append [elem] to every child of [blank_root] tagged [t]. *)
Definition append_elem (t : string) (elem : Element) : M unit :=
  fun w => Done (mkWorld (append_to (blank_root w) t elem)
                         (stdout w) (output_xml w)) tt.

(** [print(...)] of one line. *)
Definition print (line : string) : M unit :=
  fun w => Done (mkWorld (blank_root w) (stdout w ++ [line]) (output_xml w)) tt.

(** [blank_tree.write(output_xml, ...)] once the file is open. *)
Definition write_output : M unit :=
  fun w => Done (mkWorld (blank_root w) (stdout w) (Some (blank_root w))) tt.

(** [blank_tree.write(output_xml, ...)]: [open_output] is what opening the
    path [output_xml] for writing does, nothing or the exception it raises
    (a [ValueError] for a path with a NUL byte, an [OSError] for a
    directory that does not exist); a failure while the open file is
    written is outside the model. *)
Definition write_file (open_output : result unit) : M unit :=
  (lift open_output ;; write_output)%M.

(* ------------------------------------------------------------------ *)
(** ** The matcher: the second half of [_topology_match] *)

(** The body of [for sequence in sequences[topo_type]], on the local
    variables [unique_collection] and [not_matched]. *)
Definition try_sequence (topo_type : kind) (atom_type_dict : dict)
    (topo_element : list string) (topo_entry : topo_entry)
    (st : list (list string) * bool) (sequence : list nat)
  : M (list (list string) * bool) :=
  let (unique_collection, not_matched) := st in
  if not_matched then
    (seq_test <- lift (reorder sequence topo_element) ;;
     ' (match_, collection) <-
         lift (compare_positions atom_type_dict (entry_attrib topo_entry)
                                 (schema topo_entry) 0 seq_test) ;;
     if all match_ then
       if in_dec tuple_eq_dec collection unique_collection
       then ret (unique_collection, false)
       else (append_elem (xml_section topo_type)
               (_dict_to_xml (kind_tag topo_type) (entry_attrib topo_entry)) ;;
             ret (unique_collection ++ [collection], false))
     else ret (unique_collection, not_matched))%M
  else ret (unique_collection, not_matched).

(** The body of [for topo_entry in topo_entries]. *)
Definition try_entry (topo_type : kind) (atom_type_dict : dict)
    (topo_element : list string)
    (st : list (list string) * bool) (topo_entry : topo_entry)
  : M (list (list string) * bool) :=
  foldM (try_sequence topo_type atom_type_dict topo_element topo_entry)
        (sequences topo_type) st.

(** The body of [for topo_element in topo_by_type]. *)
Definition match_element (topo_type : kind) (atom_type_dict : dict)
    (entries : list topo_entry)
    (unique_collection : list (list string)) (topo_element : list string)
  : M (list (list string)) :=
  (st <- foldM (try_entry topo_type atom_type_dict topo_element)
               entries (unique_collection, true) ;;
   ret (fst st))%M.

Definition match_all (topo_type : kind) (atom_type_dict : dict)
    (entries : list topo_entry) (topo_by_type : list (list string))
  : M (list (list string)) :=
  foldM (match_element topo_type atom_type_dict entries) topo_by_type [].

Definition _topology_match (atom_type_dict : dict) (typed_topo : Structure)
    (xml_root : document) (topo_type : kind) (n_params : nat) : M unit :=
  (topo_by_type <-
     lift (enumerate topo_type n_params (parmed_section topo_type typed_topo)) ;;
   let topo_entries := topo_entries xml_root topo_type n_params in
   match_all topo_type atom_type_dict topo_entries topo_by_type ;;
   ret tt)%M.

(* ------------------------------------------------------------------ *)
(** ** [forcefield_trim] *)

(** What the caller may pass as [typed_molecule]. *)
Inductive pyobject : Type :=
| PmdStructure (s : Structure)   (* isinstance(_, pmd.Structure) *)
| OtherObject.

(** The first loop: every [atom.atom_type.name], unresolved. *)
Definition initial_types (names : list string) : dict :=
  fold_left (fun d name => if dict_mem d name then d else dict_set d name "")
            names [].

(** [for override in overrides: if override not in atom_type_dict: ...] *)
Definition collect_overrides (atom_type_dict : dict) (overrides : list string)
    (atom_type_overrides_dict : dict) : dict :=
  fold_left (fun o override =>
               if dict_mem atom_type_dict override then o
               else dict_set o override "")
            overrides atom_type_overrides_dict.

(** The body of [for atom in xml_root.iter('Type')] for one [atom_type],
    on the pair ([atom_type_dict], [atom_type_overrides_dict]). *)
Definition scan_type (atom_type : string) (st : dict * dict) (atom : Element)
  : result (dict * dict) :=
  let (atom_type_dict, atom_type_overrides_dict) := st in
  (name <- dict_item (attrib atom) "name" ;;
   if String.eqb name atom_type then
     class <- dict_item (attrib atom) "class" ;;
     let atom_type_dict := dict_set atom_type_dict atom_type class in
     if dict_mem (attrib atom) "overrides" then
       overrides <- dict_item (attrib atom) "overrides" ;;
       Ok (atom_type_dict,
           collect_overrides atom_type_dict (split_comma overrides)
                             atom_type_overrides_dict)
     else Ok (atom_type_dict, atom_type_overrides_dict)
   else Ok (atom_type_dict, atom_type_overrides_dict))%result.

(** One pass of the [while] loop up to [atom_type_dict.update]: the keys
    walked are those the dictionary has when the pass starts (the pass
    only assigns to keys that exist). *)
Definition resolution_pass (xml_root : document) (atom_type_dict : dict)
  : result (dict * dict) :=
  foldR (fun st atom_type =>
           foldR (scan_type atom_type) (iter xml_root "Type") st)
        (dict_keys atom_type_dict) (atom_type_dict, []).

Definition note (key : string) : string :=
  "Note: atom type:  " ++ key ++
  "  is referenced in an overrides statement, but does not appear in the system.".

(** [while iterate: ...]; [fuel] bounds the number of passes. *)
Fixpoint resolve (fuel : nat) (xml_root : document) (atom_type_dict : dict)
  : M dict :=
  match fuel with
  | 0 => fun _ => OutOfFuel
  | S fuel' =>
      (' (atom_type_dict, atom_type_overrides_dict) <-
          lift (resolution_pass xml_root atom_type_dict) ;;
       let atom_type_dict :=
         dict_update atom_type_dict atom_type_overrides_dict in
       if Nat.ltb 0 (List.length atom_type_overrides_dict) then
         foldM (fun _ key => print (note key))
               (dict_keys atom_type_overrides_dict) tt ;;
         resolve fuel' xml_root atom_type_dict
       else ret atom_type_dict)%M
  end.

(** The body of the loop over the AtomTypes. *)
Definition copy_type (atom_type_dict : dict) (atom : Element) : M dict :=
  (name <- lift (dict_item (attrib atom) "name") ;;
   if dict_mem atom_type_dict name then
     class <- lift (dict_item (attrib atom) "class") ;;
     append_elem "AtomTypes" (_dict_to_xml "Type" (attrib atom)) ;;
     ret (dict_set atom_type_dict name class)
   else ret atom_type_dict)%M.

(** The body of the loop over the NonBondedForce section. *)
Definition copy_atom (atom_type_dict : dict) (_ : unit) (atom : Element)
  : M unit :=
  (type <- lift (dict_item (attrib atom) "type") ;;
   if dict_mem atom_type_dict type then
     append_elem "NonbondedForce" (_dict_to_xml "Atom" (attrib atom))
   else ret tt)%M.

(** [blank_root = blank_tree.getroot()] *)
Definition set_blank_root (root : list section) : M unit :=
  fun w => Done (mkWorld root (stdout w) (output_xml w)) tt.

(** The [else] branch of [forcefield_trim] up to the last call of
    [_topology_match]. *)
Definition trim_body (fuel : nat) (s : Structure) (xml_root : document)
  : M unit :=
  (let atom_type_dict := initial_types (atoms s) in
   atom_type_dict <- resolve fuel xml_root atom_type_dict ;;
   atom_type_dict <- foldM copy_type (iter xml_root "Type") atom_type_dict ;;
   foldM (copy_atom atom_type_dict) (iter xml_root "Atom") tt ;;
   _topology_match atom_type_dict s xml_root Bond 2 ;;
   _topology_match atom_type_dict s xml_root Angle 3 ;;
   _topology_match atom_type_dict s xml_root Proper 4 ;;
   _topology_match atom_type_dict s xml_root Improper 4)%M.

(** [forcefield_trim(typed_molecule, input_xml, output_xml)].

    [blank_xml] is what [resource_filename] and [ET.parse] give for the
    packaged [data/blank.xml], and [input_xml] what [ET.parse] gives for
    the file named by the caller: the parsed tree, or the exception that
    was raised, which can be any exception, a [ValueError] included (a
    path with a NUL byte).  [open_output] is what opening the output file
    does, see [write_file].  [ET.indent] only changes white space and has
    no counterpart here. *)
Definition forcefield_trim (fuel : nat) (typed_molecule : pyobject)
    (blank_xml : result (list section)) (input_xml : result document)
    (open_output : result unit)
  : M unit :=
  (root <- lift blank_xml ;;
   set_blank_root root ;;
   xml_root <- lift input_xml ;;
   match typed_molecule with
   | OtherObject => raise ValueError
   | PmdStructure s =>
       trim_body fuel s xml_root ;;
       write_file open_output
   end)%M.

Definition empty_world : world := mkWorld [] [] None.

Definition is_structure (typed_molecule : pyobject) : bool :=
  match typed_molecule with
  | PmdStructure _ => true
  | OtherObject => false
  end.

(** The exceptions that the lookups of the trimmer can raise. *)
Definition lookup_failure (e : exn) : Prop :=
  e = KeyError \/ e = IndexError \/ e = AttributeError.

(** [r] raises only exceptions in [P]. *)
Definition rsafe {A} (P : exn -> Prop) (r : result A) : Prop :=
  forall e, r = Error e -> P e.

(** [m] raises only exceptions in [P]. *)
Definition msafe {A} (P : exn -> Prop) (m : M A) : Prop :=
  forall w, match m w with
            | Done _ _ => True
            | Fail _ e => P e
            | OutOfFuel => True
            end.

(* ------------------------------------------------------------------ *)
(** ** Notions used to state the properties *)

(** What one round of the matcher computes for one ordering: whether every
    position matched, and the record's values ([collection]). *)
Definition eval_sequence (atom_type_dict : dict) (topo_element : list string)
    (e : topo_entry) (sequence : list nat) : result (bool * list string) :=
  (seq_test <- reorder sequence topo_element ;;
   ' (match_, collection) <-
       compare_positions atom_type_dict (entry_attrib e) (schema e) 0 seq_test ;;
   Ok (all match_, collection))%result.

(** The first ordering under which a record matches, if any. *)
Fixpoint eval_entry (atom_type_dict : dict) (topo_element : list string)
    (e : topo_entry) (seqs : list (list nat)) : result (option (list string)) :=
  match seqs with
  | [] => Ok None
  | s :: seqs' =>
      (' (b, c) <- eval_sequence atom_type_dict topo_element e s ;;
       if b : bool then Ok (Some c)
       else eval_entry atom_type_dict topo_element e seqs')%result
  end.

(** The first record, in scan order, that matches an interaction. *)
Fixpoint first_match (k : kind) (atom_type_dict : dict)
    (topo_element : list string) (entries : list topo_entry)
  : result (option (topo_entry * list string)) :=
  match entries with
  | [] => Ok None
  | e :: entries' =>
      (o <- eval_entry atom_type_dict topo_element e (sequences k) ;;
       match o with
       | Some c => Ok (Some (e, c))
       | None => first_match k atom_type_dict topo_element entries'
       end)%result
  end.

(** A record can match an interaction: under some ordering of the kind,
    every position compares equal. *)
Definition record_matches (k : kind) (atom_type_dict : dict)
    (topo_element : list string) (e : topo_entry) : bool :=
  existsb (fun s => match eval_sequence atom_type_dict topo_element e s with
                    | Ok (b, _) => b
                    | Error _ => false
                    end)
          (sequences k).

(** The effect of a match: the record is appended unless its values were
    recorded before. *)
Definition emit (k : kind) (e : topo_entry) (c : list string)
    (unique_collection : list (list string)) (w : world)
  : world * list (list string) :=
  if in_dec tuple_eq_dec c unique_collection then (w, unique_collection)
  else (mkWorld (append_to (blank_root w) (xml_section k)
                           (_dict_to_xml (kind_tag k) (entry_attrib e)))
                (stdout w) (output_xml w),
        unique_collection ++ [c]).

(** Every section tagged [t] receives the elements [es], in order. *)
Definition append_all (blank_root : list section) (t : string)
    (es : list Element) : list section :=
  map (fun child =>
         if String.eqb (stag child) t
         then mkSection (stag child) (children child ++ es)
         else child)
      blank_root.

(** Two tuples are the same interaction: one is a reordering of the other
    by one of the kind's sequences. *)
Definition equivalent (k : kind) (x y : list string) : Prop :=
  exists s, In s (sequences k) /\ reorder s x = Ok y.

(** The position of the first occurrence of [x] in [l]. *)
Fixpoint first_index (x : list string) (l : list (list string)) : option nat :=
  match l with
  | [] => None
  | y :: l' =>
      if tuple_eq_dec x y then Some 0 else option_map S (first_index x l')
  end.

(** [R x y] holds whenever [x] comes before [y] in [l]. *)
Definition ordered_pairs {A} (R : A -> A -> Prop) (l : list A) : Prop :=
  forall l1 y l2, l = l1 ++ y :: l2 -> forall x, In x l1 -> R x y.

(** [respelled k l l']: [l'] is [l] where occurrences that repeat an
    earlier interaction may be written in another of its orderings. *)
Inductive respelled (k : kind)
  : list (list string) -> list (list string) -> Prop :=
| respelled_nil : respelled k [] []
| respelled_same l l' x :
    respelled k l l' -> respelled k (l ++ [x]) (l' ++ [x])
| respelled_dup l l' x x' :
    respelled k l l' ->
    (exists y, In y l /\ equivalent k x y) ->
    equivalent k x x' ->
    respelled k (l ++ [x]) (l' ++ [x']).

(** What the first loop of [_topology_match] maintains: [acc] is what was
    retained of the interactions [pre] read so far. *)
Definition retained (k : kind) (pre acc : list (list string)) : Prop :=
  Forall (fun x => List.length x = arity k) acc /\
  (forall x, In x acc -> In x pre) /\
  (forall x, In x pre -> exists y, In y acc /\ equivalent k x y) /\
  ordered_pairs
    (fun x y => ~ equivalent k y x /\
                exists p q, first_index x pre = Some p /\
                            first_index y pre = Some q /\ p < q)
    acc.

(** The specificity of a record in the spec's words (its sections 3 and
    4.2): the number of its class-constrained positions, a position being
    class-constrained when the record defines the class attribute for it.
    The code's [weight] is compared with it, not defined by it. *)
Definition class_positions (n_params : nat) (attrib_dict : dict) : nat :=
  List.length (filter (fun i => dict_mem attrib_dict (class_key i))
                      (seq 1 n_params)).

(** A record names every position it is to be matched at: position [i]
    carries [class{i}] or, failing that, [type{i}]. *)
Definition complete (n_params : nat) (attrib_dict : dict) : Prop :=
  forall i, 1 <= i <= n_params ->
            dict_mem attrib_dict (class_key i) = true \/
            dict_mem attrib_dict (type_key i) = true.

(** The order that [sorted] establishes. *)
Definition le_key {A} (key : A -> nat) (x y : A) : Prop := key x <= key y.

(** The element [elem] was appended for a record of [records] whose values
    are [c]. *)
Definition emitted_by (k : kind) (n_params : nat) (atom_type_dict : dict)
    (records : list Element) (elem : Element) (c : list string) : Prop :=
  exists r topo_element s b,
    In r records /\
    elem = _dict_to_xml (kind_tag k) (attrib r) /\
    In s (sequences k) /\
    eval_sequence atom_type_dict topo_element (classify n_params r) s
      = Ok (b, c).

(** What the second loop of [_topology_match] maintains, from the world
    [w0] it started in: the elements appended so far answer, one for one,
    to the members of [unique_collection], which are all different. *)
Definition matcher_state (k : kind) (n_params : nat) (atom_type_dict : dict)
    (records : list Element) (w0 w : world)
    (unique_collection : list (list string)) : Prop :=
  exists emitted,
    blank_root w = append_all (blank_root w0) (xml_section k) emitted /\
    stdout w = stdout w0 /\
    output_xml w = output_xml w0 /\
    Forall2 (emitted_by k n_params atom_type_dict records)
            emitted unique_collection /\
    NoDup unique_collection.

(** Every [Type] element of the document carries a name and a class. *)
Definition well_formed_types (xml_root : document) : Prop :=
  forall e, In e (iter xml_root "Type") ->
            dict_mem (attrib e) "name" = true /\
            dict_mem (attrib e) "class" = true.

(** [id] is listed in the [overrides] attribute of one of the elements
    [types] whose name is in [known]. *)
Definition referenced (types : list Element) (known : list string)
    (id : string) : Prop :=
  exists e t ov,
    In e types /\ In t known /\
    dict_get (attrib e) "name" = Some t /\
    dict_get (attrib e) "overrides" = Some ov /\
    In id (split_comma ov).

(** The types reachable from the structure's own through overrides. *)
Inductive reachable (xml_root : document) (names : list string)
  : string -> Prop :=
| reachable_own id : In id names -> reachable xml_root names id
| reachable_override id e t ov :
    In e (iter xml_root "Type") ->
    dict_get (attrib e) "name" = Some t ->
    reachable xml_root names t ->
    dict_get (attrib e) "overrides" = Some ov ->
    In id (split_comma ov) ->
    reachable xml_root names id.

(** Every identifier that some [overrides] attribute lists. *)
Definition override_tokens (xml_root : document) : list string :=
  flat_map (fun e => match dict_get (attrib e) "overrides" with
                     | Some ov => split_comma ov
                     | None => []
                     end)
           (iter xml_root "Type").

(** The identifiers listed somewhere that the map does not hold yet: the
    quantity that every pass but the last makes smaller. *)
Definition unknown_tokens (xml_root : document) (atom_type_dict : dict) : nat :=
  List.length (filter (fun id => negb (dict_mem atom_type_dict id))
                      (override_tokens xml_root)).


(* ------------------------------------------------------------------ *)
(** ** [forcefield_score] *)

(** [xml_atom_type_dict_score]: a dictionary from type names to integers. *)
Definition score_dict : Type := list (string * nat).

(** [d[k] = v] on a [score_dict]. *)
Fixpoint score_set (d : score_dict) (k : string) (v : nat) : score_dict :=
  match d with
  | [] => [(k, v)]
  | (k', v') :: d' =>
      if String.eqb k' k then (k', v) :: d' else (k', v') :: score_set d' k v
  end.

(** The body of the loop over the AtomTypes in [forcefield_score]; the
    right-hand side of the first assignment is evaluated before its key. *)
Definition score_type (st : dict * score_dict) (atom : Element)
  : result (dict * score_dict) :=
  let (xml_atom_type_dict, xml_atom_type_dict_score) := st in
  (class <- dict_item (attrib atom) "class" ;;
   name <- dict_item (attrib atom) "name" ;;
   let xml_atom_type_dict := dict_set xml_atom_type_dict name class in
   name <- dict_item (attrib atom) "name" ;;
   Ok (xml_atom_type_dict, score_set xml_atom_type_dict_score name 0))%result.

(** [forcefield_score(typed_molecule, input_xml)].  [input_xml] is what
    [ET.parse] gives for the file, as for [forcefield_trim].  The last
    loop of the source only evaluates the name [xml_atom_type_dict_score]
    and has no effect; the function returns [None]. *)
Definition forcefield_score (fuel : nat) (typed_molecule : pyobject)
    (input_xml : result document) : M unit :=
  (xml_root <- lift input_xml ;;
   match typed_molecule with
   | OtherObject => raise ValueError
   | PmdStructure s =>
       let atom_type_dict := initial_types (atoms s) in
       atom_type_dict <- resolve fuel xml_root atom_type_dict ;;
       _ <- lift (foldR score_type (iter xml_root "Type") ([], [])) ;;
       ret tt
   end)%M.

(* ------------------------------------------------------------------ *)
(** ** Notions used to state the further properties *)

(** [b'] is the tree [b] with elements appended to some of its sections:
    the same sections in the same order, each with its former children
    first. *)
Definition extends (b b' : list section) : Prop :=
  Forall2 (fun s s' => stag s' = stag s /\
                       exists added, children s' = children s ++ added)
          b b'.

(** Every outcome of [m] is related by [R] to the world [m] started in. *)
Definition respects {A} (R : world -> world -> Prop) (m : M A) : Prop :=
  forall w, match m w with
            | Done w' _ => R w w'
            | Fail w' _ => R w w'
            | OutOfFuel => True
            end.

(** Nothing was written, and the output tree was only appended to. *)
Definition only_appends (w w' : world) : Prop :=
  output_xml w' = output_xml w /\ extends (blank_root w) (blank_root w').

(** Nothing was written or appended; only lines were printed. *)
Definition only_prints (w w' : world) : Prop :=
  output_xml w' = output_xml w /\ blank_root w' = blank_root w /\
  exists lines, stdout w' = stdout w ++ lines.

(** [m] only appends to the tree and, when it returns, has written the
    tree to the output file; when it raises, no file was written. *)
Definition writes_at_end {A} (m : M A) : Prop :=
  forall w, match m w with
            | Done w' _ => output_xml w' = Some (blank_root w') /\
                           extends (blank_root w) (blank_root w')
            | Fail w' _ => only_appends w w'
            | OutOfFuel => True
            end.

(** The element is a definition of the type [t]. *)
Definition name_is (t : string) (e : Element) : bool :=
  match dict_get (attrib e) "name" with
  | Some name => String.eqb name t
  | None => false
  end.

(** Some element among [types] defines the type [t]. *)
Definition defined (types : list Element) (t : string) : bool :=
  existsb (name_is t) types.

(** Every value of the dictionary is the empty string. *)
Definition all_empty (d : dict) : Prop :=
  Forall (fun kv => snd kv = "") d.

(** The class that the last definition of [t] among [types] gives. *)
Definition class_of (types : list Element) (t : string) : option string :=
  match rev (filter (name_is t) types) with
  | e :: _ => dict_get (attrib e) "class"
  | [] => None
  end.

(** The [Type] element names a type that the map holds. *)
Definition known_type (atom_type_dict : dict) (e : Element) : bool :=
  match dict_get (attrib e) "name" with
  | Some name => dict_mem atom_type_dict name
  | None => false
  end.

(** The [Atom] element is for a type that the map holds. *)
Definition known_atom (atom_type_dict : dict) (e : Element) : bool :=
  match dict_get (attrib e) "type" with
  | Some type => dict_mem atom_type_dict type
  | None => false
  end.

(** [emitted] holds records of the kind [k] from the document, each at
    most once. *)
Definition records_of (xml_root : document) (k : kind)
    (emitted : list Element) : Prop :=
  NoDup emitted /\
  Forall (fun elem => exists r, In r (iter xml_root (kind_tag k)) /\
                                elem = _dict_to_xml (kind_tag k) (attrib r))
         emitted.

(** [elem] is a record of the kind from the document that can match one
    of the interactions [topo_by_type]. *)
Definition used_record (k : kind) (n_params : nat) (atom_type_dict : dict)
    (xml_root : document) (topo_by_type : list (list string))
    (elem : Element) : Prop :=
  exists r el,
    In r (iter xml_root (kind_tag k)) /\
    elem = _dict_to_xml (kind_tag k) (attrib r) /\
    In el topo_by_type /\
    record_matches k atom_type_dict el (classify n_params r) = true.

(** What the structure and the document must provide for a run of
    [forcefield_trim] to go through: named and classed [Type] elements,
    typed [Atom] elements, records that name every position, interaction
    objects with as many atoms as their kind has, of types that atoms of
    the structure have. *)
Definition well_formed_input (s : Structure) (xml_root : document) : Prop :=
  well_formed_types xml_root /\
  (forall e, In e (iter xml_root "Atom") ->
             dict_mem (attrib e) "type" = true) /\
  (forall k r, In r (iter xml_root (kind_tag k)) ->
               complete (arity k) (attrib r)) /\
  (forall k e, In e (parmed_section k s) ->
               List.length e = arity k /\
               forall a, In a e -> In a (atoms s)).

(* ================================================================== *)
(** * Properties *)

(** ** The monads *)

Lemma rsafe_bind {A B} (P : exn -> Prop) (m : result A) (f : A -> result B) :
  rsafe P m -> (forall a, rsafe P (f a)) -> rsafe P (rbind m f).
Proof.
  intros Hm Hf e. destruct m as [a|e']; simpl.
  - apply Hf.
  - intros [= <-]. now apply Hm.
Qed.

Lemma rsafe_Ok {A} (P : exn -> Prop) (a : A) : rsafe P (Ok a).
Proof. intros e; discriminate. Qed.

Lemma rsafe_of_option {A} (P : exn -> Prop) (e : exn) (o : option A) :
  P e -> rsafe P (of_option e o).
Proof. intros He e'. destruct o; simpl; [discriminate | now intros [= <-]]. Qed.

Lemma rsafe_mapR {A B} (P : exn -> Prop) (f : A -> result B) (l : list A) :
  (forall a, rsafe P (f a)) -> rsafe P (mapR f l).
Proof.
  intros Hf. induction l as [|x l IH]; simpl.
  - apply rsafe_Ok.
  - apply rsafe_bind; [apply Hf|]. intros y.
    apply rsafe_bind; [exact IH|]. intros ys. apply rsafe_Ok.
Qed.

Lemma rsafe_foldR {A S} (P : exn -> Prop) (body : S -> A -> result S)
    (l : list A) :
  (forall s a, rsafe P (body s a)) -> forall acc, rsafe P (foldR body l acc).
Proof.
  intros Hb. induction l as [|x l IH]; intros acc; simpl.
  - apply rsafe_Ok.
  - apply rsafe_bind; [apply Hb | exact IH].
Qed.

Lemma msafe_ret {A} (P : exn -> Prop) (a : A) : msafe P (ret a).
Proof. intros w. exact I. Qed.

Lemma msafe_bind {A B} (P : exn -> Prop) (m : M A) (f : A -> M B) :
  msafe P m -> (forall a, msafe P (f a)) -> msafe P (bind m f).
Proof.
  intros Hm Hf w. unfold bind. specialize (Hm w).
  destruct (m w) as [w' a|w' e|]; auto. apply Hf.
Qed.

Lemma msafe_lift {A} (P : exn -> Prop) (r : result A) :
  rsafe P r -> msafe P (lift r).
Proof.
  intros Hr w. destruct r as [a|e]; simpl; [exact I | now apply Hr].
Qed.

Lemma msafe_foldM {A S} (P : exn -> Prop) (body : S -> A -> M S)
    (l : list A) :
  (forall s a, msafe P (body s a)) -> forall acc, msafe P (foldM body l acc).
Proof.
  intros Hb. induction l as [|x l IH]; intros acc; simpl.
  - apply msafe_ret.
  - apply msafe_bind; [apply Hb | exact IH].
Qed.

Lemma msafe_append_elem (P : exn -> Prop) t e : msafe P (append_elem t e).
Proof. intros w. exact I. Qed.

Lemma msafe_print (P : exn -> Prop) line : msafe P (print line).
Proof. intros w. exact I. Qed.

Create HintDb safe.
#[local] Hint Resolve rsafe_Ok rsafe_bind rsafe_mapR rsafe_foldR
  msafe_ret msafe_bind msafe_lift msafe_foldM msafe_append_elem
  msafe_print : safe.

Lemma lookup_KeyError : lookup_failure KeyError.
Proof. now left. Qed.
Lemma lookup_IndexError : lookup_failure IndexError.
Proof. right; now left. Qed.
Lemma lookup_AttributeError : lookup_failure AttributeError.
Proof. right; now right. Qed.
#[local] Hint Resolve lookup_KeyError lookup_IndexError
  lookup_AttributeError : safe.

Lemma rsafe_dict_item d k : rsafe lookup_failure (dict_item d k).
Proof. apply rsafe_of_option. auto with safe. Qed.
#[local] Hint Resolve rsafe_dict_item : safe.

(** ** Only look-ups fail once the structure was accepted *)

Lemma rsafe_reorder seq l : rsafe lookup_failure (reorder seq l).
Proof.
  apply rsafe_mapR. intros i. apply rsafe_of_option. auto with safe.
Qed.

Lemma rsafe_atom_types_of n e : rsafe lookup_failure (atom_types_of n e).
Proof.
  apply rsafe_mapR. intros i. apply rsafe_of_option. auto with safe.
Qed.

Lemma rsafe_is_unique seqs af acc :
  rsafe lookup_failure (is_unique seqs af acc).
Proof.
  induction seqs as [|s seqs IH]; simpl.
  - apply rsafe_Ok.
  - apply rsafe_bind; [apply rsafe_reorder|]. intros p.
    destruct (in_dec tuple_eq_dec p acc); [apply rsafe_Ok | exact IH].
Qed.

Lemma rsafe_enumerate k n l : rsafe lookup_failure (enumerate k n l).
Proof.
  apply rsafe_foldR. intros acc e. unfold enumerate_step.
  apply rsafe_bind; [apply rsafe_atom_types_of|]. intros af.
  apply rsafe_bind; [apply rsafe_is_unique|]. intros u. apply rsafe_Ok.
Qed.

Lemma rsafe_compare_positions atd topo sch st :
  forall i, rsafe lookup_failure (compare_positions atd topo sch i st).
Proof.
  induction st as [|x st IH]; intros i; simpl.
  - apply rsafe_Ok.
  - apply rsafe_bind; [apply rsafe_of_option; auto with safe|]. intros key.
    apply rsafe_bind; [auto with safe|]. intros v.
    apply rsafe_bind; [auto with safe|]. intros c.
    apply rsafe_bind; [apply IH|]. intros [m col]. apply rsafe_Ok.
Qed.

Lemma msafe_try_sequence k atd el en st sq :
  msafe lookup_failure (try_sequence k atd el en st sq).
Proof.
  unfold try_sequence. destruct st as [uc [|]]; [|apply msafe_ret].
  apply msafe_bind; [apply msafe_lift, rsafe_reorder|]. intros seq_test.
  apply msafe_bind; [apply msafe_lift, rsafe_compare_positions|].
  intros [m c]. destruct (all m); [|apply msafe_ret].
  destruct (in_dec tuple_eq_dec c uc); [apply msafe_ret|].
  apply msafe_bind; auto with safe.
Qed.

Lemma msafe_topology_match atd s xml k n :
  msafe lookup_failure (_topology_match atd s xml k n).
Proof.
  unfold _topology_match.
  apply msafe_bind; [apply msafe_lift, rsafe_enumerate|]. intros tbt.
  apply msafe_bind; [|intros; apply msafe_ret].
  unfold match_all. apply msafe_foldM. intros uc el. unfold match_element.
  apply msafe_bind; [|intros; apply msafe_ret].
  apply msafe_foldM. intros st en. unfold try_entry.
  apply msafe_foldM. intros st' sq. apply msafe_try_sequence.
Qed.

Lemma rsafe_scan_type t st e : rsafe lookup_failure (scan_type t st e).
Proof.
  unfold scan_type. destruct st as [atd ovr].
  apply rsafe_bind; [auto with safe|]. intros name.
  destruct (String.eqb name t); [|apply rsafe_Ok].
  apply rsafe_bind; [auto with safe|]. intros c.
  destruct (dict_mem (attrib e) "overrides"); [|apply rsafe_Ok].
  apply rsafe_bind; [auto with safe|]. intros o. apply rsafe_Ok.
Qed.

Lemma msafe_resolve fuel xml :
  forall atd, msafe lookup_failure (resolve fuel xml atd).
Proof.
  induction fuel as [|fuel IH]; intros atd; simpl.
  - intros w. exact I.
  - apply msafe_bind.
    + apply msafe_lift. unfold resolution_pass. apply rsafe_foldR.
      intros st t. apply rsafe_foldR. intros st' e. apply rsafe_scan_type.
    + intros [atd1 ovr]. destruct (Nat.ltb 0 (List.length ovr)).
      * apply msafe_bind; [|intros; apply IH].
        apply msafe_foldM. intros; apply msafe_print.
      * apply msafe_ret.
Qed.

Lemma msafe_copy_type atd e : msafe lookup_failure (copy_type atd e).
Proof.
  unfold copy_type. apply msafe_bind; [auto with safe|]. intros name.
  destruct (dict_mem atd name); [|apply msafe_ret].
  apply msafe_bind; [auto with safe|]. intros c.
  apply msafe_bind; auto with safe.
Qed.

Lemma msafe_copy_atom atd u e : msafe lookup_failure (copy_atom atd u e).
Proof.
  unfold copy_atom. apply msafe_bind; [auto with safe|]. intros t.
  destruct (dict_mem atd t); auto with safe.
Qed.

(** The [else] branch of [forcefield_trim] before the file is written. *)
Lemma msafe_trim_body fuel s xml_root :
  msafe lookup_failure (trim_body fuel s xml_root).
Proof.
  unfold trim_body.
  apply msafe_bind; [apply msafe_resolve|]. intros atd.
  apply msafe_bind; [apply msafe_foldM; intros; apply msafe_copy_type|].
  intros atd'.
  apply msafe_bind; [apply msafe_foldM; intros; apply msafe_copy_atom|].
  intros _.
  repeat (apply msafe_bind; [apply msafe_topology_match|]; intros _).
  apply msafe_topology_match.
Qed.

(* ------------------------------------------------------------------ *)
(** ** The order of the checks in [forcefield_trim] *)

Lemma trim_after_parse fuel typed_molecule root xml_root open_output w :
  forcefield_trim fuel typed_molecule (Ok root) (Ok xml_root) open_output w =
  match typed_molecule with
  | OtherObject => Fail (mkWorld root (stdout w) (output_xml w)) ValueError
  | PmdStructure s =>
      (trim_body fuel s xml_root ;; write_file open_output)%M
        (mkWorld root (stdout w) (output_xml w))
  end.
Proof. destruct typed_molecule; reflexivity. Qed.

(** With a structure and both documents parsed, the run is that of the
    [else] branch followed by the opening of the output file. *)
Lemma trim_structure_run fuel s root xml_root open_output w :
  forcefield_trim fuel (PmdStructure s) (Ok root) (Ok xml_root) open_output w =
  match trim_body fuel s xml_root (mkWorld root (stdout w) (output_xml w)) with
  | Done w' _ =>
      match open_output with
      | Ok _ => Done (mkWorld (blank_root w') (stdout w')
                              (Some (blank_root w'))) tt
      | Error e => Fail w' e
      end
  | Fail w' e => Fail w' e
  | OutOfFuel => OutOfFuel
  end.
Proof.
  rewrite trim_after_parse. unfold bind.
  destruct (trim_body fuel s xml_root _) as [w' u|w' e|]; try reflexivity.
  unfold write_file, bind. now destruct open_output.
Qed.

(** C10: both documents are parsed before the kind of [typed_molecule] is
    looked at.  When the input file does not parse, the exception of a
    parse is raised whatever [typed_molecule] is, and nothing is printed
    or written; and a [ValueError] that does not come from a parse is only
    ever seen when both documents parsed. *)
Theorem trim_parses_before_type_check
    fuel typed_molecule blank_xml input_xml open_output w :
  (forall e, input_xml = Error e ->
   exists w' e',
     forcefield_trim fuel typed_molecule blank_xml input_xml open_output w
       = Fail w' e' /\
     (blank_xml = Error e' \/ e' = e) /\
     stdout w' = stdout w /\ output_xml w' = output_xml w) /\
  (forall w',
     forcefield_trim fuel typed_molecule blank_xml input_xml open_output w
       = Fail w' ValueError ->
     blank_xml <> Error ValueError -> input_xml <> Error ValueError ->
     exists root xml_root, blank_xml = Ok root /\ input_xml = Ok xml_root).
Proof.
  split.
  - intros e ->. destruct blank_xml as [root|e'].
    + exists (mkWorld root (stdout w) (output_xml w)), e.
      split; [reflexivity|]. auto.
    + exists w, e'. split; [reflexivity|]. auto.
  - intros w' H Hb Hi. destruct blank_xml as [root|e'].
    + destruct input_xml as [xml_root|e]; [eauto|].
      injection H as _ ->. now destruct Hi.
    + injection H as _ ->. now destruct Hb.
Qed.

Lemma trim_parses_before_type_check_witness :
  (exists w' e',
     forcefield_trim 0 OtherObject (Ok []) (Error ParseError) (Ok tt)
                     empty_world = Fail w' e' /\
     (Ok (@nil section) = Error e' \/ e' = ParseError) /\
     stdout w' = stdout empty_world /\
     output_xml w' = output_xml empty_world) /\
  (exists root xml_root,
     Ok [mkSection "AtomTypes" []] = Ok root /\
     Ok [mkElement "ForceField" []] = Ok xml_root).
Proof.
  split.
  - apply (proj1 (trim_parses_before_type_check
                    0 OtherObject (Ok []) (Error ParseError) (Ok tt)
                    empty_world) ParseError).
    reflexivity.
  - apply (proj2 (trim_parses_before_type_check
                    0 OtherObject (Ok [mkSection "AtomTypes" []])
                    (Ok [mkElement "ForceField" []]) (Ok tt) empty_world)
                 (mkWorld [mkSection "AtomTypes" []] [] None)).
    + reflexivity.
    + discriminate.
    + discriminate.
Defined.




(* ------------------------------------------------------------------ *)
(** ** Schema classification *)

Lemma identify_from_length a n : forall i,
  List.length (fst (identify_from a i n)) = n.
Proof.
  induction n as [|n IH]; intros i; simpl; [reflexivity|].
  specialize (IH (S i)). destruct (identify_from a (S i) n) as [sch wt].
  destruct (dict_mem a (class_key i)); simpl in *; now rewrite IH.
Qed.

Lemma identify_from_nth a n : forall i j, j < n ->
  nth_error (fst (identify_from a i n)) j =
  Some (if dict_mem a (class_key (i + j)) then class_key (i + j)
        else type_key (i + j)).
Proof.
  induction n as [|n IH]; intros i j Hj; [lia|]. simpl.
  specialize (IH (S i)). destruct (identify_from a (S i) n) as [sch wt].
  destruct j as [|j].
  - rewrite Nat.add_0_r. destruct (dict_mem a (class_key i)); reflexivity.
  - replace (i + S j) with (S i + j) by lia.
    rewrite <- IH by lia. destruct (dict_mem a (class_key i)); reflexivity.
Qed.

Lemma identify_from_weight a n : forall i,
  snd (identify_from a i n) <= n.
Proof.
  induction n as [|n IH]; intros i; simpl; [lia|].
  specialize (IH (S i)). destruct (identify_from a (S i) n) as [sch wt].
  destruct (dict_mem a (class_key i)); simpl in *; lia.
Qed.

(** The weight is the number of positions constrained by class. *)
Lemma weight_counts_class_positions attrib_dict n : forall i,
  snd (identify_from attrib_dict i n) =
  List.length (filter (fun j => dict_mem attrib_dict (class_key j)) (seq i n)).
Proof.
  induction n as [|n IH]; intros i; simpl; [reflexivity|].
  specialize (IH (S i)).
  destruct (identify_from attrib_dict (S i) n) as [sch wt].
  destruct (dict_mem attrib_dict (class_key i)); simpl in *; now rewrite IH.
Qed.

Lemma classify_schema n e :
  schema (classify n e) = fst (_identify_schema (attrib e) n).
Proof.
  unfold classify. now destruct (_identify_schema (attrib e) n).
Qed.

Lemma classify_attrib n e : entry_attrib (classify n e) = attrib e.
Proof.
  unfold classify. now destruct (_identify_schema (attrib e) n).
Qed.

(** A class position is compared with the class of the atom, a type
    position with its type: ['class' in schema] tells them apart because
    the decimal digits of the position never spell "class". *)
Lemma no_class_in_digits d :
  str_contains "class" (NilEmpty.string_of_uint d) = false.
Proof. induction d; simpl; auto. Qed.

Lemma no_class_in_number i : str_contains "class" (str_of_nat i) = false.
Proof.
  unfold str_of_nat, NilZero.string_of_uint.
  destruct (Nat.to_uint i) eqn:E; try reflexivity;
    rewrite <- E; apply no_class_in_digits.
Qed.

Lemma switch_class_key i atom_class atom_type :
  _switch_class_type (class_key i) atom_class atom_type = atom_class.
Proof.
  unfold _switch_class_type, class_key. simpl.
  now destruct (str_of_nat i).
Qed.

Lemma switch_type_key i atom_class atom_type :
  _switch_class_type (type_key i) atom_class atom_type = atom_type.
Proof.
  unfold _switch_class_type, type_key. simpl.
  now rewrite no_class_in_number.
Qed.

(** ** Reordering *)

Lemma length_2 {A} (l : list A) :
  List.length l = 2 -> exists a b, l = [a; b].
Proof.
  destruct l as [|a [|b [|c l]]]; try discriminate. eauto.
Qed.

Lemma length_3 {A} (l : list A) :
  List.length l = 3 -> exists a b c, l = [a; b; c].
Proof.
  destruct l as [|a [|b [|c [|d l]]]]; try discriminate. eauto.
Qed.

Lemma length_4 {A} (l : list A) :
  List.length l = 4 -> exists a b c d, l = [a; b; c; d].
Proof.
  destruct l as [|a [|b [|c [|d [|e l]]]]]; try discriminate. eauto 6.
Qed.

(** Name the atoms of a tuple whose length is the arity of its kind. *)
Ltac name_atoms k x H :=
  destruct k; simpl in H;
  [ apply length_2 in H; destruct H as (?a & ?b & ->)
  | apply length_3 in H; destruct H as (?a & ?b & ?c & ->)
  | apply length_4 in H; destruct H as (?a & ?b & ?c & ?d & ->)
  | apply length_4 in H; destruct H as (?a & ?b & ?c & ?d & ->) ].

Ltac split_In H :=
  simpl in H;
  repeat match type of H with
         | _ \/ _ => destruct H as [H|H]
         | False => destruct H
         end; try subst.

Lemma reorder_total k s x :
  In s (sequences k) -> List.length x = arity k ->
  exists y, reorder s x = Ok y /\ List.length y = arity k.
Proof.
  intros Hs Hx. name_atoms k x Hx; split_In Hs; eexists; split; reflexivity.
Qed.

Lemma reorder_In k s x y :
  In s (sequences k) -> List.length x = arity k -> reorder s x = Ok y ->
  forall a, In a y <-> In a x.
Proof.
  intros Hs Hx Hy a. name_atoms k x Hx; split_In Hs; simpl in Hy;
    injection Hy as <-; simpl; tauto.
Qed.

(** ** Comparing a record with an ordering *)

Lemma compare_positions_length atd topo sch st : forall i m c,
  compare_positions atd topo sch i st = Ok (m, c) ->
  List.length m = List.length st /\ List.length c = List.length st.
Proof.
  induction st as [|x st IH]; intros i m c; simpl.
  - intros [= <- <-]. auto.
  - destruct (nth_error sch i) as [key|]; [simpl|discriminate].
    destruct (dict_item topo key) as [v|]; [simpl|discriminate].
    destruct (dict_item atd x) as [cl|]; [simpl|discriminate].
    destruct (compare_positions atd topo sch (S i) st) as [[m' c']|] eqn:E;
      [simpl|discriminate].
    intros [= <- <-]. destruct (IH _ _ _ E). simpl. auto.
Qed.

(** The atoms of an ordering that was compared are all in the type map. *)
Lemma compare_positions_known atd topo sch st : forall i m c,
  compare_positions atd topo sch i st = Ok (m, c) ->
  forall a, In a st -> dict_mem atd a = true.
Proof.
  induction st as [|x st IH]; intros i m c; simpl; [tauto|].
  destruct (nth_error sch i) as [key|]; [simpl|discriminate].
  destruct (dict_item topo key) as [v|]; [simpl|discriminate].
  unfold dict_item at 1, dict_mem.
  destruct (dict_get atd x) as [cl|] eqn:Ex; [simpl|discriminate].
  destruct (compare_positions atd topo sch (S i) st) as [[m' c']|] eqn:E;
    [simpl|discriminate].
  intros _ a [<-|Ha]; [now rewrite Ex | eapply IH; eauto].
Qed.

(** [collection] holds the record's values and does not depend on the
    atoms compared: another ordering of known atoms gives the same one. *)
Lemma compare_positions_collection atd topo sch st : forall i m c st',
  compare_positions atd topo sch i st = Ok (m, c) ->
  List.length st' = List.length st ->
  (forall a, In a st' -> dict_mem atd a = true) ->
  exists m', compare_positions atd topo sch i st' = Ok (m', c).
Proof.
  induction st as [|x st IH]; intros i m c st'; simpl.
  - intros [= <- <-] Hl _. destruct st'; [|discriminate]. simpl. eauto.
  - destruct st' as [|x' st']; [discriminate|]. simpl.
    destruct (nth_error sch i) as [key|]; [simpl|discriminate].
    destruct (dict_item topo key) as [v|]; [simpl|discriminate].
    destruct (dict_item atd x) as [cl|]; [simpl|discriminate].
    destruct (compare_positions atd topo sch (S i) st) as [[m0 c0]|] eqn:E;
      [simpl|discriminate].
    intros [= <- <-] [= Hl] Hk.
    assert (Hx' : dict_mem atd x' = true) by (apply Hk; now left).
    unfold dict_mem in Hx'. unfold dict_item.
    destruct (dict_get atd x') as [cl'|]; [simpl|discriminate].
    destruct (IH (S i) m0 c0 st' E Hl) as [m' Hm'].
    { intros a Ha. apply Hk. now right. }
    rewrite Hm'. simpl. eauto.
Qed.

(** A position whose attribute the record lacks makes the comparison raise
    [KeyError], whatever the atoms are. *)
Lemma compare_positions_missing atd topo sch key st : forall i j,
  j < List.length st ->
  (forall j', j' < List.length st -> nth_error sch (i + j') <> None) ->
  nth_error sch (i + j) = Some key ->
  dict_get topo key = None ->
  compare_positions atd topo sch i st = Error KeyError.
Proof.
  induction st as [|x st IH]; intros i j Hj Hsch Hkey Hnone; simpl in *;
    [lia|].
  destruct (nth_error sch i) as [key0|] eqn:E0.
  2:{ exfalso. apply (Hsch 0); [lia|]. now rewrite Nat.add_0_r. }
  simpl. unfold dict_item.
  destruct (dict_get topo key0) as [v|] eqn:Ev; [simpl|reflexivity].
  destruct (dict_get atd x) as [cl|]; [simpl|reflexivity].
  destruct j as [|j].
  - rewrite Nat.add_0_r in Hkey. congruence.
  - rewrite (IH (S i) j); [reflexivity|lia| | |exact Hnone].
    + intros j' Hj'. replace (S i + j') with (i + S j') by lia.
      apply Hsch. lia.
    + now replace (S i + j) with (i + S j) by lia.
Qed.

(** ** The loops of the matcher, as plain functions *)

Lemma try_sequence_matched k atd el e uc s w :
  try_sequence k atd el e (uc, false) s w = Done w (uc, false).
Proof. reflexivity. Qed.

Lemma try_sequence_run k atd el e uc s w :
  try_sequence k atd el e (uc, true) s w =
  match eval_sequence atd el e s with
  | Error ex => Fail w ex
  | Ok (false, _) => Done w (uc, true)
  | Ok (true, c) => let (w', uc') := emit k e c uc w in Done w' (uc', false)
  end.
Proof.
  unfold try_sequence, eval_sequence, emit, bind.
  destruct (reorder s el) as [st|ex]; [simpl|reflexivity].
  destruct (compare_positions atd (entry_attrib e) (schema e) 0 st)
    as [[m c]|ex]; [simpl|reflexivity].
  destruct (all m); [|reflexivity].
  destruct (in_dec tuple_eq_dec c uc); reflexivity.
Qed.

Lemma try_entry_matched k atd el e uc w seqs :
  foldM (try_sequence k atd el e) seqs (uc, false) w = Done w (uc, false).
Proof.
  induction seqs as [|s seqs IH]; [reflexivity|].
  cbn [foldM]. unfold bind. now rewrite try_sequence_matched.
Qed.

Lemma try_entry_run_seqs k atd el e uc w seqs :
  foldM (try_sequence k atd el e) seqs (uc, true) w =
  match eval_entry atd el e seqs with
  | Error ex => Fail w ex
  | Ok None => Done w (uc, true)
  | Ok (Some c) => let (w', uc') := emit k e c uc w in Done w' (uc', false)
  end.
Proof.
  induction seqs as [|s seqs IH]; [reflexivity|].
  cbn [foldM eval_entry]. unfold bind at 1. rewrite try_sequence_run.
  destruct (eval_sequence atd el e s) as [[[|] c]|ex]; simpl; auto.
  destruct (emit k e c uc w) as [w' uc']. apply try_entry_matched.
Qed.

Lemma try_entry_run k atd el e uc w :
  try_entry k atd el (uc, true) e w =
  match eval_entry atd el e (sequences k) with
  | Error ex => Fail w ex
  | Ok None => Done w (uc, true)
  | Ok (Some c) => let (w', uc') := emit k e c uc w in Done w' (uc', false)
  end.
Proof. apply try_entry_run_seqs. Qed.

Lemma try_entries_matched k atd el uc w entries :
  foldM (try_entry k atd el) entries (uc, false) w = Done w (uc, false).
Proof.
  induction entries as [|e entries IH]; [reflexivity|].
  cbn [foldM]. unfold bind. unfold try_entry at 1. now rewrite try_entry_matched.
Qed.

(** The loop over one interaction appends the first record that matches,
    unless its values were recorded already, and raises what the
    comparisons before that match raise. *)
Lemma match_element_run k atd entries uc el w :
  match_element k atd entries uc el w =
  match first_match k atd el entries with
  | Error ex => Fail w ex
  | Ok None => Done w uc
  | Ok (Some (e, c)) => let (w', uc') := emit k e c uc w in Done w' uc'
  end.
Proof.
  unfold match_element, bind.
  assert (H : foldM (try_entry k atd el) entries (uc, true) w =
              match first_match k atd el entries with
              | Error ex => Fail w ex
              | Ok None => Done w (uc, true)
              | Ok (Some (e, c)) =>
                  let (w', uc') := emit k e c uc w in Done w' (uc', false)
              end).
  { induction entries as [|e entries IH]; [reflexivity|].
    cbn [foldM first_match]. unfold bind at 1. rewrite try_entry_run.
    destruct (eval_entry atd el e (sequences k)) as [[c|]|ex]; simpl; auto.
    destruct (emit k e c uc w) as [w' uc']. apply try_entries_matched. }
  rewrite H. destruct (first_match k atd el entries) as [[[e c]|]|ex]; auto.
  now destruct (emit k e c uc w).
Qed.

(* ------------------------------------------------------------------ *)
(** ** Records that lack an attribute *)

(** C8, as the code has it: classifying a record never fails.  A position
    [i] for which the record has neither [class{i}] nor [type{i}] is
    classified [type{i}], and the weight counts the positions that have
    [class{i}]; the look-up failure is raised by the matcher,
    when an interaction that is still unmatched is compared with the
    record, before anything is appended for that comparison, and an
    interaction that is already matched is not compared at all. *)
Theorem missing_attribute_raises_in_matcher
    k atd topo_element record uc sequence w i :
  In sequence (sequences k) ->
  List.length topo_element = arity k ->
  1 <= i <= arity k ->
  dict_mem record (class_key i) = false ->
  dict_mem record (type_key i) = false ->
  let e := classify (arity k) (mkElement (kind_tag k) record) in
  nth_error (schema e) (i - 1) = Some (type_key i) /\
  weight e = List.length (filter (fun j => dict_mem record (class_key j))
                                 (seq 1 (arity k))) /\
  try_sequence k atd topo_element e (uc, true) sequence w = Fail w KeyError /\
  try_sequence k atd topo_element e (uc, false) sequence w = Done w (uc, false).
Proof.
  intros Hs Hl Hi Hc Ht e.
  assert (Hsch : forall j, j < arity k ->
            nth_error (schema e) j =
            Some (if dict_mem record (class_key (1 + j))
                  then class_key (1 + j) else type_key (1 + j))).
  { intros j Hj. unfold e. rewrite classify_schema. simpl attrib.
    unfold _identify_schema. now apply identify_from_nth. }
  assert (Hnth : nth_error (schema e) (i - 1) = Some (type_key i)).
  { rewrite Hsch by lia. replace (1 + (i - 1)) with i by lia. now rewrite Hc. }
  split; [exact Hnth|]. split.
  { unfold e, classify, _identify_schema. simpl attrib.
    pose proof (weight_counts_class_positions record (arity k) 1) as Hw.
    destruct (identify_from record 1 (arity k)). exact Hw. }
  split; [|reflexivity].
  rewrite try_sequence_run. unfold eval_sequence.
  destruct (reorder_total k sequence topo_element Hs Hl) as (st & -> & Hst).
  simpl rbind.
  rewrite (compare_positions_missing atd (entry_attrib e) (schema e)
             (type_key i) st 0 (i - 1)); [reflexivity| | |exact Hnth|].
  - lia.
  - intros j Hj. simpl. rewrite Hsch by lia. discriminate.
  - unfold e. rewrite classify_attrib. simpl.
    unfold dict_mem in Ht. now destruct (dict_get record (type_key i)).
Qed.

Lemma missing_attribute_raises_in_matcher_witness :
  let record := [("class1", "CT"); ("k", "224262.4")] in
  let e := classify 2 (mkElement "Bond" record) in
  nth_error (schema e) 1 = Some "type2" /\
  weight e = List.length (filter (fun j => dict_mem record (class_key j))
                                 (seq 1 2)) /\
  try_sequence Bond [("opls_135", "CT")] ["opls_135"; "opls_135"] e
               ([], true) [1; 0] empty_world = Fail empty_world KeyError /\
  try_sequence Bond [("opls_135", "CT")] ["opls_135"; "opls_135"] e
               ([], false) [1; 0] empty_world = Done empty_world ([], false).
Proof.
  apply (missing_attribute_raises_in_matcher
           Bond [("opls_135", "CT")] ["opls_135"; "opls_135"]
           [("class1", "CT"); ("k", "224262.4")] [] [1; 0] empty_world 2).
  - simpl. right. now left.
  - reflexivity.
  - simpl. lia.
  - reflexivity.
  - reflexivity.
Defined.

(** C8 as stated fails: the record below has neither [class2] nor [type2];
    its schema and weight are inferred all the same, and a run of the
    matcher over a structure without bonds ends without any failure. *)
Lemma missing_attribute_classified_without_failure :
  let record := [("class1", "CT"); ("k", "224262.4")] in
  dict_mem record (class_key 2) = false /\
  dict_mem record (type_key 2) = false /\
  _identify_schema record 2 = (["class1"; "type2"], 1) /\
  _topology_match [("opls_135", "CT")] (mkStructure ["opls_135"] [] [] [] [])
                  [mkElement "Bond" record] Bond 2 empty_world
  = Done empty_world tt.
Proof. repeat split. Qed.

(* ------------------------------------------------------------------ *)
(** ** Impropers: the central atom and its three neighbours *)

Lemma Permutation_3 {A} (x y z b c d : A) :
  Permutation [x; y; z] [b; c; d] <->
  [x; y; z] = [b; c; d] \/ [x; y; z] = [b; d; c] \/ [x; y; z] = [c; b; d] \/
  [x; y; z] = [c; d; b] \/ [x; y; z] = [d; b; c] \/ [x; y; z] = [d; c; b].
Proof.
  split.
  - intros H.
    assert (Hx : In x [b; c; d]).
    { apply (Permutation_in x H). now left. }
    destruct Hx as [<-|[<-|[<-|[]]]].
    + apply Permutation_cons_inv, Permutation_length_2_inv in H.
      destruct H as [[= -> ->]|[= -> ->]]; auto.
    + apply (Permutation_cons_app_inv [b] [d]), Permutation_length_2_inv in H.
      destruct H as [[= -> ->]|[= -> ->]]; auto 6.
    + apply (Permutation_cons_app_inv [b; c] []), Permutation_length_2_inv in H.
      destruct H as [[= -> ->]|[= -> ->]]; auto 7.
  - intros [H|[H|[H|[H|[H|H]]]]]; injection H as -> -> ->.
    + apply Permutation_refl.
    + apply perm_skip, perm_swap.
    + apply perm_swap.
    + apply (Permutation_cons_app [b] [d]). apply perm_swap.
    + apply (Permutation_cons_app [b; c] []). apply Permutation_refl.
    + apply (Permutation_cons_app [b; c] []). apply perm_swap.
Qed.

Lemma eval_entry_first atd el e c seqs :
  (forall s, In s seqs -> exists b, eval_sequence atd el e s = Ok (b, c)) ->
  (exists s, In s seqs /\ eval_sequence atd el e s = Ok (true, c)) ->
  eval_entry atd el e seqs = Ok (Some c).
Proof.
  induction seqs as [|s seqs IH]; intros Hall (s0 & Hin & Hs0).
  - destruct Hin.
  - simpl. destruct (Hall s (or_introl eq_refl)) as [b Hb]. rewrite Hb. simpl.
    destruct b; [reflexivity|]. apply IH.
    + intros s' Hs'. apply Hall. now right.
    + destruct Hin as [->|Hin]; [congruence|eauto].
Qed.

(** C3: an improper (A,B,C,D) matches a record that matches the centre A
    followed by the three other atoms in any of their six orders, and the
    orderings tried for impropers are exactly the six arrangements of the
    positions 0..3 that keep position 0 first. *)
Theorem improper_central_atom_symmetry atd e A B C D x y z uc w m c :
  Permutation [x; y; z] [B; C; D] ->
  compare_positions atd (entry_attrib e) (schema e) 0 [A; x; y; z]
    = Ok (m, c) ->
  all m = true ->
  try_entry Improper atd [A; B; C; D] (uc, true) e w
    = Done (fst (emit Improper e c uc w)) (snd (emit Improper e c uc w), false)
  /\ (forall s, In s (sequences Improper) <->
                exists p q r, s = [0; p; q; r] /\ Permutation [p; q; r] [1; 2; 3]).
Proof.
  intros Hp Hcmp Hall. split.
  - rewrite try_entry_run.
    assert (Hknown : forall a, In a [A; B; C; D] -> dict_mem atd a = true).
    { intros a Ha. apply (compare_positions_known _ _ _ _ _ _ _ Hcmp).
      destruct Ha as [<-|Ha]; [now left|right].
      apply (Permutation_in a (Permutation_sym Hp) Ha). }
    rewrite (eval_entry_first atd [A; B; C; D] e c).
    + now destruct (emit Improper e c uc w).
    + intros s Hs. unfold eval_sequence.
      destruct (reorder_total Improper s [A; B; C; D] Hs eq_refl)
        as (st & Hst & Hlen).
      rewrite Hst. cbn [rbind].
      destruct (compare_positions_collection _ _ _ _ _ _ _ st Hcmp Hlen)
        as [m' ->]; [|simpl; eauto].
      intros a Ha. apply Hknown.
      now apply (reorder_In Improper s [A; B; C; D] st Hs eq_refl Hst).
    + apply Permutation_3 in Hp.
      assert (Hgoal : forall s, In s (sequences Improper) ->
                reorder s [A; B; C; D] = Ok [A; x; y; z] ->
                exists s, In s (sequences Improper) /\
                  eval_sequence atd [A; B; C; D] e s = Ok (true, c)).
      { intros s Hs Hr. exists s. split; [exact Hs|]. unfold eval_sequence.
        rewrite Hr. cbn [rbind]. rewrite Hcmp. simpl. now rewrite Hall. }
      destruct Hp as [H|[H|[H|[H|[H|H]]]]]; injection H as -> -> ->.
      * apply (Hgoal [0; 1; 2; 3]); [simpl; tauto|reflexivity].
      * apply (Hgoal [0; 1; 3; 2]); [simpl; tauto|reflexivity].
      * apply (Hgoal [0; 2; 1; 3]); [simpl; tauto|reflexivity].
      * apply (Hgoal [0; 2; 3; 1]); [simpl; tauto|reflexivity].
      * apply (Hgoal [0; 3; 1; 2]); [simpl; tauto|reflexivity].
      * apply (Hgoal [0; 3; 2; 1]); [simpl; tauto|reflexivity].
  - intros s. split.
    + intros Hs. split_In Hs; do 3 eexists; (split; [reflexivity|]);
        apply Permutation_3; auto 7.
    + intros (p & q & r & -> & H). apply Permutation_3 in H.
      destruct H as [H|[H|[H|[H|[H|H]]]]]; injection H as -> -> ->;
        simpl; tauto.
Qed.

Lemma improper_central_atom_symmetry_witness :
  let atd := [("c", "C"); ("o", "O"); ("n", "N"); ("h", "H")] in
  let e := classify 4 (mkElement "Improper"
             [("class1", "C"); ("class2", "H"); ("class3", "O");
              ("class4", "N"); ("k", "43.932")]) in
  try_entry Improper atd ["c"; "o"; "n"; "h"] ([], true) e empty_world
    = Done (fst (emit Improper e ["C"; "H"; "O"; "N"] [] empty_world))
           (snd (emit Improper e ["C"; "H"; "O"; "N"] [] empty_world), false)
  /\ (forall s, In s (sequences Improper) <->
                exists p q r, s = [0; p; q; r] /\ Permutation [p; q; r] [1; 2; 3]).
Proof.
  intros atd e.
  apply (improper_central_atom_symmetry atd e "c" "o" "n" "h" "h" "o" "n"
           [] empty_world [true; true; true; true] ["C"; "H"; "O"; "N"]).
  - apply Permutation_3. auto 7.
  - reflexivity.
  - reflexivity.
Defined.

(* ------------------------------------------------------------------ *)
(** ** The orderings of a kind form a group *)

Ltac use_sequence s := exists s; split; [simpl; tauto | reflexivity].

Ltac pick_sequence :=
  first [ use_sequence [0; 1] | use_sequence [1; 0]
        | use_sequence [0; 1; 2] | use_sequence [2; 1; 0]
        | use_sequence [0; 1; 2; 3] | use_sequence [3; 2; 1; 0]
        | use_sequence [0; 1; 3; 2] | use_sequence [0; 2; 1; 3]
        | use_sequence [0; 2; 3; 1] | use_sequence [0; 3; 1; 2]
        | use_sequence [0; 3; 2; 1] ].

Lemma equivalent_refl k x :
  List.length x = arity k -> equivalent k x x.
Proof. intros Hx. name_atoms k x Hx; pick_sequence. Qed.

Lemma equivalent_length k x y :
  List.length x = arity k -> equivalent k x y -> List.length y = arity k.
Proof.
  intros Hx (s & Hs & Hr).
  destruct (reorder_total k s x Hs Hx) as (y' & Hy' & Hl). congruence.
Qed.

Lemma equivalent_sym k x y :
  List.length x = arity k -> equivalent k x y -> equivalent k y x.
Proof.
  intros Hx (s & Hs & Hr).
  name_atoms k x Hx; split_In Hs; injection Hr as <-; pick_sequence.
Qed.

Lemma equivalent_trans k x y z :
  List.length x = arity k ->
  equivalent k x y -> equivalent k y z -> equivalent k x z.
Proof.
  intros Hx (s & Hs & Hr) (s' & Hs' & Hr').
  name_atoms k x Hx; split_In Hs; injection Hr as <-;
    split_In Hs'; injection Hr' as <-; pick_sequence.
Qed.

(* ------------------------------------------------------------------ *)
(** ** Enumerating the unique interactions *)

Lemma ordered_pairs_nil {A} (R : A -> A -> Prop) : ordered_pairs R [].
Proof. intros [|? ?] y l2 H; discriminate. Qed.

Lemma ordered_pairs_impl {A} (R R' : A -> A -> Prop) l :
  (forall x y, R x y -> R' x y) -> ordered_pairs R l -> ordered_pairs R' l.
Proof. intros HR H l1 y l2 E x Hx. apply HR. eapply H; eauto. Qed.

Lemma ordered_pairs_snoc {A} (R : A -> A -> Prop) l a :
  ordered_pairs R l -> (forall x, In x l -> R x a) ->
  ordered_pairs R (l ++ [a]).
Proof.
  intros H Ha l1 y l2 E x Hx.
  destruct l2 as [|b l2] using rev_ind.
  - apply app_inj_tail in E. destruct E as [-> ->]. now apply Ha.
  - clear IHl2. rewrite app_comm_cons, app_assoc in E.
    apply app_inj_tail in E. destruct E as [-> _]. eapply H; eauto.
Qed.

Lemma ordered_pairs_nth {A} (R : A -> A -> Prop) l i j x y :
  ordered_pairs R l -> i < j ->
  nth_error l i = Some x -> nth_error l j = Some y -> R x y.
Proof.
  intros H Hij Hx Hy.
  destruct (nth_error_split l j Hy) as (l1 & l2 & -> & Hl).
  apply (H l1 y l2 eq_refl).
  rewrite nth_error_app1 in Hx by lia. eapply nth_error_In; eauto.
Qed.

Lemma first_index_lt x l p : first_index x l = Some p -> p < List.length l.
Proof.
  revert p. induction l as [|y l IH]; intros p; simpl; [discriminate|].
  destruct (tuple_eq_dec x y); [intros [= <-]; lia|].
  destruct (first_index x l) as [q|]; [|discriminate].
  intros [= <-]. specialize (IH q eq_refl). lia.
Qed.

Lemma first_index_app_l x l l' p :
  first_index x l = Some p -> first_index x (l ++ l') = Some p.
Proof.
  revert p. induction l as [|y l IH]; intros p; simpl; [discriminate|].
  destruct (tuple_eq_dec x y); [auto|].
  destruct (first_index x l) as [q|]; [|discriminate].
  intros [= <-]. now rewrite (IH q eq_refl).
Qed.

Lemma first_index_In x l : In x l -> exists p, first_index x l = Some p.
Proof.
  induction l as [|y l IH]; intros H; [destruct H|]. simpl.
  destruct (tuple_eq_dec x y); [eauto|].
  destruct H as [->|H]; [congruence|].
  destruct (IH H) as [p ->]. simpl. eauto.
Qed.

Lemma first_index_new x l :
  ~ In x l -> first_index x (l ++ [x]) = Some (List.length l).
Proof.
  induction l as [|y l IH]; intros H; simpl.
  - now destruct (tuple_eq_dec x x).
  - destruct (tuple_eq_dec x y) as [->|_]; [exfalso; apply H; now left|].
    rewrite IH; [reflexivity|]. intros Hx. apply H. now right.
Qed.

Lemma mapR_nth_error {A} (e : exn) (pre l : list A) :
  mapR (fun i => of_option e (nth_error (pre ++ l) i))
       (seq (List.length pre) (List.length l)) = Ok l.
Proof.
  revert pre. induction l as [|x l IH]; intros pre; [reflexivity|].
  cbn [List.length seq mapR].
  rewrite nth_error_app2 by lia. rewrite Nat.sub_diag. cbn [nth_error of_option rbind].
  specialize (IH (pre ++ [x])). rewrite <- app_assoc in IH. simpl app in IH.
  rewrite length_app in IH. simpl List.length in IH.
  rewrite Nat.add_1_r in IH. now rewrite IH.
Qed.

(** An object with exactly [n] atoms: [topo_af] lists their types. *)
Lemma atom_types_of_exact e : atom_types_of (List.length e) e = Ok e.
Proof. apply (mapR_nth_error AttributeError [] e). Qed.

Lemma is_unique_spec k af acc seqs :
  List.length af = arity k -> incl seqs (sequences k) ->
  (is_unique seqs af acc = Ok true /\
   forall s y, In s seqs -> reorder s af = Ok y -> ~ In y acc) \/
  (is_unique seqs af acc = Ok false /\
   exists s y, In s seqs /\ reorder s af = Ok y /\ In y acc).
Proof.
  intros Haf. induction seqs as [|s seqs IH]; intros Hincl; simpl.
  - left. split; [reflexivity|]. intros s y [].
  - destruct (reorder_total k s af) as (p & Hp & _);
      [apply Hincl; now left|exact Haf|].
    rewrite Hp. simpl.
    destruct (in_dec tuple_eq_dec p acc) as [Hin|Hnin].
    + right. split; [reflexivity|]. exists s, p. auto.
    + destruct IH as [[-> H]|[-> (s' & y & Hs' & Hy & Hin)]].
      * intros s' Hs'. apply Hincl. now right.
      * left. split; [reflexivity|]. intros s' y [<-|Hs'] Hy.
        -- congruence.
        -- eapply H; eauto.
      * right. split; [reflexivity|]. exists s', y. auto.
Qed.

(** The decision taken for one interaction. *)
Lemma enumerate_step_spec k acc e :
  List.length e = arity k ->
  (enumerate_step k (arity k) acc e = Ok (acc ++ [e]) /\
   forall y, equivalent k e y -> ~ In y acc) \/
  (enumerate_step k (arity k) acc e = Ok acc /\
   exists y, equivalent k e y /\ In y acc).
Proof.
  intros He.
  assert (Hat : atom_types_of (arity k) e = Ok e)
    by (rewrite <- He; apply atom_types_of_exact).
  unfold enumerate_step. rewrite Hat. cbn [rbind].
  destruct (is_unique_spec k e acc (sequences k) He (incl_refl _))
    as [[-> H]|[-> (s & y & Hs & Hy & Hin)]]; simpl.
  - left. split; [reflexivity|]. intros y (s & Hs & Hy). eauto.
  - right. split; [reflexivity|]. exists y. split; [exists s|]; auto.
Qed.

Lemma retained_nil k : retained k [] [].
Proof.
  split; [constructor|]. split; [intros x []|].
  split; [intros x []|apply ordered_pairs_nil].
Qed.

Lemma retained_step k pre acc e :
  retained k pre acc -> List.length e = arity k ->
  exists acc', enumerate_step k (arity k) acc e = Ok acc' /\
               retained k (pre ++ [e]) acc'.
Proof.
  intros (Hlen & Hsub & Hcov & Hord) He.
  assert (Hmono : ordered_pairs
            (fun x y => ~ equivalent k y x /\
               exists p q, first_index x (pre ++ [e]) = Some p /\
                           first_index y (pre ++ [e]) = Some q /\ p < q) acc).
  { revert Hord. apply ordered_pairs_impl.
    intros x y (Hne & p & q & Hp & Hq & Hpq). split; [exact Hne|].
    exists p, q. auto using first_index_app_l. }
  destruct (enumerate_step_spec k acc e He) as [[-> Hu]|[-> (y & Hy & Hin)]].
  - exists (acc ++ [e]). split; [reflexivity|]. split; [|split; [|split]].
    + apply Forall_app. split; [exact Hlen|]. now constructor.
    + intros x Hx. apply in_app_or in Hx. apply in_or_app.
      destruct Hx as [Hx|Hx]; [left; auto|now right].
    + intros x Hx. apply in_app_or in Hx. destruct Hx as [Hx|[<-|[]]].
      * destruct (Hcov x Hx) as (y & Hy & Hxy). exists y.
        split; [apply in_or_app; now left|exact Hxy].
      * exists e. split; [apply in_or_app; right; now left|].
        now apply equivalent_refl.
    + apply ordered_pairs_snoc; [exact Hmono|]. intros x Hx. split.
      * intros Hex. now apply (Hu x).
      * destruct (first_index_In x pre (Hsub x Hx)) as [p Hp].
        exists p, (List.length pre). split; [now apply first_index_app_l|].
        split; [|now apply first_index_lt in Hp].
        apply first_index_new. intros Hpre.
        destruct (Hcov e Hpre) as (y & Hy & Hey). now apply (Hu y).
  - exists acc. split; [reflexivity|]. split; [|split; [|split]].
    + exact Hlen.
    + intros x Hx. apply in_or_app. left. auto.
    + intros x Hx. apply in_app_or in Hx. destruct Hx as [Hx|[<-|[]]]; eauto.
    + exact Hmono.
Qed.

Lemma retained_fold k l : forall pre acc,
  Forall (fun e => List.length e = arity k) l ->
  retained k pre acc ->
  exists out, foldR (enumerate_step k (arity k)) l acc = Ok out /\
              retained k (pre ++ l) out.
Proof.
  induction l as [|e l IH]; intros pre acc Hl Hinv.
  - exists acc. rewrite app_nil_r. now split.
  - inversion Hl as [|? ? He Hl']; subst.
    destruct (retained_step k pre acc e Hinv He) as (acc' & Hstep & Hinv').
    destruct (IH (pre ++ [e]) acc' Hl' Hinv') as (out & Hout & Hfin).
    exists out. simpl. rewrite Hstep. simpl.
    rewrite <- app_assoc in Hfin. now split.
Qed.

Lemma enumerate_retained k l :
  Forall (fun e => List.length e = arity k) l ->
  exists out, enumerate k (arity k) l = Ok out /\ retained k l out.
Proof. intros Hl. apply (retained_fold k l [] [] Hl (retained_nil k)). Qed.



Lemma foldR_app {A S} (body : S -> A -> result S) (l l' : list A) acc :
  foldR body (l ++ l') acc = rbind (foldR body l acc) (foldR body l').
Proof.
  revert acc. induction l as [|x l IH]; intros acc; simpl; [reflexivity|].
  destruct (body acc x) as [acc'|e]; simpl; auto.
Qed.

(** A list that is already free of equivalent pairs is retained whole. *)
Lemma enumerate_fixed k o2 : forall o1,
  Forall (fun x => List.length x = arity k) (o1 ++ o2) ->
  ordered_pairs (fun x y => ~ equivalent k y x) (o1 ++ o2) ->
  foldR (enumerate_step k (arity k)) o2 o1 = Ok (o1 ++ o2).
Proof.
  induction o2 as [|y o2 IH]; intros o1 Hlen Hord; simpl.
  - now rewrite app_nil_r.
  - assert (Hy : List.length y = arity k).
    { rewrite Forall_forall in Hlen. apply Hlen, in_or_app. right. now left. }
    destruct (enumerate_step_spec k o1 y Hy) as [[-> _]|[_ (z & Hz & Hin)]].
    + simpl. replace (o1 ++ y :: o2) with ((o1 ++ [y]) ++ o2) in *
        by (now rewrite <- app_assoc).
      now apply IH.
    + exfalso. now apply (Hord o1 y o2 eq_refl z Hin).
Qed.

Lemma enumerate_step_duplicate k acc x :
  List.length x = arity k ->
  (exists z, In z acc /\ equivalent k x z) ->
  enumerate_step k (arity k) acc x = Ok acc.
Proof.
  intros Hx (z & Hz & Hxz).
  destruct (enumerate_step_spec k acc x Hx) as [[_ Hu]|[-> _]]; [|reflexivity].
  exfalso. now apply (Hu z).
Qed.

Lemma respelled_enumerate k l l' :
  respelled k l l' ->
  Forall (fun e => List.length e = arity k) l ->
  Forall (fun e => List.length e = arity k) l' /\
  enumerate k (arity k) l' = enumerate k (arity k) l.
Proof.
  unfold enumerate.
  induction 1 as [|l l' x Hr IH|l l' x x' Hr IH (y & Hy & Hxy) Hxx'];
    intros Hl.
  - now split.
  - apply Forall_app in Hl. destruct Hl as [Hl Hx].
    destruct (IH Hl) as [Hl' E]. split; [apply Forall_app; now split|].
    now rewrite !foldR_app, E.
  - apply Forall_app in Hl. destruct Hl as [Hl Hx].
    inversion Hx as [|? ? Hlx _]; subst.
    destruct (IH Hl) as [Hl' E].
    assert (Hlx' : List.length x' = arity k)
      by (eapply equivalent_length; eauto).
    split; [apply Forall_app; split; [exact Hl'|now constructor]|].
    rewrite !foldR_app, E.
    destruct (enumerate_retained k l Hl) as (acc & Hacc & _ & _ & Hcov & _).
    unfold enumerate in Hacc. rewrite Hacc. cbn [rbind foldR].
    destruct (Hcov y Hy) as (z & Hz & Hyz).
    assert (Hxz : equivalent k x z)
      by exact (equivalent_trans k x y z Hlx Hxy Hyz).
    rewrite (enumerate_step_duplicate k acc x Hlx) by eauto.
    rewrite (enumerate_step_duplicate k acc x' Hlx'); [reflexivity|].
    exists z. split; [exact Hz|].
    apply (equivalent_trans k x' x z Hlx'); [|exact Hxz].
    now apply equivalent_sym.
Qed.



(** The spelling of a repeated bond can indeed be changed: an instance of
    [respelled]. *)
Example respelled_bonds :
  respelled Bond [["t1"; "t2"]; ["t2"; "t1"]; ["t1"; "t1"]]
                 [["t1"; "t2"]; ["t1"; "t2"]; ["t1"; "t1"]].
Proof.
  apply (respelled_same Bond [["t1"; "t2"]; ["t2"; "t1"]]
           [["t1"; "t2"]; ["t1"; "t2"]] ["t1"; "t1"]).
  apply (respelled_dup Bond [["t1"; "t2"]] [["t1"; "t2"]]
           ["t2"; "t1"] ["t1"; "t2"]).
  - apply (respelled_same Bond [] [] ["t1"; "t2"]). constructor.
  - exists ["t1"; "t2"]. split; [now left|]. use_sequence [1; 0].
  - use_sequence [1; 0].
Qed.

(* ------------------------------------------------------------------ *)
(** ** The stable sort by weight *)

Section StableSort.
Context {A : Type} (key : A -> nat).

Lemma insert_by_In x l y : In y (insert_by key x l) <-> y = x \/ In y l.
Proof.
  induction l as [|z l IH]; simpl.
  - intuition.
  - destruct (Nat.leb (key x) (key z)); simpl; [intuition|].
    rewrite IH. intuition.
Qed.

Lemma sorted_In l y : In y (sorted key l) <-> In y l.
Proof.
  induction l as [|x l IH]; simpl; [tauto|].
  rewrite insert_by_In, IH. intuition.
Qed.

Lemma insert_by_sorted x l :
  StronglySorted (le_key key) l -> StronglySorted (le_key key) (insert_by key x l).
Proof.
  induction 1 as [|z l Hs IH Hz]; simpl.
  - repeat constructor.
  - destruct (Nat.leb (key x) (key z)) eqn:E.
    + apply Nat.leb_le in E. constructor; [now constructor|].
      constructor; [exact E|].
      revert Hz. apply Forall_impl. unfold le_key. intros; lia.
    + apply Nat.leb_gt in E. constructor; [exact IH|].
      apply Forall_forall. intros y Hy. apply insert_by_In in Hy.
      destruct Hy as [->|Hy]; [unfold le_key; lia|].
      rewrite Forall_forall in Hz. now apply Hz.
Qed.

Lemma sorted_sorted l : StronglySorted (le_key key) (sorted key l).
Proof.
  induction l as [|x l IH]; simpl; [constructor|].
  now apply insert_by_sorted.
Qed.

Variable P : A -> bool.

(** Where the first element satisfying [P] is after an insertion. *)
Lemma find_insert_by a l :
  StronglySorted (le_key key) l ->
  find P (insert_by key a l) =
  match find P l with
  | Some e => if P a && Nat.leb (key a) (key e) then Some a else Some e
  | None => if P a then Some a else None
  end.
Proof.
  induction 1 as [|z l Hs IH Hz]; simpl.
  - now destruct (P a).
  - destruct (Nat.leb (key a) (key z)) eqn:E; simpl.
    + destruct (P z) eqn:Pz.
      * rewrite E. now destruct (P a).
      * destruct (find P l) as [e|] eqn:F; [|reflexivity].
        apply find_some in F. destruct F as [Hin _].
        rewrite Forall_forall in Hz. specialize (Hz e Hin).
        apply Nat.leb_le in E. unfold le_key in Hz.
        replace (Nat.leb (key a) (key e)) with true
          by (symmetry; apply Nat.leb_le; lia).
        now destruct (P a).
    + destruct (P z) eqn:Pz.
      * rewrite E. now rewrite andb_false_r.
      * exact IH.
Qed.

(** The first element of the sorted list that satisfies [P] has the
    least key among those that do and, among those of that key, the
    least position in the list that was sorted. *)
Lemma find_sorted_least l e :
  find P (sorted key l) = Some e ->
  exists i,
    nth_error l i = Some e /\ P e = true /\
    forall j x, nth_error l j = Some x -> P x = true ->
                key e < key x \/ (key e = key x /\ i <= j).
Proof.
  revert e. induction l as [|a l IH]; intros e; simpl; [discriminate|].
  rewrite find_insert_by by apply sorted_sorted.
  destruct (find P (sorted key l)) as [e0|] eqn:F.
  - destruct (IH e0 eq_refl) as (i0 & Hi0 & Pe0 & Hmin).
    destruct (P a && Nat.leb (key a) (key e0)) eqn:C; intros [= <-].
    + apply andb_true_iff in C. destruct C as [Pa Hle].
      apply Nat.leb_le in Hle.
      exists 0. split; [reflexivity|]. split; [exact Pa|].
      intros [|j] x Hx Px; simpl in Hx.
      * injection Hx as <-. right. lia.
      * destruct (Hmin j x Hx Px) as [H|[H _]]; [left; lia|].
        destruct (Nat.eq_dec (key a) (key x)); [right|left]; lia.
    + exists (S i0). split; [exact Hi0|]. split; [exact Pe0|].
      intros [|j] x Hx Px; simpl in Hx.
      * injection Hx as <-. rewrite Px in C. simpl in C.
        apply Nat.leb_gt in C. left. exact C.
      * destruct (Hmin j x Hx Px) as [H|[H H']]; [now left|right]. lia.
  - destruct (P a) eqn:Pa; [|discriminate]. intros [= <-].
    exists 0. split; [reflexivity|]. split; [exact Pa|].
    intros [|j] x Hx Px; simpl in Hx.
    + injection Hx as <-. right. lia.
    + exfalso. apply nth_error_In in Hx.
      assert (Hf : P x = false)
        by (apply (find_none P _ F); now apply sorted_In).
      congruence.
Qed.

Lemma find_sorted_none l :
  find P (sorted key l) = None -> forall x, In x l -> P x = false.
Proof.
  intros F x Hx. apply (find_none P _ F). now apply sorted_In.
Qed.
End StableSort.

(* ------------------------------------------------------------------ *)
(** ** Which record is selected *)

Lemma eval_entry_some atd el e seqs c :
  eval_entry atd el e seqs = Ok (Some c) ->
  exists s, In s seqs /\ eval_sequence atd el e s = Ok (true, c).
Proof.
  induction seqs as [|s seqs IH]; simpl; [discriminate|].
  destruct (eval_sequence atd el e s) as [[[|] c']|ex] eqn:E; simpl;
    [|intros H; destruct (IH H) as (s' & Hs' & Hc); eauto|discriminate].
  intros [= <-]. eauto.
Qed.

Lemma eval_entry_none atd el e seqs :
  eval_entry atd el e seqs = Ok None ->
  forall s, In s seqs -> exists c, eval_sequence atd el e s = Ok (false, c).
Proof.
  induction seqs as [|s seqs IH]; simpl; [intros _ s []|].
  destruct (eval_sequence atd el e s) as [[[|] c']|ex] eqn:E; simpl;
    [discriminate| |discriminate].
  intros H s' [<-|Hs']; eauto.
Qed.

Lemma record_matches_true k atd el e :
  record_matches k atd el e = true <->
  exists s c, In s (sequences k) /\ eval_sequence atd el e s = Ok (true, c).
Proof.
  unfold record_matches. rewrite existsb_exists. split.
  - intros (s & Hs & H).
    destruct (eval_sequence atd el e s) as [[b c]|ex] eqn:E; [|discriminate].
    subst b. eauto.
  - intros (s & c & Hs & H). exists s. split; [exact Hs|]. now rewrite H.
Qed.

Lemma eval_entry_matches k atd el e c :
  eval_entry atd el e (sequences k) = Ok (Some c) ->
  record_matches k atd el e = true.
Proof.
  intros H. apply record_matches_true.
  destruct (eval_entry_some _ _ _ _ _ H) as (s & Hs & Hc). eauto.
Qed.

Lemma eval_entry_no_match k atd el e :
  eval_entry atd el e (sequences k) = Ok None ->
  record_matches k atd el e = false.
Proof.
  intros H. destruct (record_matches k atd el e) eqn:E; [|reflexivity].
  apply record_matches_true in E. destruct E as (s & c & Hs & Hc).
  destruct (eval_entry_none _ _ _ _ H s Hs) as [c' Hc']. congruence.
Qed.

(** The record found by the scan is the first one that can match. *)
Lemma first_match_find k atd el entries e c :
  first_match k atd el entries = Ok (Some (e, c)) ->
  find (record_matches k atd el) entries = Some e /\
  eval_entry atd el e (sequences k) = Ok (Some c).
Proof.
  induction entries as [|e0 entries IH]; simpl; [discriminate|].
  destruct (eval_entry atd el e0 (sequences k)) as [[c0|]|ex] eqn:E; simpl;
    [| |discriminate].
  - intros [= <- <-]. rewrite (eval_entry_matches _ _ _ _ _ E). now split.
  - intros H. rewrite (eval_entry_no_match _ _ _ _ E). now apply IH.
Qed.

Lemma first_match_none k atd el entries :
  first_match k atd el entries = Ok None ->
  find (record_matches k atd el) entries = None.
Proof.
  induction entries as [|e0 entries IH]; simpl; [reflexivity|].
  destruct (eval_entry atd el e0 (sequences k)) as [[c0|]|ex] eqn:E; simpl;
    [discriminate| |discriminate].
  intros H. rewrite (eval_entry_no_match _ _ _ _ E). now apply IH.
Qed.

(** *** Records that name every position are compared without failure *)

Lemma compare_positions_ok atd topo sch st : forall i,
  (forall j, j < List.length st ->
             exists key, nth_error sch (i + j) = Some key /\
                         dict_mem topo key = true) ->
  (forall a, In a st -> dict_mem atd a = true) ->
  exists m c, compare_positions atd topo sch i st = Ok (m, c).
Proof.
  induction st as [|x st IH]; intros i Hsch Hk; simpl; [eauto|].
  destruct (Hsch 0) as (key & Hkey & Hmem); [simpl; lia|].
  rewrite Nat.add_0_r in Hkey. rewrite Hkey. simpl.
  unfold dict_item, dict_mem in *.
  destruct (dict_get topo key) as [v|]; [simpl|discriminate].
  specialize (Hk x (or_introl eq_refl)) as Hx.
  destruct (dict_get atd x) as [cl|]; [simpl|discriminate].
  destruct (IH (S i)) as (m & c & ->).
  - intros j Hj. replace (S i + j) with (i + S j) by lia.
    apply Hsch. simpl. lia.
  - intros a Ha. apply Hk. now right.
  - simpl. eauto.
Qed.

Lemma classify_complete n r :
  complete n (attrib r) ->
  forall j, j < n ->
    exists key, nth_error (schema (classify n r)) (0 + j) = Some key /\
                dict_mem (entry_attrib (classify n r)) key = true.
Proof.
  intros Hc j Hj. rewrite classify_schema, classify_attrib.
  unfold _identify_schema. simpl. rewrite identify_from_nth by exact Hj.
  eexists. split; [reflexivity|].
  destruct (dict_mem (attrib r) (class_key (1 + j))) eqn:E; [exact E|].
  destruct (Hc (1 + j)) as [H|H]; [lia|congruence|exact H].
Qed.

Lemma eval_sequence_ok k atd el n r s :
  n = arity k ->
  In s (sequences k) -> List.length el = arity k ->
  (forall a, In a el -> dict_mem atd a = true) ->
  complete n (attrib r) ->
  exists b c, eval_sequence atd el (classify n r) s = Ok (b, c).
Proof.
  intros -> Hs Hl Hk Hc. unfold eval_sequence.
  destruct (reorder_total k s el Hs Hl) as (st & Hst & Hlen).
  rewrite Hst. cbn [rbind].
  destruct (compare_positions_ok atd (entry_attrib (classify (arity k) r))
              (schema (classify (arity k) r)) st 0) as (m & c & ->).
  - intros j Hj. apply classify_complete; [exact Hc|lia].
  - intros a Ha. apply Hk. now apply (reorder_In k s el st Hs Hl Hst).
  - simpl. eauto.
Qed.

Lemma eval_entry_ok k atd el n r :
  n = arity k -> List.length el = arity k ->
  (forall a, In a el -> dict_mem atd a = true) ->
  complete n (attrib r) ->
  exists o, eval_entry atd el (classify n r) (sequences k) = Ok o.
Proof.
  intros Hn Hl Hk Hc.
  assert (H : forall seqs, incl seqs (sequences k) ->
            exists o, eval_entry atd el (classify n r) seqs = Ok o).
  { induction seqs as [|s seqs IH]; intros Hincl; simpl; [eauto|].
    destruct (eval_sequence_ok k atd el n r s Hn) as (b & c & ->); auto.
    - apply Hincl. now left.
    - simpl. destruct b; [eauto|]. apply IH.
      intros s' Hs'. apply Hincl. now right. }
  apply H, incl_refl.
Qed.

Lemma first_match_ok k atd el n entries :
  n = arity k -> List.length el = arity k ->
  (forall a, In a el -> dict_mem atd a = true) ->
  (forall e, In e entries ->
             exists r, e = classify n r /\ complete n (attrib r)) ->
  exists o, first_match k atd el entries = Ok o.
Proof.
  intros Hn Hl Hk. induction entries as [|e entries IH]; intros He; simpl.
  - eauto.
  - destruct (He e (or_introl eq_refl)) as (r & -> & Hc).
    destruct (eval_entry_ok k atd el n r Hn Hl Hk Hc) as [o ->]. simpl.
    destruct o; [eauto|]. apply IH. intros e' He'. apply He. now right.
Qed.

(** Where the scan stops: the records before the first match are compared
    without a match, the record found is compared with one. *)
Lemma first_match_split k atd el entries e c :
  first_match k atd el entries = Ok (Some (e, c)) ->
  exists before after,
    entries = before ++ e :: after /\
    (forall e', In e' before ->
                eval_entry atd el e' (sequences k) = Ok None) /\
    eval_entry atd el e (sequences k) = Ok (Some c).
Proof.
  induction entries as [|e0 entries IH]; simpl; [discriminate|].
  destruct (eval_entry atd el e0 (sequences k)) as [[c0|]|ex] eqn:E; simpl;
    [| |discriminate].
  - intros [= <- <-]. exists [], entries. split; [reflexivity|].
    split; [intros e' []|exact E].
  - intros H. destruct (IH H) as (before & after & -> & Hb & He).
    exists (e0 :: before), after. split; [reflexivity|]. split; [|exact He].
    intros e' [<-|He']; auto.
Qed.

Lemma try_entries_unmatched k atd el uc w before :
  (forall e', In e' before ->
              eval_entry atd el e' (sequences k) = Ok None) ->
  foldM (try_entry k atd el) before (uc, true) w = Done w (uc, true).
Proof.
  induction before as [|e before IH]; intros H; [reflexivity|].
  cbn [foldM]. unfold bind. rewrite try_entry_run.
  rewrite (H e (or_introl eq_refl)). apply IH.
  intros e' He'. apply H. now right.
Qed.



(** In the document of the witness the record selected for the bond
    (opls_135, opls_140) is the fourth one, the first of weight 0. *)
Example selection_among_five_bond_records :
  let xml_root :=
    [mkElement "Bond" [("class1", "CT"); ("class2", "HC"); ("k", "1")];
     mkElement "Bond" [("type1", "opls_140"); ("class2", "CT"); ("k", "2")];
     mkElement "Bond" [("class1", "CT"); ("type2", "opls_140"); ("k", "3")];
     mkElement "Bond" [("type1", "opls_135"); ("type2", "opls_140"); ("k", "4")];
     mkElement "Bond" [("type1", "opls_140"); ("type2", "opls_135"); ("k", "5")]] in
  match_element Bond [("opls_135", "CT"); ("opls_140", "HC")]
    (topo_entries xml_root Bond 2) [] ["opls_135"; "opls_140"]
    (mkWorld [mkSection "HarmonicBondForce" []] [] None)
  = Done (mkWorld [mkSection "HarmonicBondForce"
                     [mkElement "Bond" [("type1", "opls_135");
                                        ("type2", "opls_140"); ("k", "4")]]]
                  [] None)
         [["opls_135"; "opls_140"]].
Proof. reflexivity. Qed.

(* ------------------------------------------------------------------ *)
(** ** No record is appended twice *)

Lemma mapR_length {A B} (f : A -> result B) l : forall l',
  mapR f l = Ok l' -> List.length l' = List.length l.
Proof.
  induction l as [|x l IH]; intros l'; simpl.
  - now intros [= <-].
  - destruct (f x) as [y|]; [simpl|discriminate].
    destruct (mapR f l) as [ys|]; [simpl|discriminate].
    intros [= <-]. simpl. now rewrite (IH ys).
Qed.

Lemma sequences_length k s : In s (sequences k) -> List.length s = arity k.
Proof. intros Hs. destruct k; split_In Hs; reflexivity. Qed.

(** The values collected from a record depend on the record only. *)
Lemma compare_positions_det topo sch st : forall atd atd' i st' m c m' c',
  compare_positions atd topo sch i st = Ok (m, c) ->
  compare_positions atd' topo sch i st' = Ok (m', c') ->
  List.length st = List.length st' ->
  c = c'.
Proof.
  induction st as [|x st IH]; intros atd atd' i [|x' st'] m c m' c';
    simpl; try discriminate.
  - now intros [= <- <-] [= <- <-].
  - destruct (nth_error sch i) as [key|]; [simpl|discriminate].
    destruct (dict_item topo key) as [v|]; [simpl|discriminate].
    destruct (dict_item atd x) as [cl|]; [simpl|discriminate].
    destruct (dict_item atd' x') as [cl'|]; [simpl|discriminate].
    destruct (compare_positions atd topo sch (S i) st) as [[m0 c0]|] eqn:E;
      [simpl|discriminate].
    destruct (compare_positions atd' topo sch (S i) st') as [[m1 c1]|] eqn:E';
      [simpl|discriminate].
    intros [= <- <-] [= <- <-] [= Hl]. f_equal. eapply IH; eauto.
Qed.

Lemma eval_sequence_det k atd el el' e s s' b c b' c' :
  In s (sequences k) -> In s' (sequences k) ->
  eval_sequence atd el e s = Ok (b, c) ->
  eval_sequence atd el' e s' = Ok (b', c') ->
  c = c'.
Proof.
  intros Hs Hs'. unfold eval_sequence.
  destruct (reorder s el) as [st|] eqn:R; [simpl|discriminate].
  destruct (reorder s' el') as [st'|] eqn:R'; [simpl|discriminate].
  destruct (compare_positions atd (entry_attrib e) (schema e) 0 st)
    as [[m0 c0]|] eqn:E; [simpl|discriminate].
  destruct (compare_positions atd (entry_attrib e) (schema e) 0 st')
    as [[m1 c1]|] eqn:E'; [simpl|discriminate].
  intros [= _ <-] [= _ <-].
  apply (compare_positions_det _ _ _ _ _ _ _ _ _ _ _ E E').
  apply mapR_length in R, R'.
  rewrite R, R', (sequences_length k s Hs), (sequences_length k s' Hs').
  reflexivity.
Qed.

Lemma emitted_by_det k n atd records elem c c' :
  emitted_by k n atd records elem c ->
  emitted_by k n atd records elem c' ->
  c = c'.
Proof.
  intros (r & el & s & b & _ & -> & Hs & He)
         (r' & el' & s' & b' & _ & Heq & Hs' & He').
  injection Heq as Heq.
  assert (Hcl : classify n r' = classify n r)
    by (unfold classify; now rewrite Heq).
  rewrite Hcl in He'.
  exact (eval_sequence_det k atd el el' (classify n r) s s' b c b' c'
           Hs Hs' He He').
Qed.

Lemma NoDup_snoc {A} (l : list A) a :
  NoDup l -> ~ In a l -> NoDup (l ++ [a]).
Proof.
  induction 1 as [|x l Hx Hl IH]; intros Ha; simpl.
  - constructor; [intros []|constructor].
  - constructor.
    + intros H. apply in_app_or in H. destruct H as [H|[->|[]]]; [auto|].
      apply Ha. now left.
    + apply IH. intros H. apply Ha. now right.
Qed.

Lemma Forall2_In_l {A B} (R : A -> B -> Prop) l l' a :
  Forall2 R l l' -> In a l -> exists b, In b l' /\ R a b.
Proof.
  induction 1 as [|x y l l' Hxy HF IH]; intros Ha; [destruct Ha|].
  destruct Ha as [->|Ha].
  - exists y. split; [now left|exact Hxy].
  - destruct (IH Ha) as (b & Hb & Hab). exists b. split; [now right|exact Hab].
Qed.

Lemma Forall2_NoDup {A B} (R : A -> B -> Prop) l l' :
  (forall a b b', R a b -> R a b' -> b = b') ->
  Forall2 R l l' -> NoDup l' -> NoDup l.
Proof.
  intros Hdet. induction 1 as [|a b l l' Hab HF IH]; intros Hnd.
  - constructor.
  - inversion Hnd as [|? ? Hb Hl']; subst. constructor; [|auto].
    intros Ha. apply Hb.
    destruct (Forall2_In_l R l l' a HF Ha) as (b' & Hb' & Hab').
    now rewrite (Hdet a b b' Hab Hab').
Qed.

Lemma append_all_nil blank t : append_all blank t [] = blank.
Proof.
  unfold append_all. induction blank as [|[st ch] blank IH]; simpl.
  - reflexivity.
  - rewrite IH. destruct (String.eqb st t); [now rewrite app_nil_r|reflexivity].
Qed.

Lemma append_to_append_all blank t es x :
  append_to (append_all blank t es) t x = append_all blank t (es ++ [x]).
Proof.
  unfold append_to, append_all. rewrite map_map. apply map_ext.
  intros [st ch]. simpl. destruct (String.eqb st t) eqn:E; simpl; rewrite E.
  - now rewrite app_assoc.
  - reflexivity.
Qed.

Lemma matcher_state_start k n atd records w0 :
  matcher_state k n atd records w0 w0 [].
Proof.
  exists []. rewrite append_all_nil. repeat split; constructor.
Qed.

Lemma match_element_inv k n atd records entries w0 uc el w :
  (forall e, In e entries -> exists r, In r records /\ e = classify n r) ->
  matcher_state k n atd records w0 w uc ->
  match match_element k atd entries uc el w with
  | Done w' uc' => matcher_state k n atd records w0 w' uc'
  | Fail w' _ => matcher_state k n atd records w0 w' uc
  | OutOfFuel => False
  end.
Proof.
  intros Hent Hst. rewrite match_element_run.
  destruct (first_match k atd el entries) as [[[e c]|]|ex] eqn:F;
    [|exact Hst|exact Hst].
  unfold emit. destruct (in_dec tuple_eq_dec c uc) as [Hin|Hnin]; [exact Hst|].
  apply first_match_find in F. destruct F as [Hfind Hev].
  apply find_some in Hfind. destruct Hfind as [Hin _].
  destruct (Hent e Hin) as (r & Hr & ->).
  destruct (eval_entry_some _ _ _ _ _ Hev) as (s & Hs & Hc).
  destruct Hst as (emitted & Hb & Ho & Hf & HF & Hnd).
  exists (emitted ++ [_dict_to_xml (kind_tag k) (attrib r)]). simpl.
  rewrite classify_attrib, Hb, append_to_append_all.
  split; [reflexivity|]. split; [exact Ho|]. split; [exact Hf|]. split.
  - apply Forall2_app; [exact HF|]. constructor; [|constructor].
    exists r, el, s, true. auto.
  - now apply NoDup_snoc.
Qed.

Lemma match_elements_inv k n atd records entries w0 els :
  (forall e, In e entries -> exists r, In r records /\ e = classify n r) ->
  forall uc w,
  matcher_state k n atd records w0 w uc ->
  match foldM (match_element k atd entries) els uc w with
  | Done w' uc' => matcher_state k n atd records w0 w' uc'
  | Fail w' _ => exists uc', matcher_state k n atd records w0 w' uc'
  | OutOfFuel => False
  end.
Proof.
  intros Hent. induction els as [|el els IH]; intros uc w Hst.
  - exact Hst.
  - cbn [foldM]. unfold bind.
    pose proof (match_element_inv k n atd records entries w0 uc el w Hent Hst)
      as H.
    destruct (match_element k atd entries uc el w) as [w' uc'|w' ex|].
    + now apply IH.
    + eauto.
    + destruct H.
Qed.

(** C5: in one run of the matcher for one kind, the elements appended to
    the output are pairwise different, and each is a record of that kind
    from the source document: no record is appended twice, however many
    interactions match it and under whatever ordering.  This holds of the
    output tree whether the run returns or raises. *)
Theorem records_emitted_at_most_once atd typed_topo xml_root k n_params w :
  exists emitted w',
    (_topology_match atd typed_topo xml_root k n_params w = Done w' tt \/
     exists ex,
       _topology_match atd typed_topo xml_root k n_params w = Fail w' ex) /\
    blank_root w' = append_all (blank_root w) (xml_section k) emitted /\
    NoDup emitted /\
    Forall (fun elem => exists r, In r (iter xml_root (kind_tag k)) /\
                                  elem = _dict_to_xml (kind_tag k) (attrib r))
           emitted /\
    stdout w' = stdout w /\ output_xml w' = output_xml w.
Proof.
  set (records := iter xml_root (kind_tag k)).
  assert (Hfin : forall w' uc,
            matcher_state k n_params atd records w w' uc ->
            exists emitted,
              blank_root w' = append_all (blank_root w) (xml_section k) emitted /\
              NoDup emitted /\
              Forall (fun elem => exists r, In r records /\
                        elem = _dict_to_xml (kind_tag k) (attrib r)) emitted /\
              stdout w' = stdout w /\ output_xml w' = output_xml w).
  { intros w' uc (emitted & Hb & Ho & Hf & HF & Hnd). exists emitted.
    split; [exact Hb|]. split.
    - apply (Forall2_NoDup _ _ _ (emitted_by_det k n_params atd records) HF Hnd).
    - split; [|now split]. apply Forall_forall. intros elem He.
      destruct (Forall2_In_l _ _ _ _ HF He)
        as (c & _ & r & _ & _ & _ & Hr & -> & _). eauto. }
  assert (Hent : forall e, In e (topo_entries xml_root k n_params) ->
            exists r, In r records /\ e = classify n_params r).
  { intros e He. unfold topo_entries, topo_entry_temp in He.
    apply sorted_In, in_map_iff in He. destruct He as (r & <- & Hr). eauto. }
  unfold _topology_match, bind.
  destruct (enumerate k n_params (parmed_section k typed_topo))
    as [topo_by_type|ex]; simpl.
  - pose proof (match_elements_inv k n_params atd records
                  (topo_entries xml_root k n_params) w topo_by_type) as H.
    unfold match_all.
    specialize (H Hent [] w (matcher_state_start _ _ _ _ _)).
    destruct (foldM _ topo_by_type [] w) as [w' uc'|w' ex|].
    + destruct (Hfin w' uc' H) as (emitted & Hem). exists emitted, w'.
      split; [now left|exact Hem].
    + destruct H as [uc' H]. destruct (Hfin w' uc' H) as (emitted & Hem).
      exists emitted, w'. split; [right; eauto|exact Hem].
    + destruct H.
  - destruct (Hfin w [] (matcher_state_start _ _ _ _ _)) as (emitted & Hem).
    exists emitted, w. split; [right; eauto|exact Hem].
Qed.

(* ------------------------------------------------------------------ *)
(** ** Dictionaries *)

Lemma dict_mem_keys d k : dict_mem d k = true <-> In k (dict_keys d).
Proof.
  unfold dict_mem. induction d as [|[k' v] d IH]; simpl.
  - split; [discriminate|tauto].
  - destruct (String.eqb k' k) eqn:E.
    + apply String.eqb_eq in E. tauto.
    + apply String.eqb_neq in E. rewrite IH. tauto.
Qed.

Lemma dict_mem_false d k : dict_mem d k = false <-> ~ In k (dict_keys d).
Proof.
  rewrite <- dict_mem_keys. split; intros H.
  - intros H'. congruence.
  - destruct (dict_mem d k); [exfalso; now apply H|reflexivity].
Qed.

Lemma dict_keys_set_known d k v :
  In k (dict_keys d) -> dict_keys (dict_set d k v) = dict_keys d.
Proof.
  induction d as [|[k' v'] d IH]; simpl; [tauto|].
  intros H. destruct (String.eqb k' k) eqn:E; simpl; [reflexivity|].
  apply String.eqb_neq in E. destruct H as [H|H]; [congruence|].
  now rewrite IH.
Qed.

Lemma dict_keys_set_new d k v :
  ~ In k (dict_keys d) -> dict_keys (dict_set d k v) = dict_keys d ++ [k].
Proof.
  induction d as [|[k' v'] d IH]; simpl; [reflexivity|].
  intros H. destruct (String.eqb k' k) eqn:E; simpl.
  - apply String.eqb_eq in E. tauto.
  - rewrite IH; tauto.
Qed.

Lemma dict_keys_update d' : forall d,
  NoDup (dict_keys d') ->
  (forall k, In k (dict_keys d') -> ~ In k (dict_keys d)) ->
  dict_keys (dict_update d d') = dict_keys d ++ dict_keys d'.
Proof.
  unfold dict_update.
  induction d' as [|[k v] d' IH]; intros d Hnd Hdis; simpl.
  - now rewrite app_nil_r.
  - simpl in Hnd. inversion Hnd as [|? ? Hk Hnd']; subst.
    rewrite IH; [|exact Hnd'|].
    + rewrite dict_keys_set_new by (apply Hdis; now left).
      now rewrite <- app_assoc.
    + intros k' Hk'. rewrite dict_keys_set_new by (apply Hdis; now left).
      intros H. apply in_app_or in H. destruct H as [H|[<-|[]]].
      * apply (Hdis k'); [now right|exact H].
      * exact (Hk Hk').
Qed.

Lemma initial_types_keys names : forall d,
  NoDup (dict_keys d) ->
  let d' := fold_left (fun d name => if dict_mem d name then d
                                     else dict_set d name "") names d in
  NoDup (dict_keys d') /\
  forall id, In id (dict_keys d') <-> In id (dict_keys d) \/ In id names.
Proof.
  induction names as [|name names IH]; intros d Hnd; simpl.
  - split; [exact Hnd|]. tauto.
  - destruct (dict_mem d name) eqn:E.
    + destruct (IH d Hnd) as [H1 H2]. split; [exact H1|].
      intros id. rewrite H2. apply dict_mem_keys in E.
      split; [tauto|]. intros [H|[<-|H]]; tauto.
    + apply dict_mem_false in E.
      destruct (IH (dict_set d name "")) as [H1 H2].
      { rewrite dict_keys_set_new by exact E. now apply NoDup_snoc. }
      split; [exact H1|]. intros id. rewrite H2.
      rewrite dict_keys_set_new by exact E. rewrite in_app_iff. simpl. tauto.
Qed.

Lemma collect_overrides_keys atd toks : forall ovr,
  NoDup (dict_keys ovr) ->
  NoDup (dict_keys (collect_overrides atd toks ovr)) /\
  forall id, In id (dict_keys (collect_overrides atd toks ovr)) <->
             In id (dict_keys ovr) \/
             (In id toks /\ ~ In id (dict_keys atd)).
Proof.
  unfold collect_overrides.
  induction toks as [|tok toks IH]; intros ovr Hnd; simpl.
  - split; [exact Hnd|]. tauto.
  - destruct (dict_mem atd tok) eqn:E.
    + apply dict_mem_keys in E. destruct (IH ovr Hnd) as [H1 H2].
      split; [exact H1|]. intros id. rewrite H2.
      split; [tauto|]. intros [H|[[<-|H] H']]; tauto.
    + apply dict_mem_false in E.
      destruct (in_dec string_dec tok (dict_keys ovr)) as [Hin|Hnin].
      * rewrite <- (dict_keys_set_known ovr tok "" Hin) in Hnd.
        destruct (IH _ Hnd) as [H1 H2]. split; [exact H1|].
        intros id. rewrite H2, (dict_keys_set_known ovr tok "" Hin).
        split; [tauto|]. intros [H|[[<-|H] H']]; tauto.
      * destruct (IH (dict_set ovr tok "")) as [H1 H2].
        { rewrite dict_keys_set_new by exact Hnin. now apply NoDup_snoc. }
        split; [exact H1|]. intros id. rewrite H2.
        rewrite dict_keys_set_new by exact Hnin. rewrite in_app_iff. simpl.
        split; [|tauto]. intros [[H|[<-|[]]]|H]; tauto.
Qed.

(* ------------------------------------------------------------------ *)
(** ** One pass of the type resolution *)

Lemma foldR_invariant {A S} (body : S -> A -> result S)
    (I : list A -> S -> Prop) (l : list A) :
  (forall p x s, In x l -> I p s ->
                 exists s', body s x = Ok s' /\ I (p ++ [x]) s') ->
  forall pre acc, I pre acc ->
  exists s', foldR body l acc = Ok s' /\ I (pre ++ l) s'.
Proof.
  induction l as [|x l IH]; intros Hstep pre acc Hacc; simpl.
  - exists acc. now rewrite app_nil_r.
  - destruct (Hstep pre x acc (or_introl eq_refl) Hacc) as (s' & -> & Hs').
    simpl. destruct (IH (fun p y s Hy => Hstep p y s (or_intror Hy))
                        (pre ++ [x]) s' Hs') as (s'' & Hf & Hs'').
    exists s''. split; [exact Hf|]. now rewrite <- app_assoc in Hs''.
Qed.

Lemma referenced_nil_l known id : ~ referenced [] known id.
Proof. intros (e & t & ov & [] & _). Qed.

Lemma referenced_nil_r types id : ~ referenced types [] id.
Proof. intros (e & t & ov & _ & [] & _). Qed.

Lemma referenced_app_l p q known id :
  referenced (p ++ q) known id <->
  referenced p known id \/ referenced q known id.
Proof.
  split.
  - intros (e & t & ov & He & H). apply in_app_or in He.
    destruct He as [He|He]; [left|right]; exists e, t, ov; tauto.
  - intros [(e & t & ov & He & H)|(e & t & ov & He & H)];
      exists e, t, ov; (split; [apply in_or_app; tauto|exact H]).
Qed.

Lemma referenced_app_r types known known' id :
  referenced types (known ++ known') id <->
  referenced types known id \/ referenced types known' id.
Proof.
  split.
  - intros (e & t & ov & He & Ht & H). apply in_app_or in Ht.
    destruct Ht as [Ht|Ht]; [left|right]; exists e, t, ov; tauto.
  - intros [(e & t & ov & He & Ht & H)|(e & t & ov & He & Ht & H)];
      exists e, t, ov; (split; [exact He|]); (split; [apply in_or_app; tauto|]);
        exact H.
Qed.

Lemma dict_mem_get d k :
  dict_mem d k = true -> exists v, dict_get d k = Some v.
Proof. unfold dict_mem. destruct (dict_get d k); [eauto|discriminate]. Qed.

(** What one [Type] element adds, for one known atom type [t]. *)
Lemma scan_type_spec known t atd ovr e :
  dict_mem (attrib e) "name" = true ->
  dict_mem (attrib e) "class" = true ->
  In t known -> dict_keys atd = known -> NoDup (dict_keys ovr) ->
  exists atd' ovr',
    scan_type t (atd, ovr) e = Ok (atd', ovr') /\
    dict_keys atd' = known /\
    NoDup (dict_keys ovr') /\
    forall id, In id (dict_keys ovr') <->
               In id (dict_keys ovr) \/
               (referenced [e] [t] id /\ ~ In id known).
Proof.
  intros Hname Hclass Ht Hk Hnd. unfold scan_type, dict_item.
  destruct (dict_mem_get _ _ Hname) as [nm Hnm].
  destruct (dict_mem_get _ _ Hclass) as [cl Hcl].
  rewrite Hnm. cbn [of_option rbind].
  destruct (String.eqb nm t) eqn:E.
  - apply String.eqb_eq in E. subst nm. rewrite Hcl. cbn [of_option rbind].
    assert (Hk' : dict_keys (dict_set atd t cl) = known).
    { rewrite dict_keys_set_known; [exact Hk|]. now rewrite Hk. }
    unfold dict_mem at 1.
    destruct (dict_get (attrib e) "overrides") as [ov|] eqn:Eov;
      cbn [of_option rbind].
    + destruct (collect_overrides_keys (dict_set atd t cl) (split_comma ov)
                  ovr Hnd) as [H1 H2].
      do 2 eexists. split; [reflexivity|]. split; [exact Hk'|].
      split; [exact H1|]. intros id. rewrite H2, Hk'.
      split; (intros [H|[H H']]; [now left|right; split; [|exact H']]).
      * exists e, t, ov. simpl. tauto.
      * destruct H as (e' & t' & ov' & [<-|[]] & _ & _ & Hov & Hin).
        congruence.
    + do 2 eexists. split; [reflexivity|]. split; [exact Hk'|].
      split; [exact Hnd|]. intros id. split; [tauto|].
      intros [H|[(e' & t' & ov' & [<-|[]] & _ & _ & Hov & _) _]];
        [exact H|congruence].
  - apply String.eqb_neq in E.
    do 2 eexists. split; [reflexivity|]. split; [exact Hk|].
    split; [exact Hnd|]. intros id. split; [tauto|].
    intros [H|[(e' & t' & ov' & [<-|[]] & [<-|[]] & Hn & _) _]];
      [exact H|congruence].
Qed.

(** One pass leaves the keys of the map as they are and collects exactly
    the identifiers that the known types override and the map lacks. *)
Lemma resolution_pass_spec xml_root atd :
  well_formed_types xml_root ->
  exists atd' ovr,
    resolution_pass xml_root atd = Ok (atd', ovr) /\
    dict_keys atd' = dict_keys atd /\
    NoDup (dict_keys ovr) /\
    forall id, In id (dict_keys ovr) <->
               referenced (iter xml_root "Type") (dict_keys atd) id /\
               ~ In id (dict_keys atd).
Proof.
  intros Hwf. unfold resolution_pass.
  set (known := dict_keys atd). set (types := iter xml_root "Type").
  set (I := fun (pk : list string) (st : dict * dict) =>
              dict_keys (fst st) = known /\ NoDup (dict_keys (snd st)) /\
              forall id, In id (dict_keys (snd st)) <->
                         referenced types pk id /\ ~ In id known).
  destruct (foldR_invariant
              (fun st atom_type => foldR (scan_type atom_type) types st)
              I known) with (pre := @nil string) (acc := (atd, @nil (string * string)))
    as ([atd' ovr] & Hf & Hk & Hnd & Hin).
  - intros pk t [atd0 ovr0] Ht (Hk0 & Hnd0 & Hin0). simpl in Hk0, Hnd0, Hin0.
    set (J := fun (pe : list Element) (st : dict * dict) =>
                dict_keys (fst st) = known /\ NoDup (dict_keys (snd st)) /\
                forall id, In id (dict_keys (snd st)) <->
                           In id (dict_keys ovr0) \/
                           (referenced pe [t] id /\ ~ In id known)).
    destruct (foldR_invariant (scan_type t) J types)
      with (pre := @nil Element) (acc := (atd0, ovr0))
      as ([atd1 ovr1] & Hf & Hk1 & Hnd1 & Hin1).
    + intros pe e [atd2 ovr2] He (Hk2 & Hnd2 & Hin2).
      simpl in Hk2, Hnd2, Hin2. destruct (Hwf e He) as [Hn Hc].
      destruct (scan_type_spec known t atd2 ovr2 e Hn Hc Ht Hk2 Hnd2)
        as (atd3 & ovr3 & -> & Hk3 & Hnd3 & Hin3).
      exists (atd3, ovr3). split; [reflexivity|]. split; [exact Hk3|].
      split; [exact Hnd3|]. intros id. simpl.
      rewrite Hin3, Hin2, referenced_app_l. tauto.
    + split; [exact Hk0|]. split; [exact Hnd0|]. intros id. simpl.
      pose proof (referenced_nil_l [t] id). tauto.
    + exists (atd1, ovr1). split; [exact Hf|]. split; [exact Hk1|].
      split; [exact Hnd1|]. intros id. simpl in Hin1 |- *.
      rewrite Hin1, Hin0, referenced_app_r. tauto.
  - split; [reflexivity|]. split; [constructor|]. intros id. simpl.
    pose proof (referenced_nil_r types id). tauto.
  - exists atd', ovr. simpl in Hf, Hk, Hnd, Hin. auto.
Qed.

(* ------------------------------------------------------------------ *)
(** ** The resolution loop ends *)

Lemma print_notes_run keys : forall w,
  foldM (fun _ key => print (note key)) keys tt w =
  Done (mkWorld (blank_root w) (stdout w ++ map note keys) (output_xml w)) tt.
Proof.
  induction keys as [|key keys IH]; intros w; simpl.
  - rewrite app_nil_r. now destruct w.
  - unfold bind, print at 1. rewrite IH. simpl. now rewrite <- app_assoc.
Qed.

Lemma referenced_token xml_root known id :
  referenced (iter xml_root "Type") known id ->
  In id (override_tokens xml_root).
Proof.
  intros (e & t & ov & He & _ & _ & Hov & Hid).
  unfold override_tokens. apply in_flat_map. exists e.
  split; [exact He|]. now rewrite Hov.
Qed.

Lemma filter_length_mono {A} (f g : A -> bool) l :
  (forall x, g x = true -> f x = true) ->
  List.length (filter g l) <= List.length (filter f l).
Proof.
  intros H. induction l as [|x l IH]; simpl; [lia|].
  destruct (g x) eqn:G.
  - rewrite (H x G). simpl. lia.
  - destruct (f x); simpl; lia.
Qed.

Lemma filter_length_strict {A} (f g : A -> bool) l x :
  (forall y, g y = true -> f y = true) ->
  In x l -> f x = true -> g x = false ->
  List.length (filter g l) < List.length (filter f l).
Proof.
  intros H. induction l as [|y l IH]; intros Hin Hf Hg; [destruct Hin|].
  simpl. destruct Hin as [->|Hin].
  - rewrite Hf, Hg. simpl. pose proof (filter_length_mono f g l H). lia.
  - specialize (IH Hin Hf Hg). destruct (g y) eqn:G.
    + rewrite (H y G). simpl. lia.
    + destruct (f y); simpl; lia.
Qed.

(** A pass that finds something new leaves fewer unknown identifiers. *)
Lemma unknown_tokens_decrease xml_root atd atd' id :
  (forall k, In k (dict_keys atd) -> In k (dict_keys atd')) ->
  In id (override_tokens xml_root) ->
  ~ In id (dict_keys atd) -> In id (dict_keys atd') ->
  unknown_tokens xml_root atd' < unknown_tokens xml_root atd.
Proof.
  intros Hsub Htok Hold Hnew. unfold unknown_tokens.
  apply (filter_length_strict _ _ _ id); [|exact Htok| |].
  - intros y Hy. apply negb_true_iff in Hy. apply negb_true_iff.
    apply dict_mem_false. apply dict_mem_false in Hy. auto.
  - apply negb_true_iff. now apply dict_mem_false.
  - apply negb_false_iff. now apply dict_mem_keys.
Qed.

(** With enough fuel the loop returns: the keys it adds are those it
    prints, each once, every key is reachable from the structure's types
    through overrides, and no known type overrides an identifier that the
    map lacks. *)
Lemma resolve_spec xml_root names :
  well_formed_types xml_root ->
  forall fuel atd w,
    unknown_tokens xml_root atd < fuel ->
    NoDup (dict_keys atd) ->
    (forall id, In id (dict_keys atd) -> reachable xml_root names id) ->
    exists w' atd' noted,
      resolve fuel xml_root atd w = Done w' atd' /\
      dict_keys atd' = dict_keys atd ++ noted /\
      NoDup (dict_keys atd') /\
      stdout w' = stdout w ++ map note noted /\
      blank_root w' = blank_root w /\
      output_xml w' = output_xml w /\
      (forall id, In id (dict_keys atd') -> reachable xml_root names id) /\
      (forall id, referenced (iter xml_root "Type") (dict_keys atd') id ->
                  In id (dict_keys atd')).
Proof.
  intros Hwf. induction fuel as [|fuel IH]; intros atd w Hfuel Hnd Hreach;
    [lia|].
  destruct (resolution_pass_spec xml_root atd Hwf)
    as (atd1 & ovr & Hpass & Hk1 & Hndo & Hovr).
  assert (Hk2 : dict_keys (dict_update atd1 ovr)
                = dict_keys atd ++ dict_keys ovr).
  { rewrite dict_keys_update, Hk1; [reflexivity|exact Hndo|].
    intros k Hk. rewrite Hk1. now apply Hovr. }
  cbn [resolve]. unfold bind at 1. rewrite Hpass. cbn [lift ret].
  assert (Hcase : ovr = [] \/
            exists k0, In k0 (dict_keys ovr) /\
                       Nat.ltb 0 (List.length ovr) = true).
  { destruct ovr as [|[k0 v0] ovr']; [now left|right].
    exists k0. split; [now left|reflexivity]. }
  destruct Hcase as [->|(k0 & Hin0 & Hlt)].
  - (* nothing new: the loop stops *)
    cbn [List.length Nat.ltb Nat.leb]. unfold ret.
    exists w, atd1, []. simpl dict_update. rewrite Hk1, app_nil_r.
    repeat (split; [first [reflexivity|assumption|now rewrite app_nil_r]|]).
    intros id Hid. destruct (in_dec string_dec id (dict_keys atd)) as [H|H];
      [exact H|]. destruct (proj2 (Hovr id) (conj Hid H)).
  - rewrite Hlt. unfold bind. rewrite print_notes_run.
    set (w1 := mkWorld (blank_root w) (stdout w ++ map note (dict_keys ovr))
                       (output_xml w)).
    destruct (IH (dict_update atd1 ovr) w1)
      as (w' & atd' & noted & Hres & Hk' & Hnd' & Hout & Hb & Hf & Hr' & Hcl).
    + destruct (proj1 (Hovr k0) Hin0) as [Href Hnew].
      assert (unknown_tokens xml_root (dict_update atd1 ovr)
              < unknown_tokens xml_root atd); [|lia].
      apply (unknown_tokens_decrease _ _ _ k0).
      * intros k Hk. rewrite Hk2. apply in_or_app. now left.
      * eapply referenced_token; eauto.
      * exact Hnew.
      * rewrite Hk2. apply in_or_app. now right.
    + rewrite Hk2. apply NoDup_app; [exact Hnd|exact Hndo|].
      intros a Ha Ha'. apply Hovr in Ha'. tauto.
    + intros id Hid. rewrite Hk2 in Hid. apply in_app_or in Hid.
      destruct Hid as [Hid|Hid]; [auto|].
      apply Hovr in Hid. destruct Hid as [(e & t & ov & He & Ht & Hn & Ho & Hi) _].
      apply (reachable_override _ _ id e t ov); auto.
    + exists w', atd', (dict_keys ovr ++ noted).
      split; [exact Hres|]. split; [now rewrite Hk', Hk2, app_assoc|].
      split; [exact Hnd'|]. split.
      { rewrite Hout. unfold w1. simpl. now rewrite map_app, app_assoc. }
      auto.
Qed.

Lemma unknown_tokens_bound xml_root atd :
  unknown_tokens xml_root atd < S (List.length (override_tokens xml_root)).
Proof.
  unfold unknown_tokens.
  pose proof (List.filter_length_le (fun id => negb (dict_mem atd id))
                (override_tokens xml_root)). lia.
Qed.

Lemma initial_types_spec names :
  NoDup (dict_keys (initial_types names)) /\
  forall id, In id (dict_keys (initial_types names)) <-> In id names.
Proof.
  destruct (initial_types_keys names [] (NoDup_nil _)) as [H1 H2].
  split; [exact H1|]. intros id. unfold initial_types. rewrite H2. simpl. tauto.
Qed.

(** The structure's types and what they override, from a closed map. *)
Lemma reachable_closed xml_root names keys :
  (forall id, In id names -> In id keys) ->
  (forall id, referenced (iter xml_root "Type") keys id -> In id keys) ->
  forall id, reachable xml_root names id -> In id keys.
Proof.
  intros Hown Hcl id. induction 1 as [id Hid|id e t ov He Hn _ IH Ho Hi].
  - now apply Hown.
  - apply Hcl. exists e, t, ov. auto.
Qed.

(** Both claims about the resolution loop follow from [resolve_spec]. *)
Lemma resolve_initial xml_root names fuel w :
  well_formed_types xml_root ->
  S (List.length (override_tokens xml_root)) <= fuel ->
  exists w' atd noted,
    resolve fuel xml_root (initial_types names) w = Done w' atd /\
    dict_keys atd = dict_keys (initial_types names) ++ noted /\
    NoDup (dict_keys atd) /\
    stdout w' = stdout w ++ map note noted /\
    blank_root w' = blank_root w /\
    output_xml w' = output_xml w /\
    (forall id, In id (dict_keys atd) <-> reachable xml_root names id) /\
    (forall id, referenced (iter xml_root "Type") (dict_keys atd) id ->
                In id (dict_keys atd)).
Proof.
  intros Hwf Hfuel. destruct (initial_types_spec names) as [Hnd Hin].
  destruct (resolve_spec xml_root names Hwf fuel (initial_types names) w)
    as (w' & atd & noted & Hres & Hk & Hnd' & Hout & Hb & Hf & Hr & Hcl).
  - pose proof (unknown_tokens_bound xml_root (initial_types names)). lia.
  - exact Hnd.
  - intros id Hid. apply reachable_own. now apply Hin.
  - exists w', atd, noted. repeat (split; [assumption|]). split; [|exact Hcl].
    intros id. split; [apply Hr|].
    apply reachable_closed; [|exact Hcl].
    intros id' Hid'. rewrite Hk. apply in_or_app. left. now apply Hin.
Qed.



(** In the document of the witness, the structure's type X overrides Y,
    which overrides Z: the loop returns a map with the keys X, Y and Z,
    where Z, which no [Type] element defines, stays unresolved. *)
Example override_closure_example :
  resolve 5
    [mkElement "Type" [("name", "X"); ("class", "CX"); ("overrides", "Y")];
     mkElement "Type" [("name", "Y"); ("class", "CY"); ("overrides", "Z,X")];
     mkElement "Type" [("name", "W"); ("class", "CW"); ("overrides", "V")]]
    (initial_types ["X"; "X"]) empty_world
  = Done (mkWorld [] [note "Y"; note "Z"] None)
         [("X", "CX"); ("Y", "CY"); ("Z", "")].
Proof. reflexivity. Qed.

Lemma NoDup_app_disjoint {A} (l l' : list A) a :
  NoDup (l ++ l') -> In a l -> ~ In a l'.
Proof.
  induction l as [|x l IH]; intros Hnd Ha; [destruct Ha|].
  simpl in Hnd. inversion Hnd as [|? ? Hx Hnd']; subst.
  destruct Ha as [->|Ha]; [|now apply IH].
  intros Ha'. apply Hx, in_or_app. now right.
Qed.

(** C6, as the code has it: the identifiers reported by a note are those
    that enter the map through an [overrides] list, that is the identifiers
    reachable from the structure's types that are not themselves types of
    the structure; each is reported once, whether or not a later pass
    resolves it to a class. *)
Theorem notes_report_types_absent_from_structure xml_root names fuel w :
  well_formed_types xml_root ->
  S (List.length (override_tokens xml_root)) <= fuel ->
  exists w' atd noted,
    resolve fuel xml_root (initial_types names) w = Done w' atd /\
    stdout w' = stdout w ++ map note noted /\
    NoDup noted /\
    forall id, In id noted <->
               reachable xml_root names id /\ ~ In id names.
Proof.
  intros Hwf Hfuel.
  destruct (resolve_initial xml_root names fuel w Hwf Hfuel)
    as (w' & atd & noted & Hres & Hk & Hnd & Hout & _ & _ & Hkeys & _).
  destruct (initial_types_spec names) as [_ Hin].
  exists w', atd, noted. split; [exact Hres|]. split; [exact Hout|].
  rewrite Hk in Hnd. split; [now apply NoDup_app_remove_l in Hnd|].
  intros id. split.
  - intros Hid. split.
    + apply Hkeys. rewrite Hk. apply in_or_app. now right.
    + intros Hn. apply (NoDup_app_disjoint _ _ id Hnd); [now apply Hin|exact Hid].
  - intros [Hr Hn]. apply Hkeys in Hr. rewrite Hk in Hr.
    apply in_app_or in Hr. destruct Hr as [Hr|Hr]; [|exact Hr].
    exfalso. apply Hn. now apply Hin.
Qed.

Lemma notes_report_types_absent_from_structure_witness :
  let xml_root :=
    [mkElement "Type" [("name", "X"); ("class", "CX"); ("overrides", "Y")];
     mkElement "Type" [("name", "Y"); ("class", "CY")]] in
  exists w' atd noted,
    resolve 3 xml_root (initial_types ["X"]) empty_world = Done w' atd /\
    stdout w' = stdout empty_world ++ map note noted /\
    NoDup noted /\
    forall id, In id noted <->
               reachable xml_root ["X"] id /\ ~ In id ["X"].
Proof.
  intros xml_root.
  apply (notes_report_types_absent_from_structure xml_root ["X"] 3 empty_world).
  - intros e He. simpl in He. destruct He as [<-|[<-|[]]]; split; reflexivity.
  - simpl. lia.
Defined.

(** C6 as stated fails in both directions.  In the first run the
    structure's type X overrides Y, and Y is resolved to the class CY by
    the second pass: a note is printed for it all the same.  In the second
    run X overrides Z, which is a type of the structure that no [Type]
    element defines: Z is never resolved to a class and no note is
    printed. *)
Lemma note_does_not_mean_unresolved :
  resolve 3
    [mkElement "Type" [("name", "X"); ("class", "CX"); ("overrides", "Y")];
     mkElement "Type" [("name", "Y"); ("class", "CY")]]
    (initial_types ["X"]) empty_world
  = Done (mkWorld [] [note "Y"] None) [("X", "CX"); ("Y", "CY")]
  /\
  resolve 3
    [mkElement "Type" [("name", "X"); ("class", "CX"); ("overrides", "Z")]]
    (initial_types ["X"; "Z"]) empty_world
  = Done (mkWorld [] [] None) [("X", "CX"); ("Z", "")].
Proof. split; reflexivity. Qed.

(* ------------------------------------------------------------------ *)
(** ** A whole run *)

(** The structure has the bonds (t1,t2) and (t2,t1) and the document one
    bond record for (t1,t2): one interaction is retained and the record
    is written once. *)
Example trim_two_symmetric_bonds :
  forcefield_trim 2
    (PmdStructure (mkStructure ["t1"; "t2"]
                               [["t1"; "t2"]; ["t2"; "t1"]] [] [] []))
    (Ok [mkSection "AtomTypes" []; mkSection "HarmonicBondForce" [];
         mkSection "NonbondedForce" []])
    (Ok [mkElement "Type" [("name", "t1"); ("class", "C1")];
         mkElement "Type" [("name", "t2"); ("class", "C2")];
         mkElement "Type" [("name", "t3"); ("class", "C3")];
         mkElement "Bond" [("type1", "t1"); ("type2", "t2"); ("k", "1.0")];
         mkElement "Atom" [("type", "t1"); ("charge", "0.0")]])
    (Ok tt) empty_world
  = let out :=
      [mkSection "AtomTypes"
         [mkElement "Type" [("name", "t1"); ("class", "C1")];
          mkElement "Type" [("name", "t2"); ("class", "C2")]];
       mkSection "HarmonicBondForce"
         [mkElement "Bond" [("type1", "t1"); ("type2", "t2"); ("k", "1.0")]];
       mkSection "NonbondedForce"
         [mkElement "Atom" [("type", "t1"); ("charge", "0.0")]]] in
    Done (mkWorld out [] (Some out)) tt.
Proof. reflexivity. Qed.

(* ================================================================== *)
(** * Further properties of the code *)

(* ------------------------------------------------------------------ *)
(** ** [_identify_schema] and [_switch_class_type] *)

(** X1: the schema has one entry per position; position [i] is [class{i}]
    when the record has that attribute and [type{i}] otherwise; the weight
    is the number of class positions, hence at most [nparams]. *)
Theorem identify_schema_shape attrib_dict nparams i :
  1 <= i <= nparams ->
  let (schema, weight) := _identify_schema attrib_dict nparams in
  List.length schema = nparams /\
  nth_error schema (i - 1) =
    Some (if dict_mem attrib_dict (class_key i) then class_key i
          else type_key i) /\
  weight = List.length (filter (fun j => dict_mem attrib_dict (class_key j))
                               (seq 1 nparams)) /\
  weight <= nparams.
Proof.
  intros Hi. unfold _identify_schema.
  pose proof (identify_from_length attrib_dict nparams 1) as Hl.
  pose proof (identify_from_nth attrib_dict nparams 1 (i - 1)) as Hn.
  pose proof (weight_counts_class_positions attrib_dict nparams 1) as Hw.
  pose proof (identify_from_weight attrib_dict nparams 1) as Hb.
  destruct (identify_from attrib_dict 1 nparams) as [schema weight].
  simpl in *. replace (S (i - 1)) with i in Hn by lia.
  split; [exact Hl|]. split; [apply Hn; lia|]. split; [exact Hw|exact Hb].
Qed.

Lemma identify_schema_shape_witness :
  let (schema, weight) :=
    _identify_schema [("type1", "opls_135"); ("class2", "CT");
                      ("class3", "CT"); ("k", "1")] 4 in
  List.length schema = 4 /\
  nth_error schema (4 - 1) =
    Some (if dict_mem [("type1", "opls_135"); ("class2", "CT");
                       ("class3", "CT"); ("k", "1")] (class_key 4)
          then class_key 4 else type_key 4) /\
  weight = List.length
             (filter (fun j => dict_mem [("type1", "opls_135"); ("class2", "CT");
                                         ("class3", "CT"); ("k", "1")]
                                        (class_key j))
                     (seq 1 4)) /\
  weight <= 4.
Proof.
  apply (identify_schema_shape
           [("type1", "opls_135"); ("class2", "CT"); ("class3", "CT"); ("k", "1")]
           4 4).
  lia.
Defined.

Lemma compare_positions_nth atd topo sch st : forall i m c j a,
  compare_positions atd topo sch i st = Ok (m, c) ->
  nth_error st j = Some a ->
  exists key v cl,
    nth_error sch (i + j) = Some key /\
    dict_get topo key = Some v /\
    dict_get atd a = Some cl /\
    nth_error c j = Some v /\
    nth_error m j = Some (String.eqb v (_switch_class_type key cl a)).
Proof.
  induction st as [|x st IH]; intros i m c j a; simpl.
  - intros _ H. destruct j; discriminate.
  - destruct (nth_error sch i) as [key|] eqn:Ek; [simpl|discriminate].
    unfold dict_item.
    destruct (dict_get topo key) as [v|] eqn:Ev; [simpl|discriminate].
    destruct (dict_get atd x) as [cl|] eqn:Ex; [simpl|discriminate].
    destruct (compare_positions atd topo sch (S i) st) as [[m' c']|] eqn:E;
      [simpl|discriminate].
    intros [= <- <-] Hj. destruct j as [|j]; simpl in Hj.
    + injection Hj as <-. exists key, v, cl. rewrite Nat.add_0_r. auto.
    + destruct (IH _ _ _ _ _ E Hj) as (key' & v' & cl' & H1 & H2).
      exists key', v', cl'. replace (i + S j) with (S i + j) by lia.
      split; [exact H1|exact H2].
Qed.

(** X2: what a comparison tests.  For a classified record and an ordering
    that was compared without failure, the entry of [match] at a position
    says whether the record's value there equals the class of the atom,
    when the record has [class{i}] for that position, and whether it
    equals the type of the atom otherwise; [collection] holds the record's
    value.  (['class' in schema] decides this correctly for every
    position number.) *)
Theorem comparison_tests_class_or_type atd r n st m c j a :
  compare_positions atd (attrib r) (schema (classify n r)) 0 st = Ok (m, c) ->
  nth_error st j = Some a ->
  exists v cl,
    nth_error c j = Some v /\ dict_get atd a = Some cl /\
    ((dict_get (attrib r) (class_key (S j)) = Some v /\
      nth_error m j = Some (String.eqb v cl)) \/
     (dict_get (attrib r) (class_key (S j)) = None /\
      dict_get (attrib r) (type_key (S j)) = Some v /\
      nth_error m j = Some (String.eqb v a))).
Proof.
  intros Hcmp Hj.
  destruct (compare_positions_nth _ _ _ _ _ _ _ _ _ Hcmp Hj)
    as (key & v & cl & Hkey & Hv & Hcl & Hc & Hm).
  simpl in Hkey. exists v, cl. split; [exact Hc|]. split; [exact Hcl|].
  assert (Hjn : j < n).
  { rewrite <- (identify_from_length (attrib r) n 1).
    rewrite classify_schema in Hkey. unfold _identify_schema in Hkey.
    apply nth_error_Some. congruence. }
  rewrite classify_schema in Hkey. unfold _identify_schema in Hkey.
  rewrite identify_from_nth in Hkey by exact Hjn. simpl in Hkey.
  unfold dict_mem in Hkey.
  destruct (dict_get (attrib r) (class_key (S j))) as [v'|] eqn:E;
    injection Hkey as <-.
  - left. rewrite switch_class_key in Hm. split; [congruence|exact Hm].
  - right. rewrite switch_type_key in Hm. auto.
Qed.

Lemma comparison_tests_class_or_type_witness :
  let atd := [("opls_135", "CT"); ("opls_140", "HC")] in
  let r := mkElement "Bond" [("class1", "CT"); ("type2", "opls_140")] in
  exists v cl,
    nth_error ["CT"; "opls_140"] 1 = Some v /\
    dict_get atd "opls_140" = Some cl /\
    ((dict_get (attrib r) (class_key 2) = Some v /\
      nth_error [true; true] 1 = Some (String.eqb v cl)) \/
     (dict_get (attrib r) (class_key 2) = None /\
      dict_get (attrib r) (type_key 2) = Some v /\
      nth_error [true; true] 1 = Some (String.eqb v "opls_140"))).
Proof.
  intros atd r.
  apply (comparison_tests_class_or_type atd r 2 ["opls_135"; "opls_140"]
           [true; true] ["CT"; "opls_140"] 1 "opls_140"); reflexivity.
Defined.

(* ------------------------------------------------------------------ *)
(** ** The order in which records are scanned *)

Lemma insert_by_Permutation {A} (key : A -> nat) x l :
  Permutation (insert_by key x l) (x :: l).
Proof.
  induction l as [|y l IH]; simpl; [apply Permutation_refl|].
  destruct (Nat.leb (key x) (key y)); [apply Permutation_refl|].
  apply (perm_trans (perm_skip y IH)). apply perm_swap.
Qed.

Lemma sorted_Permutation {A} (key : A -> nat) l :
  Permutation (sorted key l) l.
Proof.
  induction l as [|x l IH]; simpl; [constructor|].
  apply (perm_trans (insert_by_Permutation key x (sorted key l))).
  now apply perm_skip.
Qed.

Lemma filter_insert_by {A} (key : A -> nat) w x l :
  filter (fun y => Nat.eqb (key y) w) (insert_by key x l) =
  if Nat.eqb (key x) w then x :: filter (fun y => Nat.eqb (key y) w) l
  else filter (fun y => Nat.eqb (key y) w) l.
Proof.
  induction l as [|y l IH]; simpl; [reflexivity|].
  destruct (Nat.leb (key x) (key y)) eqn:E; simpl; [reflexivity|].
  rewrite IH. apply Nat.leb_gt in E.
  destruct (Nat.eqb (key x) w) eqn:Ex; [|reflexivity].
  destruct (Nat.eqb (key y) w) eqn:Ey; [|reflexivity].
  apply Nat.eqb_eq in Ex, Ey. lia.
Qed.

(** X3: the records are scanned in a stable order by weight: the scan list
    holds the classified records of the kind, each as often as the
    document does, in ascending weight, and the records of one weight
    stand in it in document order. *)
Theorem topo_entries_stably_sorted xml_root k n :
  Permutation (topo_entries xml_root k n) (topo_entry_temp xml_root k n) /\
  StronglySorted (le_key weight) (topo_entries xml_root k n) /\
  forall w,
    filter (fun e => Nat.eqb (weight e) w) (topo_entries xml_root k n) =
    filter (fun e => Nat.eqb (weight e) w) (topo_entry_temp xml_root k n).
Proof.
  unfold topo_entries. split; [apply sorted_Permutation|].
  split; [apply sorted_sorted|]. intros w.
  induction (topo_entry_temp xml_root k n) as [|e l IH]; simpl; [reflexivity|].
  rewrite filter_insert_by, IH. reflexivity.
Qed.

(* ------------------------------------------------------------------ *)
(** ** Reading the interactions of the structure *)

Lemma mapR_nth_error_mid {A} (ex : exn) (l : list A) : forall pre post,
  mapR (fun i => of_option ex (nth_error (pre ++ l ++ post) i))
       (seq (List.length pre) (List.length l)) = Ok l.
Proof.
  induction l as [|x l IH]; intros pre post; [reflexivity|].
  cbn [List.length seq mapR].
  rewrite nth_error_app2 by lia. rewrite Nat.sub_diag.
  cbn [app nth_error of_option rbind].
  specialize (IH (pre ++ [x]) post). rewrite <- app_assoc in IH.
  simpl app in IH. rewrite length_app in IH. simpl List.length in IH.
  rewrite Nat.add_1_r in IH. now rewrite IH.
Qed.

(** An object with at least [n] atoms: the first [n] are read. *)
Lemma atom_types_of_long n e :
  n <= List.length e -> atom_types_of n e = Ok (firstn n e).
Proof.
  intros Hn. unfold atom_types_of.
  pose proof (mapR_nth_error_mid AttributeError (firstn n e) [] (skipn n e))
    as H.
  simpl in H. rewrite firstn_skipn, length_firstn in H.
  now replace (Nat.min n (List.length e)) with n in H by lia.
Qed.

Lemma mapR_Ok_all {A B} (f : A -> result B) l l' :
  mapR f l = Ok l' -> forall x, In x l -> exists y, f x = Ok y.
Proof.
  revert l'. induction l as [|a l IH]; intros l'; simpl; [intros _ x []|].
  destruct (f a) as [b|] eqn:Ea; [simpl|discriminate].
  destruct (mapR f l) as [bs|] eqn:El; [simpl|discriminate].
  intros _ x [<-|Hx]; [eauto|]. eapply IH; eauto.
Qed.

(** An object with fewer atoms has no [atom{n}]. *)
Lemma atom_types_of_short n e :
  List.length e < n -> atom_types_of n e = Error AttributeError.
Proof.
  intros Hn. destruct (atom_types_of n e) as [af|ex] eqn:E.
  - exfalso. unfold atom_types_of in E.
    destruct (mapR_Ok_all _ _ _ E (List.length e)) as [y Hy].
    + apply in_seq. lia.
    + replace (nth_error e (List.length e)) with (@None string) in Hy
        by (symmetry; apply nth_error_None; lia).
      discriminate.
  - pose proof (rsafe_mapR (fun ex => ex = AttributeError)
                  (fun i => of_option AttributeError (nth_error e i))
                  (seq 0 n)) as H.
    unfold atom_types_of in E. rewrite (H (fun i => rsafe_of_option _ _ _ eq_refl) ex E).
    reflexivity.
Qed.

Lemma enumerate_step_long k acc e :
  arity k <= List.length e ->
  enumerate_step k (arity k) acc e =
  enumerate_step k (arity k) acc (firstn (arity k) e) /\
  exists acc', enumerate_step k (arity k) acc e = Ok acc'.
Proof.
  intros He.
  assert (Hl : List.length (firstn (arity k) e) = arity k)
    by (rewrite length_firstn; lia).
  assert (H1 : atom_types_of (arity k) e = Ok (firstn (arity k) e))
    by now apply atom_types_of_long.
  assert (H2 : atom_types_of (arity k) (firstn (arity k) e)
               = Ok (firstn (arity k) e)).
  { rewrite <- Hl at 1. apply atom_types_of_exact. }
  split.
  - unfold enumerate_step. now rewrite H1, H2.
  - unfold enumerate_step. rewrite H1. cbn [rbind].
    destruct (is_unique_spec k (firstn (arity k) e) acc (sequences k) Hl
                (incl_refl _)) as [[-> _]|[-> _]]; simpl; eauto.
Qed.

(** X4: reading the interactions of a kind.  Objects with at least as many
    atoms as the kind's arity are read without failure and only their
    first atoms count; an object with fewer atoms makes the loop raise
    [AttributeError]. *)
Theorem enumerate_reads_leading_atoms k topo_temp :
  (Forall (fun e => arity k <= List.length e) topo_temp ->
   exists topo_by_type,
     enumerate k (arity k) topo_temp = Ok topo_by_type /\
     enumerate k (arity k) (map (firstn (arity k)) topo_temp)
       = Ok topo_by_type) /\
  (Exists (fun e => List.length e < arity k) topo_temp ->
   enumerate k (arity k) topo_temp = Error AttributeError).
Proof.
  unfold enumerate. split.
  - generalize (@nil (list string)) as acc.
    induction topo_temp as [|e l IH]; intros acc Hl; simpl; [eauto|].
    inversion Hl as [|? ? He Hl']; subst.
    destruct (enumerate_step_long k acc e He) as [<- [acc' ->]]. simpl.
    now apply IH.
  - generalize (@nil (list string)) as acc.
    induction topo_temp as [|e l IH]; intros acc Hex; simpl;
      [inversion Hex|].
    destruct (Nat.lt_ge_cases (List.length e) (arity k)) as [Hs|Hg].
    + unfold enumerate_step. now rewrite atom_types_of_short.
    + destruct (enumerate_step_long k acc e Hg) as [_ [acc' ->]]. simpl.
      apply IH. inversion Hex as [? ? H|? ? H]; subst; [lia|exact H].
Qed.

Lemma enumerate_reads_leading_atoms_witness :
  (exists topo_by_type,
     enumerate Angle 3 [["h"; "c"; "h"; "x"]; ["h"; "c"; "h"]]
       = Ok topo_by_type /\
     enumerate Angle 3 (map (firstn 3) [["h"; "c"; "h"; "x"]; ["h"; "c"; "h"]])
       = Ok topo_by_type) /\
  enumerate Angle 3 [["h"; "c"; "h"]; ["h"; "c"]] = Error AttributeError.
Proof.
  split.
  - apply (proj1 (enumerate_reads_leading_atoms Angle
                    [["h"; "c"; "h"; "x"]; ["h"; "c"; "h"]])).
    repeat constructor.
  - apply (proj2 (enumerate_reads_leading_atoms Angle
                    [["h"; "c"; "h"]; ["h"; "c"]])).
    apply Exists_cons_tl, Exists_cons_hd. simpl. lia.
Defined.

(** X5: every interaction read is represented: the retained list holds
    input interactions only, without repetition, and every input
    interaction is a reordering, by one of the kind's sequences, of a
    retained one. *)
Theorem enumerate_represents_every_interaction k topo_temp :
  Forall (fun e => List.length e = arity k) topo_temp ->
  exists topo_by_type,
    enumerate k (arity k) topo_temp = Ok topo_by_type /\
    NoDup topo_by_type /\
    (forall x, In x topo_by_type -> In x topo_temp) /\
    (forall x, In x topo_temp ->
               exists y, In y topo_by_type /\ equivalent k y x).
Proof.
  intros Hl.
  destruct (enumerate_retained k topo_temp Hl)
    as (out & Hout & Hlen & Hsub & Hcov & Hord).
  exists out. split; [exact Hout|]. split; [|split; [exact Hsub|]].
  - clear Hout Hsub Hcov.
    induction out as [|y out IH] using rev_ind; [constructor|].
    apply Forall_app in Hlen. destruct Hlen as [Hlen Hy].
    inversion Hy as [|? ? Hly _]; subst.
    apply NoDup_snoc.
    + apply IH; [exact Hlen|]. intros l1 z l2 E x Hx.
      apply (Hord l1 z (l2 ++ [y])); [|exact Hx].
      now rewrite E, <- app_assoc.
    + intros Hin. destruct (Hord out y [] eq_refl y Hin) as [Hne _].
      apply Hne. now apply equivalent_refl.
  - intros x Hx. destruct (Hcov x Hx) as (y & Hy & Hxy). exists y.
    split; [exact Hy|]. apply equivalent_sym; [|exact Hxy].
    rewrite Forall_forall in Hl. now apply Hl.
Qed.

Lemma enumerate_represents_every_interaction_witness :
  exists topo_by_type,
    enumerate Proper 4
      [["h"; "c"; "c"; "o"]; ["o"; "c"; "c"; "h"]; ["h"; "c"; "c"; "h"]]
      = Ok topo_by_type /\
    NoDup topo_by_type /\
    (forall x, In x topo_by_type ->
               In x [["h"; "c"; "c"; "o"]; ["o"; "c"; "c"; "h"];
                     ["h"; "c"; "c"; "h"]]) /\
    (forall x, In x [["h"; "c"; "c"; "o"]; ["o"; "c"; "c"; "h"];
                     ["h"; "c"; "c"; "h"]] ->
               exists y, In y topo_by_type /\ equivalent Proper y x).
Proof.
  apply (enumerate_represents_every_interaction Proper).
  repeat constructor.
Defined.

(* ------------------------------------------------------------------ *)
(** ** Matching and the orderings of an interaction *)

Lemma record_matches_reordered k atd x y e :
  List.length x = arity k -> equivalent k x y ->
  record_matches k atd y e = true -> record_matches k atd x e = true.
Proof.
  intros Hx Hxy Hm. apply record_matches_true in Hm.
  destruct Hm as (s & c & Hs & He). apply record_matches_true.
  unfold eval_sequence in He.
  destruct (reorder s y) as [st|] eqn:Hst; [|discriminate].
  destruct (equivalent_trans k x y st Hx Hxy) as (s' & Hs' & Hst').
  { exists s. auto. }
  exists s', c. split; [exact Hs'|]. unfold eval_sequence. now rewrite Hst'.
Qed.

(** X6: whether a record can match does not depend on the ordering in
    which the interaction is written: reordering the atoms by one of the
    kind's sequences (a bond read backwards, the outer atoms of an improper
    permuted) gives the same answer for every record. *)
Theorem record_matches_any_ordering k atd x y e :
  List.length x = arity k -> equivalent k x y ->
  record_matches k atd y e = record_matches k atd x e.
Proof.
  intros Hx Hxy.
  assert (Hy : List.length y = arity k) by (eapply equivalent_length; eauto).
  assert (Hyx : equivalent k y x) by now apply equivalent_sym.
  destruct (record_matches k atd x e) eqn:Ex.
  - now apply (record_matches_reordered k atd y x e Hy Hyx).
  - destruct (record_matches k atd y e) eqn:Ey; [|reflexivity].
    rewrite (record_matches_reordered k atd x y e Hx Hxy Ey) in Ex.
    discriminate.
Qed.

Lemma record_matches_any_ordering_witness :
  record_matches Bond [("t1", "C1"); ("t2", "C2")] ["t2"; "t1"]
                 (classify 2 (mkElement "Bond" [("type1", "t1"); ("class2", "C2")]))
  = record_matches Bond [("t1", "C1"); ("t2", "C2")] ["t1"; "t2"]
                 (classify 2 (mkElement "Bond" [("type1", "t1"); ("class2", "C2")])).
Proof.
  apply (record_matches_any_ordering Bond).
  - reflexivity.
  - use_sequence [1; 0].
Defined.

(** X7: an interaction that no record of the document can match is
    dropped silently: the loop over it appends nothing, records nothing and
    raises nothing. *)
Theorem unmatched_interaction_is_dropped k atd xml_root topo_element uc w :
  List.length topo_element = arity k ->
  (forall a, In a topo_element -> dict_mem atd a = true) ->
  (forall r, In r (iter xml_root (kind_tag k)) ->
             complete (arity k) (attrib r) /\
             record_matches k atd topo_element (classify (arity k) r) = false) ->
  match_element k atd (topo_entries xml_root k (arity k)) uc topo_element w
  = Done w uc.
Proof.
  intros Hl Hk Hr. rewrite match_element_run.
  assert (Hent : forall e, In e (topo_entries xml_root k (arity k)) ->
            exists r, In r (iter xml_root (kind_tag k)) /\
                      e = classify (arity k) r).
  { intros e He. unfold topo_entries, topo_entry_temp in He.
    apply sorted_In, in_map_iff in He. destruct He as (r & <- & Hin). eauto. }
  destruct (first_match_ok k atd topo_element (arity k)
              (topo_entries xml_root k (arity k)) eq_refl Hl Hk) as [o Ho].
  { intros e He. destruct (Hent e He) as (r & Hin & ->).
    exists r. split; [reflexivity|]. now apply Hr. }
  rewrite Ho. destruct o as [[e c]|]; [|reflexivity].
  exfalso. apply first_match_find in Ho. destruct Ho as [Hfind _].
  apply find_some in Hfind. destruct Hfind as [Hin Hm].
  destruct (Hent e Hin) as (r & Hr' & ->).
  destruct (Hr r Hr') as [_ Hf]. congruence.
Qed.

Lemma unmatched_interaction_is_dropped_witness :
  match_element Bond [("t1", "C1"); ("t2", "C2")]
    (topo_entries [mkElement "Bond" [("type1", "t1"); ("type2", "t1")];
                   mkElement "Bond" [("class1", "C2"); ("class2", "C2")];
                   mkElement "Angle" [("class1", "C1")]] Bond 2)
    [] ["t1"; "t2"] empty_world
  = Done empty_world [].
Proof.
  apply (unmatched_interaction_is_dropped Bond).
  - reflexivity.
  - intros a [<-|[<-|[]]]; reflexivity.
  - intros r Hr. simpl in Hr. destruct Hr as [<-|[<-|[]]].
    + split; [|reflexivity]. intros i Hi. simpl in Hi.
      assert (Hi' : i = 1 \/ i = 2) by lia.
      destruct Hi' as [-> | ->]; vm_compute; auto.
    + split; [|reflexivity]. intros i Hi. simpl in Hi.
      assert (Hi' : i = 1 \/ i = 2) by lia.
      destruct Hi' as [-> | ->]; vm_compute; auto.
Defined.

(* ------------------------------------------------------------------ *)
(** ** What a run does to the output tree and the output file *)

Section Respects.
Variable R : world -> world -> Prop.
Hypothesis R_refl : forall w, R w w.
Hypothesis R_trans : forall w1 w2 w3, R w1 w2 -> R w2 w3 -> R w1 w3.

Lemma respects_ret {A} (a : A) : respects R (ret a).
Proof. intros w. apply R_refl. Qed.

Lemma respects_lift {A} (r : result A) : respects R (lift r).
Proof. intros w. destruct r; apply R_refl. Qed.

Lemma respects_bind {A B} (m : M A) (f : A -> M B) :
  respects R m -> (forall a, respects R (f a)) -> respects R (bind m f).
Proof.
  intros Hm Hf w. unfold bind. specialize (Hm w).
  destruct (m w) as [w' a|w' e|]; [|exact Hm|exact I].
  specialize (Hf a w'). destruct (f a w'); eauto.
Qed.

Lemma respects_foldM {A S} (body : S -> A -> M S) (l : list A) :
  (forall s a, respects R (body s a)) ->
  forall acc, respects R (foldM body l acc).
Proof.
  intros Hb. induction l as [|x l IH]; intros acc; simpl.
  - apply respects_ret.
  - apply respects_bind; [apply Hb|exact IH].
Qed.
End Respects.

Lemma extends_refl b : extends b b.
Proof.
  unfold extends. induction b as [|s b IH]; constructor; [|exact IH].
  split; [reflexivity|]. exists []. now rewrite app_nil_r.
Qed.

Lemma extends_trans b1 b2 b3 :
  extends b1 b2 -> extends b2 b3 -> extends b1 b3.
Proof.
  unfold extends. intros H12. revert b3.
  induction H12 as [|s1 s2 b1 b2 [Ht (a & Ha)] H IH]; intros b3 H23;
    inversion H23 as [|? s3 ? b3' [Ht' (a' & Ha')] H']; subst; constructor.
  - split; [congruence|]. exists (a ++ a'). now rewrite Ha', Ha, app_assoc.
  - now apply IH.
Qed.

Lemma extends_append_to b t e : extends b (append_to b t e).
Proof.
  unfold extends, append_to. induction b as [|s b IH]; simpl; constructor;
    [|exact IH].
  destruct (String.eqb (stag s) t); simpl.
  - split; [reflexivity|]. eauto.
  - split; [reflexivity|]. exists []. now rewrite app_nil_r.
Qed.

Lemma only_appends_refl w : only_appends w w.
Proof. split; [reflexivity|apply extends_refl]. Qed.

Lemma only_appends_trans w1 w2 w3 :
  only_appends w1 w2 -> only_appends w2 w3 -> only_appends w1 w3.
Proof.
  intros [H1 H2] [H3 H4]. split; [congruence|eapply extends_trans; eauto].
Qed.

Lemma only_prints_refl w : only_prints w w.
Proof. repeat split. exists []. now rewrite app_nil_r. Qed.

Lemma only_prints_trans w1 w2 w3 :
  only_prints w1 w2 -> only_prints w2 w3 -> only_prints w1 w3.
Proof.
  intros (H1 & H2 & l & Hl) (H3 & H4 & l' & Hl').
  split; [congruence|]. split; [congruence|].
  exists (l ++ l'). now rewrite Hl', Hl, app_assoc.
Qed.

Lemma only_prints_appends w w' : only_prints w w' -> only_appends w w'.
Proof.
  intros (H1 & H2 & _). split; [exact H1|]. rewrite H2. apply extends_refl.
Qed.

Lemma respects_impl {A} (R R' : world -> world -> Prop) (m : M A) :
  (forall w w', R w w' -> R' w w') -> respects R m -> respects R' m.
Proof.
  intros H Hm w. specialize (Hm w). destruct (m w); auto.
Qed.

(** The resolution loop only prints. *)
Lemma resolve_only_prints fuel xml_root :
  forall atd, respects only_prints (resolve fuel xml_root atd).
Proof.
  induction fuel as [|fuel IH]; intros atd; [intros w; exact I|].
  cbn [resolve].
  apply respects_bind;
    [apply only_prints_trans|apply respects_lift, only_prints_refl|].
  intros [atd1 ovr]. destruct (Nat.ltb 0 (List.length ovr)).
  - apply respects_bind; [apply only_prints_trans| |intros; apply IH].
    intros w. rewrite print_notes_run. repeat split. simpl. eauto.
  - apply respects_ret, only_prints_refl.
Qed.

Lemma append_elem_only_appends t e : respects only_appends (append_elem t e).
Proof. intros w. split; [reflexivity|apply extends_append_to]. Qed.

Lemma copy_type_only_appends atd e : respects only_appends (copy_type atd e).
Proof.
  unfold copy_type.
  apply respects_bind;
    [apply only_appends_trans|apply respects_lift, only_appends_refl|].
  intros name. destruct (dict_mem atd name);
    [|apply respects_ret, only_appends_refl].
  apply respects_bind;
    [apply only_appends_trans|apply respects_lift, only_appends_refl|].
  intros class.
  apply respects_bind;
    [apply only_appends_trans|apply append_elem_only_appends|].
  intros _. apply respects_ret, only_appends_refl.
Qed.

Lemma copy_atom_only_appends atd u e :
  respects only_appends (copy_atom atd u e).
Proof.
  unfold copy_atom.
  apply respects_bind;
    [apply only_appends_trans|apply respects_lift, only_appends_refl|].
  intros type. destruct (dict_mem atd type);
    [apply append_elem_only_appends|apply respects_ret, only_appends_refl].
Qed.

Lemma topology_match_only_appends atd s xml_root k n :
  respects only_appends (_topology_match atd s xml_root k n).
Proof.
  unfold _topology_match.
  apply respects_bind;
    [apply only_appends_trans|apply respects_lift, only_appends_refl|].
  intros topo_by_type.
  apply respects_bind; [apply only_appends_trans|
                        |intros; apply respects_ret, only_appends_refl].
  unfold match_all.
  apply respects_foldM; [apply only_appends_refl|apply only_appends_trans|].
  intros uc el w. rewrite match_element_run.
  destruct (first_match k atd el (topo_entries xml_root k n))
    as [[[e c]|]|ex]; try apply only_appends_refl.
  unfold emit. destruct (in_dec tuple_eq_dec c uc);
    [apply only_appends_refl|].
  split; [reflexivity|apply extends_append_to].
Qed.

(** The [else] branch of [forcefield_trim] only appends to the tree. *)
Lemma trim_body_only_appends fuel s xml_root :
  respects only_appends (trim_body fuel s xml_root).
Proof.
  unfold trim_body.
  apply respects_bind; [apply only_appends_trans| |].
  { apply (respects_impl only_prints); [apply only_prints_appends|].
    apply resolve_only_prints. }
  intros atd.
  apply respects_bind; [apply only_appends_trans| |].
  { apply respects_foldM;
      [apply only_appends_refl|apply only_appends_trans|].
    intros; apply copy_type_only_appends. }
  intros atd'.
  apply respects_bind; [apply only_appends_trans| |].
  { apply respects_foldM;
      [apply only_appends_refl|apply only_appends_trans|].
    intros; apply copy_atom_only_appends. }
  intros _.
  repeat (apply respects_bind;
          [apply only_appends_trans|apply topology_match_only_appends|];
          intros _).
  apply topology_match_only_appends.
Qed.

Lemma writes_at_end_bind {A B} (m : M A) (f : A -> M B) :
  respects only_appends m -> (forall a, writes_at_end (f a)) ->
  writes_at_end (bind m f).
Proof.
  intros Hm Hf w. unfold bind. specialize (Hm w).
  destruct (m w) as [w' a|w' e|]; [|exact Hm|exact I].
  specialize (Hf a w'). destruct (f a w') as [w'' b|w'' e|]; [| |exact I].
  - destruct Hf as [Ho He]. split; [exact Ho|].
    destruct Hm as [_ Hm]. eapply extends_trans; eauto.
  - eapply only_appends_trans; eauto.
Qed.

Lemma writes_at_end_write_file open_output :
  writes_at_end (write_file open_output).
Proof.
  intros w. unfold write_file, bind. destruct open_output as [u|e]; simpl.
  - split; [reflexivity|apply extends_refl].
  - apply only_appends_refl.
Qed.

(** X8: [forcefield_trim] writes the output file only as its last step.
    When it returns, the file holds the final tree, which is the template
    with elements appended: the same sections in the same order, each with
    its former children first.  When it raises, whatever the exception, no
    file was written. *)
Theorem trim_writes_only_on_success
    fuel typed_molecule blank_xml input_xml open_output w :
  match forcefield_trim fuel typed_molecule blank_xml input_xml open_output w
  with
  | Done w' _ =>
      exists root, blank_xml = Ok root /\
                   extends root (blank_root w') /\
                   output_xml w' = Some (blank_root w')
  | Fail w' _ => output_xml w' = output_xml w
  | OutOfFuel => True
  end.
Proof.
  destruct blank_xml as [root|e]; [|reflexivity].
  destruct input_xml as [xml_root|e]; [|reflexivity].
  rewrite trim_after_parse. destruct typed_molecule as [s|]; [|reflexivity].
  set (w1 := mkWorld root (stdout w) (output_xml w)).
  pose proof (writes_at_end_bind (trim_body fuel s xml_root)
                (fun _ => write_file open_output)
                (trim_body_only_appends fuel s xml_root)
                (fun _ => writes_at_end_write_file open_output) w1) as H.
  destruct (bind _ _ w1) as [w' u|w' e|]; [| |exact I].
  - destruct H as [Ho He]. exists root. auto.
  - destruct H as [Ho _]. exact Ho.
Qed.

(* ------------------------------------------------------------------ *)
(** ** Copying the atom types and the nonbonded parameters *)

Lemma foldM_invariant {A S} (body : S -> A -> M S)
    (I : list A -> world -> S -> Prop) (l : list A) :
  (forall p x s w, In x l -> I p w s ->
     exists w' s', body s x w = Done w' s' /\ I (p ++ [x]) w' s') ->
  forall pre acc w, I pre w acc ->
  exists w' s', foldM body l acc w = Done w' s' /\ I (pre ++ l) w' s'.
Proof.
  induction l as [|x l IH]; intros Hstep pre acc w Hacc; simpl.
  - exists w, acc. now rewrite app_nil_r.
  - destruct (Hstep pre x acc w (or_introl eq_refl) Hacc)
      as (w1 & s1 & Hb & Hs1).
    unfold bind. rewrite Hb.
    destruct (IH (fun p y s w0 Hy => Hstep p y s w0 (or_intror Hy))
                 (pre ++ [x]) s1 w1 Hs1) as (w2 & s2 & Hf & Hs2).
    exists w2, s2. split; [exact Hf|]. now rewrite <- app_assoc in Hs2.
Qed.

Lemma dict_get_set d k v t :
  dict_get (dict_set d k v) t = if String.eqb k t then Some v else dict_get d t.
Proof.
  induction d as [|[k' v'] d IH]; simpl.
  - reflexivity.
  - destruct (String.eqb k' k) eqn:E; simpl.
    + apply String.eqb_eq in E. subst k'.
      destruct (String.eqb k t); reflexivity.
    + rewrite IH. destruct (String.eqb k' t) eqn:E'; [|reflexivity].
      destruct (String.eqb k t) eqn:Ek; [|reflexivity].
      apply String.eqb_eq in E', Ek. apply String.eqb_neq in E. congruence.
Qed.

Lemma iter_tag xml_root t e : In e (iter xml_root t) -> tag e = t.
Proof.
  unfold iter. intros H. apply filter_In in H. destruct H as [_ H].
  now apply String.eqb_eq.
Qed.

Lemma class_of_snoc types e t :
  class_of (types ++ [e]) t =
  if name_is t e then dict_get (attrib e) "class" else class_of types t.
Proof.
  unfold class_of. rewrite filter_app. simpl.
  destruct (name_is t e); [|now rewrite app_nil_r].
  now rewrite rev_app_distr.
Qed.

(** The loop over the AtomTypes, for a document with named and classed
    [Type] elements. *)
Lemma copy_types_run xml_root atd w :
  well_formed_types xml_root ->
  exists atd',
    foldM copy_type (iter xml_root "Type") atd w =
    Done (mkWorld (append_all (blank_root w) "AtomTypes"
                     (filter (known_type atd) (iter xml_root "Type")))
                  (stdout w) (output_xml w)) atd' /\
    dict_keys atd' = dict_keys atd /\
    forall t, In t (dict_keys atd) ->
      dict_get atd' t = match class_of (iter xml_root "Type") t with
                        | Some c => Some c
                        | None => dict_get atd t
                        end.
Proof.
  intros Hwf.
  set (I := fun (pe : list Element) (w' : world) (atd' : dict) =>
    w' = mkWorld (append_all (blank_root w) "AtomTypes"
                    (filter (known_type atd) pe)) (stdout w) (output_xml w) /\
    dict_keys atd' = dict_keys atd /\
    forall t, In t (dict_keys atd) ->
      dict_get atd' t = match class_of pe t with
                        | Some c => Some c
                        | None => dict_get atd t
                        end).
  destruct (foldM_invariant copy_type I (iter xml_root "Type"))
    with (pre := @nil Element) (acc := atd) (w := w)
    as (w' & atd' & Hf & -> & Hk & Hv).
  - intros pe e atd1 w1 He (-> & Hk1 & Hv1). unfold I.
    destruct (Hwf e He) as [Hn Hc].
    destruct (dict_mem_get _ _ Hn) as [nm Hnm].
    destruct (dict_mem_get _ _ Hc) as [cl Hcl].
    assert (Hmem : dict_mem atd1 nm = dict_mem atd nm).
    { destruct (dict_mem atd nm) eqn:E.
      - apply dict_mem_keys. rewrite Hk1. now apply dict_mem_keys.
      - apply dict_mem_false. rewrite Hk1. now apply dict_mem_false. }
    unfold copy_type, bind, dict_item. rewrite Hnm. cbn [of_option lift ret].
    rewrite Hmem. rewrite filter_app. cbn [filter].
    replace (known_type atd e) with (dict_mem atd nm)
      by (unfold known_type; now rewrite Hnm).
    destruct (dict_mem atd nm) eqn:E.
    + rewrite Hcl. cbn [of_option lift ret append_elem blank_root stdout
                          output_xml].
      do 2 eexists. split; [reflexivity|]. split; [|split].
      * rewrite append_to_append_all. unfold _dict_to_xml.
        rewrite <- (iter_tag _ _ _ He). now destruct e.
      * rewrite dict_keys_set_known; [exact Hk1|].
        rewrite Hk1. now apply dict_mem_keys.
      * intros t Ht. rewrite dict_get_set, class_of_snoc. unfold name_is.
        rewrite Hnm, Hcl. destruct (String.eqb nm t); [reflexivity|auto].
    + do 2 eexists. split; [reflexivity|]. split; [|split].
      * now rewrite app_nil_r.
      * exact Hk1.
      * intros t Ht. rewrite class_of_snoc. unfold name_is. rewrite Hnm.
        destruct (String.eqb nm t) eqn:E'; [|auto].
        apply String.eqb_eq in E'. subst nm.
        apply dict_mem_keys in Ht. congruence.
  - split; [|split; [reflexivity|]].
    + simpl. rewrite append_all_nil. now destruct w.
    + intros t Ht. reflexivity.
  - exists atd'. auto.
Qed.

(** X9: the loop over the AtomTypes copies to the [AtomTypes] section,
    unchanged and in document order, exactly the [Type] elements that name
    a type of the map; it leaves the keys of the map as they are and gives
    each type the class of its last [Type] element, if there is one. *)
Theorem atom_types_copied_for_known_types xml_root atd w :
  well_formed_types xml_root ->
  exists atd',
    foldM copy_type (iter xml_root "Type") atd w =
    Done (mkWorld (append_all (blank_root w) "AtomTypes"
                     (filter (known_type atd) (iter xml_root "Type")))
                  (stdout w) (output_xml w)) atd' /\
    dict_keys atd' = dict_keys atd /\
    forall t, In t (dict_keys atd) ->
      dict_get atd' t = match class_of (iter xml_root "Type") t with
                        | Some c => Some c
                        | None => dict_get atd t
                        end.
Proof. apply copy_types_run. Qed.

Lemma atom_types_copied_for_known_types_witness :
  let xml_root :=
    [mkElement "Type" [("name", "t1"); ("class", "C1")];
     mkElement "Type" [("name", "t2"); ("class", "C2")];
     mkElement "Type" [("name", "t1"); ("class", "C9")]] in
  let atd := [("t1", ""); ("t3", "")] in
  exists atd',
    foldM copy_type (iter xml_root "Type") atd empty_world =
    Done (mkWorld (append_all [] "AtomTypes"
                     (filter (known_type atd) (iter xml_root "Type")))
                  [] None) atd' /\
    dict_keys atd' = dict_keys atd /\
    forall t, In t (dict_keys atd) ->
      dict_get atd' t = match class_of (iter xml_root "Type") t with
                        | Some c => Some c
                        | None => dict_get atd t
                        end.
Proof.
  intros xml_root atd.
  apply (atom_types_copied_for_known_types xml_root atd empty_world).
  intros e He. simpl in He.
  destruct He as [<-|[<-|[<-|[]]]]; split; reflexivity.
Defined.

Lemma copy_atoms_run xml_root atd w :
  (forall e, In e (iter xml_root "Atom") ->
             dict_mem (attrib e) "type" = true) ->
  foldM (copy_atom atd) (iter xml_root "Atom") tt w =
  Done (mkWorld (append_all (blank_root w) "NonbondedForce"
                   (filter (known_atom atd) (iter xml_root "Atom")))
                (stdout w) (output_xml w)) tt.
Proof.
  intros Hwf.
  set (I := fun (pe : list Element) (w' : world) (_ : unit) =>
    w' = mkWorld (append_all (blank_root w) "NonbondedForce"
                    (filter (known_atom atd) pe)) (stdout w) (output_xml w)).
  destruct (foldM_invariant (copy_atom atd) I (iter xml_root "Atom"))
    with (pre := @nil Element) (acc := tt) (w := w) as (w' & [] & Hf & ->).
  - intros pe e [] w1 He ->.
    destruct (dict_mem_get _ _ (Hwf e He)) as [ty Hty].
    unfold copy_atom, bind, dict_item. rewrite Hty. cbn [of_option lift ret].
    unfold I. rewrite filter_app. cbn [filter].
    replace (known_atom atd e) with (dict_mem atd ty)
      by (unfold known_atom; now rewrite Hty).
    destruct (dict_mem atd ty).
    + exists
        (mkWorld (append_all (blank_root w) "NonbondedForce"
                    (filter (known_atom atd) pe ++ [e]))
                 (stdout w) (output_xml w)), tt.
      split; [|reflexivity].
      unfold append_elem. cbn [blank_root stdout output_xml].
      rewrite append_to_append_all. unfold _dict_to_xml.
      rewrite <- (iter_tag _ _ _ He). now destruct e.
    + do 2 eexists. split; [reflexivity|]. now rewrite app_nil_r.
  - unfold I. simpl. rewrite append_all_nil. now destruct w.
  - exact Hf.
Qed.

(** X10: the loop over the nonbonded parameters copies to the
    [NonbondedForce] section, unchanged and in document order, exactly the
    [Atom] elements whose type the map holds. *)
Theorem nonbonded_copied_for_known_types xml_root atd w :
  (forall e, In e (iter xml_root "Atom") ->
             dict_mem (attrib e) "type" = true) ->
  foldM (copy_atom atd) (iter xml_root "Atom") tt w =
  Done (mkWorld (append_all (blank_root w) "NonbondedForce"
                   (filter (known_atom atd) (iter xml_root "Atom")))
                (stdout w) (output_xml w)) tt.
Proof. apply copy_atoms_run. Qed.

Lemma nonbonded_copied_for_known_types_witness :
  let xml_root :=
    [mkElement "Atom" [("type", "t1"); ("charge", "0.1")];
     mkElement "Type" [("name", "t1"); ("class", "C1")];
     mkElement "Atom" [("type", "t2"); ("charge", "0.2")]] in
  foldM (copy_atom [("t1", "C1")]) (iter xml_root "Atom") tt
        (mkWorld [mkSection "NonbondedForce" []] [] None) =
  Done (mkWorld (append_all [mkSection "NonbondedForce" []] "NonbondedForce"
                   (filter (known_atom [("t1", "C1")]) (iter xml_root "Atom")))
                [] None) tt.
Proof.
  intros xml_root.
  apply (nonbonded_copied_for_known_types xml_root [("t1", "C1")]
           (mkWorld [mkSection "NonbondedForce" []] [] None)).
  intros e He. simpl in He. destruct He as [<-|[<-|[]]]; reflexivity.
Defined.

(* ------------------------------------------------------------------ *)
(** ** A run on well-formed input *)

Lemma matcher_state_emitted k n atd xml_root w w' uc :
  matcher_state k n atd (iter xml_root (kind_tag k)) w w' uc ->
  exists emitted,
    blank_root w' = append_all (blank_root w) (xml_section k) emitted /\
    stdout w' = stdout w /\ output_xml w' = output_xml w /\
    records_of xml_root k emitted.
Proof.
  intros (emitted & Hb & Ho & Hf & HF & Hnd). exists emitted.
  split; [exact Hb|]. split; [exact Ho|]. split; [exact Hf|]. split.
  - apply (Forall2_NoDup _ _ _ (emitted_by_det k n atd _) HF Hnd).
  - apply Forall_forall. intros elem He.
    destruct (Forall2_In_l _ _ _ _ HF He)
      as (c & _ & r & _ & _ & _ & Hr & -> & _). eauto.
Qed.

Lemma match_elements_return k atd entries els :
  (forall e, In e entries ->
             exists r, e = classify (arity k) r /\
                       complete (arity k) (attrib r)) ->
  (forall el, In el els ->
              List.length el = arity k /\
              forall a, In a el -> dict_mem atd a = true) ->
  forall uc w, exists w' uc',
    foldM (match_element k atd entries) els uc w = Done w' uc'.
Proof.
  intros Hent. induction els as [|el els IH]; intros Hels uc w.
  - simpl. unfold ret. eauto.
  - cbn [foldM]. unfold bind. rewrite match_element_run.
    destruct (Hels el (or_introl eq_refl)) as [Hl Hk].
    destruct (first_match_ok k atd el (arity k) entries eq_refl Hl Hk Hent)
      as [o ->].
    assert (Hels' : forall el', In el' els ->
              List.length el' = arity k /\
              forall a, In a el' -> dict_mem atd a = true)
      by (intros el' H; apply Hels; now right).
    destruct o as [[e c]|]; [|now apply IH].
    destruct (emit k e c uc w) as [w1 uc1]. now apply IH.
Qed.

(** One call of [_topology_match] on well-formed input. *)
Lemma topology_match_returns atd s xml_root k n w :
  n = arity k ->
  (forall r, In r (iter xml_root (kind_tag k)) ->
             complete (arity k) (attrib r)) ->
  (forall e, In e (parmed_section k s) ->
             List.length e = arity k /\
             forall a, In a e -> dict_mem atd a = true) ->
  exists w' emitted,
    _topology_match atd s xml_root k n w = Done w' tt /\
    blank_root w' = append_all (blank_root w) (xml_section k) emitted /\
    stdout w' = stdout w /\ output_xml w' = output_xml w /\
    records_of xml_root k emitted.
Proof.
  intros -> Hrec Hobj.
  assert (Hlen : Forall (fun e => List.length e = arity k)
                        (parmed_section k s)).
  { apply Forall_forall. intros e He. now apply Hobj. }
  destruct (enumerate_retained k _ Hlen) as (out & Hout & _ & Hsub & _).
  assert (Hent : forall e, In e (topo_entries xml_root k (arity k)) ->
            exists r, In r (iter xml_root (kind_tag k)) /\
                      e = classify (arity k) r).
  { intros e He. unfold topo_entries, topo_entry_temp in He.
    apply sorted_In, in_map_iff in He. destruct He as (r & <- & Hin). eauto. }
  destruct (match_elements_return k atd (topo_entries xml_root k (arity k)) out)
    with (uc := @nil (list string)) (w := w) as (w' & uc' & Hrun).
  { intros e He. destruct (Hent e He) as (r & Hin & ->). eauto. }
  { intros el Hel. apply Hobj. now apply Hsub. }
  pose proof (match_elements_inv k (arity k) atd (iter xml_root (kind_tag k))
                (topo_entries xml_root k (arity k)) w out Hent [] w
                (matcher_state_start _ _ _ _ _)) as Hinv.
  rewrite Hrun in Hinv.
  destruct (matcher_state_emitted _ _ _ _ _ _ _ Hinv) as (emitted & Hem).
  exists w', emitted. split; [|exact Hem].
  unfold _topology_match, bind, match_all. rewrite Hout. cbn [lift ret].
  now rewrite Hrun.
Qed.

Lemma known_ext atd atd' :
  dict_keys atd' = dict_keys atd ->
  forall id, dict_mem atd' id = dict_mem atd id.
Proof.
  intros Hk id. destruct (dict_mem atd id) eqn:E.
  - apply dict_mem_keys. rewrite Hk. now apply dict_mem_keys.
  - apply dict_mem_false. rewrite Hk. now apply dict_mem_false.
Qed.

(** X11: a run of [forcefield_trim] on well-formed input returns, and the
    file it writes is the template with, appended section by section: the
    [Type] elements of the types reachable from the structure's types
    through overrides, the [Atom] elements of those types, and for each
    kind of interaction a duplicate-free list of records of that kind from
    the document; what it prints are the notes of the resolution. *)
Theorem trim_output_on_well_formed_input fuel s root xml_root w :
  well_formed_input s xml_root ->
  S (List.length (override_tokens xml_root)) <= fuel ->
  exists w' atd noted bonds_ angles_ propers_ impropers_,
    forcefield_trim fuel (PmdStructure s) (Ok root) (Ok xml_root) (Ok tt) w
      = Done w' tt /\
    (forall id, dict_mem atd id = true <-> reachable xml_root (atoms s) id) /\
    stdout w' = stdout w ++ map note noted /\
    output_xml w' = Some (blank_root w') /\
    blank_root w' =
      append_all
        (append_all
           (append_all
              (append_all
                 (append_all
                    (append_all root "AtomTypes"
                       (filter (known_type atd) (iter xml_root "Type")))
                    "NonbondedForce"
                    (filter (known_atom atd) (iter xml_root "Atom")))
                 (xml_section Bond) bonds_)
              (xml_section Angle) angles_)
           (xml_section Proper) propers_)
        (xml_section Improper) impropers_ /\
    records_of xml_root Bond bonds_ /\
    records_of xml_root Angle angles_ /\
    records_of xml_root Proper propers_ /\
    records_of xml_root Improper impropers_.
Proof.
  intros (Hwf & Hatoms & Hrec & Hobj) Hfuel.
  rewrite trim_after_parse. unfold trim_body, write_file.
  set (w1 := mkWorld root (stdout w) (output_xml w)).
  destruct (resolve_initial xml_root (atoms s) fuel w1 Hwf Hfuel)
    as (w2 & atd1 & noted & Hres & _ & _ & Hout2 & Hb2 & Hf2 & Hkeys & _).
  destruct (copy_types_run xml_root atd1 w2 Hwf) as (atd2 & Hcopy & Hk2 & _).
  pose proof (known_ext atd1 atd2 Hk2) as Hmem.
  assert (Hknown : forall k e, In e (parmed_section k s) ->
            List.length e = arity k /\
            forall a, In a e -> dict_mem atd2 a = true).
  { intros k e He. destruct (Hobj k e He) as [Hl Ha]. split; [exact Hl|].
    intros a Hin. rewrite Hmem. apply dict_mem_keys, Hkeys.
    apply reachable_own. now apply Ha. }
  unfold bind. rewrite Hres, Hcopy.
  rewrite (copy_atoms_run xml_root atd2 _ Hatoms).
  cbn [blank_root stdout output_xml].
  match goal with |- context [_topology_match atd2 s xml_root Bond 2 ?w0] =>
    destruct (topology_match_returns atd2 s xml_root Bond 2 w0 eq_refl
                (Hrec Bond) (Hknown Bond))
      as (w4 & bonds_ & -> & Hb4 & Ho4 & Hf4 & HrB)
  end.
  destruct (topology_match_returns atd2 s xml_root Angle 3 w4 eq_refl
              (Hrec Angle) (Hknown Angle))
    as (w5 & angles_ & -> & Hb5 & Ho5 & Hf5 & HrA).
  destruct (topology_match_returns atd2 s xml_root Proper 4 w5 eq_refl
              (Hrec Proper) (Hknown Proper))
    as (w6 & propers_ & -> & Hb6 & Ho6 & Hf6 & HrP).
  destruct (topology_match_returns atd2 s xml_root Improper 4 w6 eq_refl
              (Hrec Improper) (Hknown Improper))
    as (w7 & impropers_ & -> & Hb7 & Ho7 & Hf7 & HrI).
  exists (mkWorld (blank_root w7) (stdout w7) (Some (blank_root w7))),
    atd2, noted, bonds_, angles_, propers_, impropers_.
  split; [reflexivity|]. split.
  { intros id. rewrite Hmem. rewrite dict_mem_keys. apply Hkeys. }
  split; [simpl; now rewrite Ho7, Ho6, Ho5, Ho4, Hout2|].
  split; [reflexivity|]. split; [|auto].
  simpl. rewrite Hb7, Hb6, Hb5, Hb4. simpl. rewrite Hb2.
  do 5 f_equal. unfold w1. simpl. f_equal.
  apply filter_ext. intros e. unfold known_type.
  destruct (dict_get (attrib e) "name"); [symmetry; apply Hmem|reflexivity].
Qed.

Lemma trim_output_on_well_formed_input_witness :
  let s := mkStructure ["t1"; "t2"] [["t1"; "t2"]; ["t2"; "t1"]] [] [] [] in
  let xml_root :=
    [mkElement "Type" [("name", "t1"); ("class", "C1"); ("overrides", "t3")];
     mkElement "Type" [("name", "t2"); ("class", "C2")];
     mkElement "Atom" [("type", "t1"); ("charge", "0.0")];
     mkElement "Bond" [("class1", "C1"); ("class2", "C2"); ("k", "1.0")]] in
  let root := [mkSection "AtomTypes" []; mkSection "HarmonicBondForce" [];
               mkSection "NonbondedForce" []] in
  exists w' atd noted bonds_ angles_ propers_ impropers_,
    forcefield_trim 2 (PmdStructure s) (Ok root) (Ok xml_root) (Ok tt)
                    empty_world
      = Done w' tt /\
    (forall id, dict_mem atd id = true <-> reachable xml_root (atoms s) id) /\
    stdout w' = stdout empty_world ++ map note noted /\
    output_xml w' = Some (blank_root w') /\
    blank_root w' =
      append_all
        (append_all
           (append_all
              (append_all
                 (append_all
                    (append_all root "AtomTypes"
                       (filter (known_type atd) (iter xml_root "Type")))
                    "NonbondedForce"
                    (filter (known_atom atd) (iter xml_root "Atom")))
                 (xml_section Bond) bonds_)
              (xml_section Angle) angles_)
           (xml_section Proper) propers_)
        (xml_section Improper) impropers_ /\
    records_of xml_root Bond bonds_ /\
    records_of xml_root Angle angles_ /\
    records_of xml_root Proper propers_ /\
    records_of xml_root Improper impropers_.
Proof.
  intros s xml_root root.
  apply (trim_output_on_well_formed_input 2 s root xml_root empty_world).
  - split; [|split; [|split]].
    + intros e He. simpl in He. destruct He as [<-|[<-|[]]]; split; reflexivity.
    + intros e He. simpl in He. destruct He as [<-|[]]. reflexivity.
    + intros k r Hr. destruct k; simpl in Hr; try (now destruct Hr).
      destruct Hr as [<-|[]]. intros i Hi. simpl in Hi.
      assert (Hi' : i = 1 \/ i = 2) by lia.
      destruct Hi' as [-> | ->]; vm_compute; auto.
    + intros k e He. destruct k; simpl in He; try (now destruct He).
      destruct He as [<-|[<-|[]]]; (split; [reflexivity|]);
        intros a Ha; simpl in Ha |- *; tauto.
  - simpl. lia.
Defined.

(* ------------------------------------------------------------------ *)
(** ** The classes in the type map *)

Lemma dict_set_all_empty d k : all_empty d -> all_empty (dict_set d k "").
Proof.
  unfold all_empty. induction 1 as [|[k' v'] d Hkv Hd IH]; simpl.
  - now repeat constructor.
  - destruct (String.eqb k' k); constructor; auto.
Qed.

Lemma dict_get_all_empty d t v :
  all_empty d -> dict_get d t = Some v -> v = "".
Proof.
  unfold all_empty. induction 1 as [|[k' v'] d Hkv Hd IH]; simpl;
    [discriminate|].
  destruct (String.eqb k' t); [|exact IH]. simpl in Hkv. congruence.
Qed.

Lemma initial_types_all_empty names : all_empty (initial_types names).
Proof.
  unfold initial_types.
  assert (H : forall d, all_empty d ->
            all_empty (fold_left (fun d name => if dict_mem d name then d
                                                else dict_set d name "")
                                 names d)).
  { induction names as [|name names IH]; intros d Hd; simpl; [exact Hd|].
    apply IH. destruct (dict_mem d name); [exact Hd|].
    now apply dict_set_all_empty. }
  apply H. constructor.
Qed.

Lemma collect_overrides_all_empty atd toks : forall ovr,
  all_empty ovr -> all_empty (collect_overrides atd toks ovr).
Proof.
  unfold collect_overrides.
  induction toks as [|tok toks IH]; intros ovr Hovr; simpl; [exact Hovr|].
  apply IH. destruct (dict_mem atd tok); [exact Hovr|].
  now apply dict_set_all_empty.
Qed.

Lemma dict_get_update d' : forall d t v,
  all_empty d' ->
  dict_get (dict_update d d') t = Some v ->
  dict_get d t = Some v \/ v = "".
Proof.
  unfold dict_update.
  induction d' as [|[k v'] d' IH]; intros d t v Hd'; simpl; [auto|].
  inversion Hd' as [|? ? Hkv Hrest]; subst. simpl in Hkv. subst v'.
  intros H. destruct (IH _ _ _ Hrest H) as [H'|H']; [|now right].
  rewrite dict_get_set in H'.
  destruct (String.eqb k t); [right; congruence|now left].
Qed.

Lemma foldR_preserves {A S} (body : S -> A -> result S) (P : S -> Prop) l :
  (forall s x s', In x l -> body s x = Ok s' -> P s -> P s') ->
  forall acc s', foldR body l acc = Ok s' -> P acc -> P s'.
Proof.
  induction l as [|x l IH]; intros Hb acc s'; simpl.
  - now intros [= <-].
  - destruct (body acc x) as [acc'|] eqn:E; [simpl|discriminate].
    intros Hf Hacc. apply (IH (fun s y s0 Hy => Hb s y s0 (or_intror Hy))
                              acc' s' Hf).
    exact (Hb acc x acc' (or_introl eq_refl) E Hacc).
Qed.

(** A [Type] element only changes the entry of the type it defines, and
    only adds unresolved entries to the overrides. *)
Lemma scan_type_values types t0 atd ovr e atd' ovr' :
  In e types ->
  scan_type t0 (atd, ovr) e = Ok (atd', ovr') ->
  (all_empty ovr -> all_empty ovr') /\
  forall t, defined types t = false -> dict_get atd' t = dict_get atd t.
Proof.
  intros He. unfold scan_type, dict_item.
  destruct (dict_get (attrib e) "name") as [nm|] eqn:Hnm;
    [cbn [of_option rbind]|discriminate].
  destruct (String.eqb nm t0) eqn:E; [|intros [= <- <-]; auto].
  apply String.eqb_eq in E. subst nm.
  destruct (dict_get (attrib e) "class") as [cl|];
    [cbn [of_option rbind]|discriminate].
  assert (Hval : forall t, defined types t = false ->
            dict_get (dict_set atd t0 cl) t = dict_get atd t).
  { intros t Ht. rewrite dict_get_set.
    destruct (String.eqb t0 t) eqn:E; [|reflexivity].
    apply String.eqb_eq in E. subst t0. exfalso.
    assert (defined types t = true); [|congruence].
    apply existsb_exists. exists e. split; [exact He|].
    unfold name_is. rewrite Hnm. apply String.eqb_refl. }
  destruct (dict_mem (attrib e) "overrides").
  - destruct (dict_get (attrib e) "overrides") as [ov|];
      [cbn [of_option rbind]|discriminate].
    intros [= <- <-]. split; [apply collect_overrides_all_empty|exact Hval].
  - intros [= <- <-]. auto.
Qed.

Lemma resolution_pass_values xml_root atd atd' ovr :
  resolution_pass xml_root atd = Ok (atd', ovr) ->
  all_empty ovr /\
  forall t, defined (iter xml_root "Type") t = false ->
            dict_get atd' t = dict_get atd t.
Proof.
  unfold resolution_pass. intros H.
  set (types := iter xml_root "Type") in *.
  set (P := fun st : dict * dict =>
              all_empty (snd st) /\
              forall t, defined types t = false ->
                        dict_get (fst st) t = dict_get atd t).
  apply (foldR_preserves _ P _) with (s' := (atd', ovr)) in H.
  - exact H.
  - intros st t0 st' _ Hin HP.
    apply (foldR_preserves _ P _) with (s' := st') in Hin; [exact Hin| |exact HP].
    intros [a o] e [a' o'] He Hs [Ho Hv].
    destruct (scan_type_values types t0 a o e a' o' He Hs) as [Ho' Hv'].
    split; [now apply Ho'|]. intros t Ht. simpl in *.
    now rewrite Hv', Hv.
  - split; [constructor|reflexivity].
Qed.

(** The loop leaves the types that no [Type] element defines unresolved. *)
Lemma resolve_values xml_root fuel : forall atd w w' atd',
  resolve fuel xml_root atd w = Done w' atd' ->
  (forall t v, dict_get atd t = Some v ->
               defined (iter xml_root "Type") t = false -> v = "") ->
  forall t v, dict_get atd' t = Some v ->
              defined (iter xml_root "Type") t = false -> v = "".
Proof.
  induction fuel as [|fuel IH]; intros atd w w' atd'; [discriminate|].
  cbn [resolve]. unfold bind at 1.
  destruct (resolution_pass xml_root atd) as [[atd1 ovr]|ex] eqn:Hpass;
    [cbn [lift ret]|discriminate].
  destruct (resolution_pass_values _ _ _ _ Hpass) as [Hovr Hval].
  intros Hrun Hinv.
  assert (Hinv2 : forall t v, dict_get (dict_update atd1 ovr) t = Some v ->
            defined (iter xml_root "Type") t = false -> v = "").
  { intros t v Hg Hd.
    destruct (dict_get_update ovr atd1 t v Hovr Hg) as [H|H]; [|exact H].
    rewrite (Hval t Hd) in H. eauto. }
  destruct (Nat.ltb 0 (List.length ovr)).
  - unfold bind in Hrun. rewrite print_notes_run in Hrun.
    exact (IH _ _ _ _ Hrun Hinv2).
  - injection Hrun as _ <-. exact Hinv2.
Qed.

Lemma class_of_defined xml_root t :
  well_formed_types xml_root ->
  class_of (iter xml_root "Type") t = None ->
  defined (iter xml_root "Type") t = false.
Proof.
  intros Hwf Hc. unfold defined.
  destruct (existsb (name_is t) (iter xml_root "Type")) eqn:E; [|reflexivity].
  exfalso. apply existsb_exists in E. destruct E as (e & He & Hn).
  unfold class_of in Hc.
  destruct (rev (filter (name_is t) (iter xml_root "Type"))) as [|e' l] eqn:Er.
  - assert (Hin : In e (filter (name_is t) (iter xml_root "Type")))
      by (apply filter_In; auto).
    apply in_rev in Hin. rewrite Er in Hin. destruct Hin.
  - assert (Hin : In e' (filter (name_is t) (iter xml_root "Type"))).
    { apply in_rev. rewrite Er. now left. }
    apply filter_In in Hin. destruct Hin as [Hin _].
    destruct (Hwf e' Hin) as [_ Hcl].
    destruct (dict_mem_get _ _ Hcl) as [c Hc']. congruence.
Qed.

(** X12: the type map that is handed to the matcher.  For a document with
    named and classed [Type] elements, the resolution loop followed by the
    loop over the AtomTypes returns a map whose keys are the structure's
    types and the types reachable from them through overrides, and which
    gives each of them the class of its last [Type] element, or the empty
    string when no [Type] element defines it. *)
Theorem type_map_holds_classes fuel xml_root names w :
  well_formed_types xml_root ->
  S (List.length (override_tokens xml_root)) <= fuel ->
  exists w' atd,
    (atom_type_dict <- resolve fuel xml_root (initial_types names) ;;
     foldM copy_type (iter xml_root "Type") atom_type_dict)%M w
      = Done w' atd /\
    (forall id, dict_mem atd id = true <-> reachable xml_root names id) /\
    forall t, dict_mem atd t = true ->
      dict_get atd t = Some (match class_of (iter xml_root "Type") t with
                             | Some c => c
                             | None => ""
                             end).
Proof.
  intros Hwf Hfuel.
  destruct (resolve_initial xml_root names fuel w Hwf Hfuel)
    as (w1 & atd1 & noted & Hres & _ & _ & _ & _ & _ & Hkeys & _).
  destruct (copy_types_run xml_root atd1 w1 Hwf) as (atd2 & Hcopy & Hk2 & Hv).
  pose proof (known_ext atd1 atd2 Hk2) as Hmem.
  unfold bind. rewrite Hres, Hcopy. do 2 eexists. split; [reflexivity|].
  split.
  - intros id. rewrite Hmem, dict_mem_keys. apply Hkeys.
  - intros t Ht. rewrite Hmem in Ht.
    rewrite (Hv t) by now apply dict_mem_keys.
    destruct (class_of (iter xml_root "Type") t) eqn:Ec; [reflexivity|].
    destruct (dict_mem_get _ _ Ht) as [v Hg]. rewrite Hg. f_equal.
    apply (resolve_values xml_root fuel _ _ _ _ Hres) with (t := t);
      [|exact Hg|now apply class_of_defined].
    intros t' v' Hg' _.
    exact (dict_get_all_empty _ _ _ (initial_types_all_empty names) Hg').
Qed.

Lemma type_map_holds_classes_witness :
  let xml_root :=
    [mkElement "Type" [("name", "X"); ("class", "CX"); ("overrides", "Y,Z")];
     mkElement "Type" [("name", "Y"); ("class", "CY")];
     mkElement "Type" [("name", "X"); ("class", "CX2")]] in
  exists w' atd,
    (atom_type_dict <- resolve 3 xml_root (initial_types ["X"]) ;;
     foldM copy_type (iter xml_root "Type") atom_type_dict)%M empty_world
      = Done w' atd /\
    (forall id, dict_mem atd id = true <-> reachable xml_root ["X"] id) /\
    forall t, dict_mem atd t = true ->
      dict_get atd t = Some (match class_of (iter xml_root "Type") t with
                             | Some c => c
                             | None => ""
                             end).
Proof.
  intros xml_root.
  apply (type_map_holds_classes 3 xml_root ["X"] empty_world).
  - intros e He. simpl in He.
    destruct He as [<-|[<-|[<-|[]]]]; split; reflexivity.
  - simpl. lia.
Defined.

(* ------------------------------------------------------------------ *)
(** ** [forcefield_score] *)

Lemma rsafe_score_type st e : rsafe lookup_failure (score_type st e).
Proof.
  unfold score_type. destruct st as [d sc].
  apply rsafe_bind; [auto with safe|]. intros class.
  apply rsafe_bind; [auto with safe|]. intros name.
  apply rsafe_bind; [auto with safe|]. intros name'. apply rsafe_Ok.
Qed.

Lemma score_after_parse fuel typed_molecule xml_root w :
  forcefield_score fuel typed_molecule (Ok xml_root) w =
  match typed_molecule with
  | OtherObject => Fail w ValueError
  | PmdStructure s =>
      (atom_type_dict <- resolve fuel xml_root (initial_types (atoms s)) ;;
       _ <- lift (foldR score_type (iter xml_root "Type") ([], [])) ;;
       ret tt)%M w
  end.
Proof. destruct typed_molecule; reflexivity. Qed.

Lemma msafe_score_body fuel s xml_root :
  msafe lookup_failure
    (atom_type_dict <- resolve fuel xml_root (initial_types (atoms s)) ;;
     _ <- lift (foldR score_type (iter xml_root "Type") ([], [])) ;;
     ret tt)%M.
Proof.
  apply msafe_bind; [apply msafe_resolve|]. intros atd.
  apply msafe_bind; [|intros; apply msafe_ret].
  apply msafe_lift, rsafe_foldR. intros; apply rsafe_score_type.
Qed.



(** X14: [forcefield_score] has no output but the notes it prints: in
    every outcome the output tree is untouched and no file is written. *)
Theorem score_only_prints fuel typed_molecule input_xml w :
  match forcefield_score fuel typed_molecule input_xml w with
  | Done w' _ => only_prints w w'
  | Fail w' _ => only_prints w w'
  | OutOfFuel => True
  end.
Proof.
  destruct input_xml as [xml_root|e]; [|apply only_prints_refl].
  rewrite score_after_parse.
  destruct typed_molecule as [s|]; [|apply only_prints_refl].
  assert (H : respects only_prints
    (atom_type_dict <- resolve fuel xml_root (initial_types (atoms s)) ;;
     _ <- lift (foldR score_type (iter xml_root "Type") ([], [])) ;;
     ret tt)%M).
  { apply respects_bind;
      [apply only_prints_trans|apply resolve_only_prints|].
    intros atd.
    apply respects_bind;
      [apply only_prints_trans|apply respects_lift, only_prints_refl|].
    intros _. apply respects_ret, only_prints_refl. }
  exact (H w).
Qed.

Lemma score_types_ok xml_root :
  well_formed_types xml_root ->
  forall st, exists st', foldR score_type (iter xml_root "Type") st = Ok st'.
Proof.
  intros Hwf.
  assert (H : forall l, (forall e, In e l -> In e (iter xml_root "Type")) ->
            forall st, exists st', foldR score_type l st = Ok st').
  { induction l as [|e l IH]; intros Hl [d sc]; simpl; [eauto|].
    destruct (Hwf e (Hl e (or_introl eq_refl))) as [Hn Hc].
    destruct (dict_mem_get _ _ Hn) as [nm Hnm].
    destruct (dict_mem_get _ _ Hc) as [cl Hcl].
    unfold dict_item. rewrite Hcl, Hnm. simpl.
    apply IH. intros e' He'. apply Hl. now right. }
  apply H. auto.
Qed.

(** X15: for a structure and a document with named and classed [Type]
    elements, [forcefield_score] returns, and what it prints are the notes
    of the resolution: one for each type reachable from the structure's
    types through overrides that is not a type of the structure. *)
Theorem score_returns_with_notes fuel s xml_root w :
  well_formed_types xml_root ->
  S (List.length (override_tokens xml_root)) <= fuel ->
  exists w' noted,
    forcefield_score fuel (PmdStructure s) (Ok xml_root) w = Done w' tt /\
    stdout w' = stdout w ++ map note noted /\
    blank_root w' = blank_root w /\ output_xml w' = output_xml w /\
    NoDup noted /\
    forall id, In id noted <->
               reachable xml_root (atoms s) id /\ ~ In id (atoms s).
Proof.
  intros Hwf Hfuel.
  destruct (resolve_initial xml_root (atoms s) fuel w Hwf Hfuel)
    as (w' & atd & noted & Hres & Hk & Hnd & Hout & Hb & Hf & Hkeys & _).
  destruct (initial_types_spec (atoms s)) as [_ Hin].
  destruct (score_types_ok xml_root Hwf ([], [])) as [st Hst].
  exists w', noted. split.
  { rewrite score_after_parse. unfold bind. rewrite Hres, Hst. reflexivity. }
  split; [exact Hout|]. split; [exact Hb|]. split; [exact Hf|].
  rewrite Hk in Hnd. split; [now apply NoDup_app_remove_l in Hnd|].
  intros id. split.
  - intros Hid. split.
    + apply Hkeys. rewrite Hk. apply in_or_app. now right.
    + intros Hn.
      apply (NoDup_app_disjoint _ _ id Hnd); [now apply Hin|exact Hid].
  - intros [Hr Hn]. apply Hkeys in Hr. rewrite Hk in Hr.
    apply in_app_or in Hr. destruct Hr as [Hr|Hr]; [|exact Hr].
    exfalso. apply Hn. now apply Hin.
Qed.

Lemma score_returns_with_notes_witness :
  let s := mkStructure ["X"] [] [] [] [] in
  let xml_root :=
    [mkElement "Type" [("name", "X"); ("class", "CX"); ("overrides", "Y")];
     mkElement "Type" [("name", "Y"); ("class", "CY")]] in
  exists w' noted,
    forcefield_score 2 (PmdStructure s) (Ok xml_root) empty_world
      = Done w' tt /\
    stdout w' = stdout empty_world ++ map note noted /\
    blank_root w' = blank_root empty_world /\
    output_xml w' = output_xml empty_world /\
    NoDup noted /\
    forall id, In id noted <->
               reachable xml_root (atoms s) id /\ ~ In id (atoms s).
Proof.
  intros s xml_root.
  apply (score_returns_with_notes 2 s xml_root empty_world).
  - intros e He. simpl in He. destruct He as [<-|[<-|[]]]; split; reflexivity.
  - simpl. lia.
Defined.

(* ------------------------------------------------------------------ *)
(** ** Only records that are used are appended *)

Lemma compare_positions_unknown atd topo sch st : forall i a,
  (forall j, j < List.length st -> nth_error sch (i + j) <> None) ->
  In a st -> dict_mem atd a = false ->
  compare_positions atd topo sch i st = Error KeyError.
Proof.
  induction st as [|x st IH]; intros i a Hsch Ha Hmem; [destruct Ha|].
  simpl. destruct (nth_error sch i) as [key|] eqn:Ek.
  2:{ exfalso. apply (Hsch 0); [simpl; lia|]. now rewrite Nat.add_0_r. }
  simpl. unfold dict_item.
  destruct (dict_get topo key) as [v|]; [simpl|reflexivity].
  destruct (dict_get atd x) as [cl|] eqn:Ex; [simpl|reflexivity].
  destruct Ha as [->|Ha].
  - unfold dict_mem in Hmem. now rewrite Ex in Hmem.
  - rewrite (IH (S i) a); [reflexivity| |exact Ha|exact Hmem].
    intros j Hj. replace (S i + j) with (i + S j) by lia.
    apply Hsch. simpl. lia.
Qed.

(** X16: an interaction with an atom whose type is not a key of the type
    map cannot be compared: while it is unmatched, the comparison with any
    record, under any ordering of the kind, raises [KeyError] before
    anything is appended. *)
Theorem unknown_atom_type_raises k atd topo_element r uc sequence w a :
  In sequence (sequences k) ->
  List.length topo_element = arity k ->
  In a topo_element -> dict_mem atd a = false ->
  try_sequence k atd topo_element (classify (arity k) r) (uc, true) sequence w
  = Fail w KeyError.
Proof.
  intros Hs Hl Ha Hmem. rewrite try_sequence_run. unfold eval_sequence.
  destruct (reorder_total k sequence topo_element Hs Hl) as (st & Hst & Hlen).
  rewrite Hst. cbn [rbind].
  rewrite (compare_positions_unknown atd _ _ st 0 a); [reflexivity| | |exact Hmem].
  - intros j Hj. simpl. rewrite classify_schema. unfold _identify_schema.
    rewrite identify_from_nth by lia. discriminate.
  - now apply (reorder_In k sequence topo_element st Hs Hl Hst).
Qed.

Lemma unknown_atom_type_raises_witness :
  try_sequence Bond [("t1", "C1")] ["t1"; "t2"]
    (classify 2 (mkElement "Bond" [("type1", "t1"); ("type2", "t2")]))
    ([], true) [0; 1] empty_world
  = Fail empty_world KeyError.
Proof.
  apply (unknown_atom_type_raises Bond [("t1", "C1")] ["t1"; "t2"]
           (mkElement "Bond" [("type1", "t1"); ("type2", "t2")])
           [] [0; 1] empty_world "t2").
  - now left.
  - reflexivity.
  - right. now left.
  - reflexivity.
Defined.

Lemma match_elements_used k n atd xml_root w0 out els :
  incl els out ->
  forall uc w,
  (exists emitted,
     blank_root w = append_all (blank_root w0) (xml_section k) emitted /\
     Forall (used_record k n atd xml_root out) emitted) ->
  match foldM (match_element k atd (topo_entries xml_root k n)) els uc w with
  | Done w' _ | Fail w' _ =>
      exists emitted,
        blank_root w' = append_all (blank_root w0) (xml_section k) emitted /\
        Forall (used_record k n atd xml_root out) emitted
  | OutOfFuel => False
  end.
Proof.
  induction els as [|el els IH]; intros Hincl uc w Hinv; [exact Hinv|].
  cbn [foldM]. unfold bind. rewrite match_element_run.
  assert (Hincl' : incl els out) by (intros x Hx; apply Hincl; now right).
  destruct (first_match k atd el (topo_entries xml_root k n))
    as [[[e c]|]|ex] eqn:F; [|now apply IH|exact Hinv].
  unfold emit. destruct (in_dec tuple_eq_dec c uc); [now apply IH|].
  apply IH; [exact Hincl'|].
  destruct Hinv as (emitted & Hb & Hu).
  apply first_match_find in F. destruct F as [Hfind _].
  apply find_some in Hfind. destruct Hfind as [Hin Hm].
  unfold topo_entries, topo_entry_temp in Hin.
  apply sorted_In, in_map_iff in Hin. destruct Hin as (r & <- & Hr).
  exists (emitted ++ [_dict_to_xml (kind_tag k) (attrib r)]). simpl.
  rewrite classify_attrib, Hb, append_to_append_all. split; [reflexivity|].
  apply Forall_app. split; [exact Hu|]. constructor; [|constructor].
  exists r, el. split; [exact Hr|]. split; [reflexivity|].
  split; [apply Hincl; now left|exact Hm].
Qed.

(** X17: the matcher appends only records that are used: in every outcome
    of a run for one kind, each element appended to the kind's section is
    a record of that kind from the document that can match one of the
    interactions retained for the structure. *)
Theorem appended_records_are_used atd typed_topo xml_root k n_params w :
  exists emitted w',
    (_topology_match atd typed_topo xml_root k n_params w = Done w' tt \/
     exists ex,
       _topology_match atd typed_topo xml_root k n_params w = Fail w' ex) /\
    blank_root w' = append_all (blank_root w) (xml_section k) emitted /\
    forall elem, In elem emitted ->
      exists topo_by_type,
        enumerate k n_params (parmed_section k typed_topo) = Ok topo_by_type /\
        used_record k n_params atd xml_root topo_by_type elem.
Proof.
  unfold _topology_match, bind.
  destruct (enumerate k n_params (parmed_section k typed_topo))
    as [out|ex]; simpl.
  - pose proof (match_elements_used k n_params atd xml_root w out out
                  (incl_refl _) [] w) as H.
    unfold match_all.
    destruct (foldM _ out [] w) as [w' uc'|w' ex|].
    + destruct H as (emitted & Hb & Hu).
      { exists []. rewrite append_all_nil. split; [reflexivity|constructor]. }
      exists emitted, w'. split; [now left|]. split; [exact Hb|].
      intros elem He. exists out. split; [reflexivity|].
      rewrite Forall_forall in Hu. now apply Hu.
    + destruct H as (emitted & Hb & Hu).
      { exists []. rewrite append_all_nil. split; [reflexivity|constructor]. }
      exists emitted, w'. split; [right; eauto|]. split; [exact Hb|].
      intros elem He. exists out. split; [reflexivity|].
      rewrite Forall_forall in Hu. now apply Hu.
    + exfalso. apply H. exists []. rewrite append_all_nil.
      split; [reflexivity|constructor].
  - exists [], w. split; [right; eauto|]. rewrite append_all_nil.
    split; [reflexivity|]. intros elem [].
Qed.
